(* ===== verification/_CoqProject ===== *)
-Q . S2P
Prelude.v
Mem.v
Heap.v
Layout.v
Relocate.v
Alloc.v
Dump.v
Collect.v
Scenario.v
CollectLoop.v
CollectSpec.v
Client.v
Payload.v
CollectBound.v
Api.v
Quota.v
