(* ===== verification/Prelude.v ===== *)
(** * cloudwu/bpa: a bump-pointer allocator with incremental compaction

The program ([src/bpa.c], [src/bpa.h]) manages one caller-supplied
buffer.  Its first [HEAP_HEADER_SIZE] 8-byte units hold [struct bpa_heap]:
the capacity [sz], the bump pointer [offset], the sweep cursor [collect]
(0 when no collection cycle is in progress), the last handle [cid] and the
table [slot[MAX_SLOT]] from [handle % MAX_SLOT] to the unit offset of a
slice.  Each allocation is a slice: [int ref], [pointer_t sz] (in units),
the payload, and the handle [id] in its last 4 bytes.  [bpa_create] bumps
the pointer, [bpa_grab]/[bpa_release] pin and unpin, [bpa_get_ptr] and
[bpa_get_id] translate, and [collect]/[bpa_collect] slide the pinned
slices down over the unpinned ones, a bounded amount of work per step,
rewriting the slot table.

** Files

- [Prelude] (this file): the 32-bit and [size_t] arithmetic of the code
  ([wrap32], [wrap64], [to_int32], [to_int8], notations [⊞ ⊠ ⊟] in
  [bpa_scope]), the
  constants of [bpa.c], the [outcome] type of a C call (a result, a failed
  [assert] = [Abort], or [OutOfFuel] for a loop model that ran out of
  fuel) with its [let!] notation, slot-table reads, the hint databases
  [bpa] and [bpa_rw] and the tactics [zlia] and [bpa_lia].
- [Mem]: the backing buffer as an interface, the classes [WordMemory]
  (load, store, memmove on byte offsets, 32-bit words) and
  [WordMemoryLaws]; every theorem of the allocator is proved against the
  laws only.  [gmem] (a stdpp [gmap]) implements them, and computes;
  [fmem] (a function from offsets to words) implements them for the
  4 GiB heaps of [Quota], whose contents are described by a formula.
  Bytes are read from the words little-endian ([mem_byte], [mem_bytes]),
  as on the targets of the code.
- [Heap]: [struct bpa_heap] as the record [heap], the macros [HEAP_SLICE]
  and [SLICE_ID] with their 32-bit products, [bpa_init] and the handle
  prober [alloc_slot] (its [for] loop of [MAX_SLOT] iterations), with
  its completeness while [H->cid] does not wrap, and its failure on
  every table whose only free slot is 0 when [H->cid] is in the last
  [MAX_SLOT] ids before the wrap; [bpa_init]'s failures.
- [Layout]: the abstract view.  [slice_at m a sl]: the words of a slice at
  unit offset [a]; [tiles m a sls b]: slices laid end to end, as the sweep
  and [bpa_dump] walk them; [heap_repr H sls]: the heap holds exactly the
  slices [sls] from the header to [H->offset], the cursor is on a slice
  boundary, the slot table maps every nonzero id, and only those, to its
  slice, pin counts are nonnegative and placeholders never pinned, and the
  capacity is at most 2^29 units (4 GiB) so that no address wraps.
  [heap_reprb] decides it on a concrete heap; [bpa_init] on a zeroed
  slot table yields the empty heap ([bpa_init_empty]).
- [Relocate]: what a sweep does to the abstract view: the pinned and
  unpinned parts of a slice list ([live], [dead]), the slot table after
  clearing or moving one entry ([slots_ok_remove], [slots_ok_move]; it is
  invariant under permutation, a [Proper] instance), tilings under
  [memmove] and under a placeholder header, and [tiles_words]: a tiling
  determines the words of the region.
- [Alloc]: [bpa_create], [bpa_grab], [bpa_release], [bpa_get_ptr],
  [bpa_get_id] and their lookup [resolve]; their functional specifications
  on every branch (success, miss, abort), the preservation of [heap_repr],
  the round trip [bpa_get_id (bpa_get_ptr h) = h], and what the 32-bit
  arithmetic does beyond its bounds, on every heap: a carrying
  [H->offset + rsz], a re-initialised buffer, a heap filled to 4 GiB.
  [ex_heap0..2] are small concrete heaps the witnesses of the whole
  development use.
- [Dump]: [bpa_dump] with the values it prints returned as data; on a
  well-formed heap its walk prints exactly the abstract view, and its slot
  lines exactly the handles.
- [Collect]: [collect] (its [for (;;)] loop [collect_loop], the pause
  [collect_pause]) and [bpa_collect] (the loops [collect_until_idle] and
  [collect_steps]), transcribed from lines 135-196.
- [CollectLoop]: the loop invariant [loop_inv] of [collect], one lemma
  per branch of the loop body and per exit, [collect_loop_spec] (the loop
  returns, by induction on the slices left), then [collect_spec] for one
  increment and [collect_until_idle_spec] for a whole cycle, with the
  progress measure [sweep_measure].
- [CollectSpec]: the abstract contract of the compactor: [cycle_result]
  (what the cycle in progress will leave), [bpa_collect H 0] (terminates,
  keeps exactly the pinned slices packed from the header), the refinement
  of a step call, granularity independence against a caller's loop
  [collect_by_steps] up to [heap_equiv], a negative [step]
  ([collect_negative_step]), and the paused-cycle finding
  ([create_during_pause_reclaimed]).
- [Client]: the client's view of a heap, the abstract handle map
  [lookup]; [bpa_get_ptr] refines it ([get_ptr_refines]); a full
  collection drops released handles and keeps pinned payloads; a client
  that keeps calling [bpa_collect(H, k)] ([collect_calls]) eventually
  reclaims every unpinned slice ([released_eventually_reclaimed]); the
  handles of a sequence of creations ([create_all]) are fresh and
  pairwise distinct ([create_all_distinct]).
- [Payload]: the payload through a handle: [set_id] of at most the
  payload's bytes changes only that payload ([memset_body]: [s / 4]
  words of the pattern, then [s mod 4] bytes merged into the next word)
  and [dump_id] reads back [s] chars, each the byte [(unsigned char) v]
  read as a [char] ([set_id_roundtrip]); written, pinned and compacted,
  the bytes survive the move ([write_pin_collect_read]).
- [Scenario]: [main] of [src/testbpa.c] with its helpers [set_id]
  ([memset] at byte granularity: [memset_word], [byte_merge]) and
  [dump_id] (the chars [buf[i]]), as a computation; the paused heap of
  its [bpa_collect(H, 1)] is the instance of the paused-cycle finding.
- [CollectBound]: the work quota of one increment: on heaps below 2 GiB
  [collect] stops within [quota_tests] = 514 tests of its loop.
- [Api]: the interface of [src/bpa.h] as one state machine ([api_exec],
  [api_run], the reachability relation [reachable]): no sequence of calls
  runs out of fuel or aborts but on the [assert] of [bpa_release] or
  [bpa_get_id], and every reachable heap is well formed.
- [Quota]: the move of a slice of [2^28] units or more makes the [int]
  work counter of [collect] negative, so the increment goes on past its
  quota; the instance is a 4 GiB heap reached through the interface.

** What the theorems show

On a heap in [heap_repr], every operation is specified by its effect on
the list of slices: create appends a fresh slice and a handle that no
slice carries, grab/release change one pin count and return the payload
pointer, release aborts exactly on the contract violations, lookups of
unknown handles miss, and a collection cycle leaves the slices before its
cursor followed by the pinned slices after it, in order, with the slot
table rewritten.  [heap_repr] is an invariant of every call ([api_run_safe], [reachable_inv]),
which is how the theorems compose: a client's sequence of calls either
ends on a well-formed heap or on a failed [assert].  [bpa_init] on a
zeroed slot table yields the empty heap.  Through the abstract handle
map the compactor keeps what the specification promises the client:
[bpa_get_ptr] refines [lookup], a full collection drops exactly the
unpinned handles, repeated incremental calls reclaim every unpinned slice
(a liveness property), and the loops of [bpa_collect] terminate.
[collect_by_steps], [collect_calls] and [create_all] are the caller's
loops around the interface, not code of [src/]; [lookup], [cycle_result],
[with_body] and [filled_body] are abstract views, not code either.

** Bounds and fuel

Requests are bounded by 2^34 bytes and buffers by 4 GiB: within these
the 32-bit sums and products of the code do not wrap.  Beyond them the
code misbehaves, and theorems show how on every heap, with a witness
on a concrete one ([bpa_create_size_wraps], [bpa_get_id_full_4GiB],
[collect_move_overflows_length]).  The loops of the code
that are not bounded by a constant get fuel, and a theorem proves the
fuel enough on every well-formed heap: [collect_loop] gets one more than
the units left to scan (each iteration consumes a slice of at least 2
units), [collect_until_idle] one more than twice the units left in the
cycle (each increment that pauses lowers [span rest + length rest], at
most 3/2 of the units left; [collect_until_idle_terminates] shows the
result the same for every fuel beyond that measure), the walk of
[bpa_dump] one more than the units in use.  [alloc_slot] runs its
[MAX_SLOT] iterations as in C.  The fuel of a client loop is existential
([released_eventually_reclaimed]: some number of calls suffices).

** Findings

[bpa_init] keeps the slot table of the buffer
([bpa_init_keeps_stale_handles]); the 32-bit [rsz] wraps
([bpa_create_size_wraps]) and 4 GiB buffers break [bpa_get_id]
([bpa_get_id_full_4GiB]); an object created while a cycle is paused is
reclaimed by that same cycle, which the specification (4.4) rules out
([create_during_pause_reclaimed]); the [int] work counter overflows with
slices of 2 GiB and an increment loses its quota
([collect_move_overflows_length]); when [H->cid] wraps inside the
probing loop slot 0 is never probed and [bpa_create] fails with a free
slot ([alloc_slot_wrap_skips_slot_zero]); [testbpa.c] calls
[bpa_collect(H, 1)] where the specification's scenario (8) collects
fully (the model [testbpa_main] of [main] shows it when evaluated; it is
not a theorem); a negative [step] starts a cycle and does no work, which
the specification does not cover ([collect_negative_step]).

** Not modelled

[printf] formatting: [bpa_dump] and [dump_id] return the values they
print ([dump_id] the chars [buf[i]], not their hexadecimal text).  The header and slot table live in the buffer in C; the model
keeps them in the record, which is faithful because no slice access
reaches below [HEAP_HEADER_SIZE] in a well-formed heap.  Signed overflow
of [ref] after 2^31 pins is undefined behaviour in C and is not modelled
(the model counts in Z).  Functions are modelled with [assert] enabled.
The buffer is a memory of 32-bit words; [memset] and the byte reads of
[dump_id] act on their bytes in little-endian order (the payload starts
word-aligned, so [memset] of [s] bytes is [s / 4] words and a partial
word).  Everything of [src/] but the [#include] lines
and the header guard of [bpa.h] is translated; the backing buffer the
caller supplies is the [WordMemory] interface, not a definition. *)

From Stdlib Require Import ZArith Lia.
From stdpp Require Import base gmap list.

Declare Scope bpa_scope.
Delimit Scope bpa_scope with bpa.
Open Scope Z_scope.

(** ** Machine integers *)

(** [uint32_t] arithmetic wraps modulo 2^32; [size_t] modulo 2^64. *)
Definition wrap32 (z : Z) : Z := z mod 2 ^ 32.
Definition wrap64 (z : Z) : Z := z mod 2 ^ 64.

(** Conversion of a 32-bit pattern to [int] (two's complement, as every
    C compiler the code targets implements the conversion). *)
Definition to_int32 (z : Z) : Z := if z <? 2 ^ 31 then z else z - 2 ^ 32.

(** The C expression [(int) x + (unsigned) v]: the int operand is
    converted to unsigned, the sum wraps, and the result is stored back
    into an [int]. *)
Definition int_add_u (x v : Z) : Z := to_int32 (wrap32 (x + v)).

(** A byte read as a [char] (signed on the targets of the code). *)
Definition to_int8 (z : Z) : Z := if z <? 128 then z else z - 256.

Notation "a ⊞ b" := (wrap32 (a + b)) (at level 50, left associativity) : bpa_scope.
Notation "a ⊠ b" := (wrap32 (a * b)) (at level 40, left associativity) : bpa_scope.
Notation "a ⊟ b" := (wrap32 (a - b)) (at level 50, left associativity) : bpa_scope.

Open Scope bpa_scope.

(** ** The constants of [src/bpa.c] and [src/bpa.h] *)

Definition ALIGN_SIZE : Z := 8.
Definition COLLECT_STEP_LENGTH : Z := 4096.
Definition MAX_SLOT : Z := 65536.
(** [sizeof(struct slice)]: an [int ref] and a [pointer_t sz]. *)
Definition SIZEOF_SLICE : Z := 8.
(** [sizeof(id)], the trailing identity tag of a slice. *)
Definition SIZEOF_ID : Z := 4.
(** [sizeof(struct bpa_heap)]: four 32-bit fields and [slot[MAX_SLOT]]. *)
Definition SIZEOF_HEAP : Z := 4 * 4 + 4 * MAX_SLOT.
Definition HEAP_HEADER_SIZE : Z := (SIZEOF_HEAP + ALIGN_SIZE - 1) / ALIGN_SIZE.

Lemma HEAP_HEADER_SIZE_eq : HEAP_HEADER_SIZE = 32770.
Proof. reflexivity. Qed.

(** ** Outcomes of a C function: a result, a failed [assert], or a loop
    that the model stopped because its fuel ran out. *)

Inductive outcome (A : Type) : Type :=
| Ok (a : A)
| Abort
| OutOfFuel.
Arguments Ok {A} a.
Arguments Abort {A}.
Arguments OutOfFuel {A}.

Definition outcome_bind {A B} (c : outcome A) (k : A -> outcome B) : outcome B :=
  match c with
  | Ok a => k a
  | Abort => Abort
  | OutOfFuel => OutOfFuel
  end.

Notation "'let!' x := c 'in' k" := (outcome_bind c (fun x => k))
  (at level 10, x name, c at level 100, k at level 200) : bpa_scope.

Lemma outcome_bind_Ok {A B} (c : outcome A) (k : A -> outcome B) b :
  outcome_bind c k = Ok b <-> exists a, c = Ok a /\ k a = Ok b.
Proof.
  destruct c; simpl; split; [eauto | intros (? & ? & ?); congruence | done
    | intros (? & ? & ?); done | done | intros (? & ? & ?); done].
Qed.

(** The result of a run, or a default when it did not return; and the
    test that it returned, by which a concrete run is shown to return. *)
Definition ok_or {A} (d : A) (o : outcome A) : A := match o with Ok a => a | _ => d end.
Definition is_ok {A} (o : outcome A) : bool := match o with Ok _ => true | _ => false end.

Lemma ok_or_Ok {A} (d : A) o : is_ok o = true -> o = Ok (ok_or d o).
Proof. by destruct o. Qed.

(** ** A C array of [pointer_t] stored as a finite map: absent = 0. *)

Definition slot_get (s : gmap Z Z) (i : Z) : Z := default 0 (s !! i).

Lemma slot_get_insert_eq s i v : slot_get (<[i := v]> s) i = v.
Proof. unfold slot_get. by rewrite lookup_insert_eq. Qed.

Lemma slot_get_insert_ne s i j v : i <> j -> slot_get (<[i := v]> s) j = slot_get s j.
Proof. intros. unfold slot_get. by rewrite lookup_insert_ne. Qed.

Lemma slot_get_insert s i j v :
  slot_get (<[i := v]> s) j = if decide (i = j) then v else slot_get s j.
Proof.
  case_decide; subst; [apply slot_get_insert_eq | by apply slot_get_insert_ne].
Qed.

(** ** Arithmetic of wrap-around *)

Lemma wrap32_small z : 0 <= z < 2 ^ 32 -> wrap32 z = z.
Proof. apply Z.mod_small. Qed.

Lemma wrap32_range z : 0 <= wrap32 z < 2 ^ 32.
Proof. apply Z.mod_pos_bound. lia. Qed.

(** A sum of two 32-bit values that carries wraps exactly once. *)
Lemma wrap32_carry z : 2 ^ 32 <= z < 2 ^ 33 -> wrap32 z = z - 2 ^ 32.
Proof. intros. unfold wrap32. symmetry. apply Z.mod_unique with 1; lia. Qed.

Lemma wrap64_small z : 0 <= z < 2 ^ 64 -> wrap64 z = z.
Proof. apply Z.mod_small. Qed.

Lemma to_int32_small z : 0 <= z < 2 ^ 31 -> to_int32 z = z.
Proof. intros. unfold to_int32. destruct (Z.ltb_spec z (2 ^ 31)); lia. Qed.

Lemma int_add_u_small x v : 0 <= x -> 0 <= v -> x + v < 2 ^ 31 -> int_add_u x v = x + v.
Proof.
  intros. unfold int_add_u. rewrite wrap32_small by lia. apply to_int32_small. lia.
Qed.

(** Past [INT_MAX] the [int] sum turns negative. *)
Lemma int_add_u_carry x v : 0 <= x -> 0 <= v -> 2 ^ 31 <= x + v < 2 ^ 32 -> int_add_u x v = x + v - 2 ^ 32.
Proof.
  intros. unfold int_add_u, to_int32. rewrite wrap32_small by lia.
  destruct (Z.ltb_spec (x + v) (2 ^ 31)); lia.
Qed.

Lemma to_int32_le z : to_int32 z <= z.
Proof. unfold to_int32. destruct (Z.ltb_spec z (2 ^ 31)); lia. Qed.

(** [lia] does not evaluate [2 ^ n]: fold the powers of the code into
    numerals first. *)
Lemma pow2_29 : 2 ^ 29 = 536870912. Proof. reflexivity. Qed.
Lemma pow2_31 : 2 ^ 31 = 2147483648. Proof. reflexivity. Qed.
Lemma pow2_32 : 2 ^ 32 = 4294967296. Proof. reflexivity. Qed.
Lemma pow2_64 : 2 ^ 64 = 18446744073709551616. Proof. reflexivity. Qed.
Ltac fold_pows := rewrite ?pow2_29, ?pow2_31, ?pow2_32, ?pow2_64 in *.
Ltac zlia := fold_pows; rewrite ?HEAP_HEADER_SIZE_eq in *; lia.

Create HintDb bpa.
Create Rewrite HintDb bpa_rw.
#[export] Hint Rewrite HEAP_HEADER_SIZE_eq : bpa_rw.
#[export] Hint Rewrite slot_get_insert_eq : bpa_rw.
#[export] Hint Rewrite wrap32_small using zlia : bpa_rw.
#[export] Hint Rewrite wrap64_small using zlia : bpa_rw.
#[export] Hint Resolve wrap32_range : bpa.

(** Unfold the constants of the C code into numerals. *)
Ltac bpa_consts :=
  unfold ALIGN_SIZE, COLLECT_STEP_LENGTH, MAX_SLOT, SIZEOF_SLICE, SIZEOF_ID in *;
  rewrite ?HEAP_HEADER_SIZE_eq in *.

(** Arithmetic goals of the model: constants, then removal of the
    wrap-arounds whose arguments are in range, then [lia]. *)
Ltac bpa_lia := bpa_consts; autorewrite with bpa_rw in *; zlia.
