(* ===== verification/Mem.v ===== *)
(** * The backing buffer

    [bpa] never allocates memory: the caller hands [bpa_init] one buffer
    and every later access is a 32-bit load or store at a 4-aligned byte
    offset of it (the [ref] and [sz] fields of a [struct slice], its
    trailing [id], the payload words) or a [memmove] of whole slices.
    This file states that contract as a type class, [WordMemory] for the
    operations and [WordMemoryLaws] for their laws, in the style of
    coqutil's [map]/[map.ok]: the allocator is defined and proved against
    the class, and [gmem] (a stdpp [gmap] from byte offsets to words)
    implements it so that the definitions compute.

    Addresses are byte offsets from the start of the buffer (the C
    pointer [H]).  A word stored at offset [a] covers the bytes
    [a .. a+3]; as every access of the code is 4-aligned, two distinct
    aligned offsets never overlap, which is what [load_store_ne] says. *)

From Stdlib Require Import ZArith Lia.
From stdpp Require Import base gmap list.
From S2P Require Import Prelude.

Class WordMemory (M : Type) := {
  mem_load : M -> Z -> Z;
  mem_store : M -> Z -> Z -> M;
  (** [memmove(dst, src, n)] on byte offsets, overlapping ranges allowed. *)
  mem_move : M -> Z -> Z -> Z -> M;
}.

Class WordMemoryLaws (M : Type) `{WordMemory M} := {
  load_store_eq m a v : mem_load (mem_store m a v) a = v;
  load_store_ne m a b v : a <> b -> mem_load (mem_store m a v) b = mem_load m b;
  load_move_in m d s n a :
    d <= a < d + n -> (a - d) mod 4 = 0 -> n mod 4 = 0 ->
    mem_load (mem_move m d s n) a = mem_load m (s + (a - d));
  load_move_out m d s n a :
    a < d \/ d + n <= a -> mem_load (mem_move m d s n) a = mem_load m a;
}.

(** [k] consecutive words from offset [a]. *)
Fixpoint mem_words `{WordMemory M} (m : M) (a : Z) (k : nat) : list Z :=
  match k with
  | O => []
  | S k => mem_load m a :: mem_words m (a + 4) k
  end.

(** Two memories agree on the byte range [lo, hi). *)
Definition mem_agree `{WordMemory M} (lo hi : Z) (m1 m2 : M) : Prop :=
  forall a, lo <= a < hi -> mem_load m1 a = mem_load m2 a.

(** Byte [j] of the word [w]. *)
Definition byte_at (w j : Z) : Z := Z.land (Z.shiftr w (8 * j)) 255.

(** The four bytes of a word, and of a list of words, in memory order. *)
Definition word_bytes (w : Z) : list Z := map (byte_at w) [0; 1; 2; 3].
Definition words_bytes (ws : list Z) : list Z := concat (map word_bytes ws).

(** [((unsigned char * ) buf)[x]]: the byte at byte offset [x]. *)
Definition mem_byte `{WordMemory M} (m : M) (x : Z) : Z := byte_at (mem_load m (x - x mod 4)) (x mod 4).

(** [n] consecutive bytes from [x]. *)
Fixpoint mem_bytes `{WordMemory M} (m : M) (x : Z) (n : nat) : list Z :=
  match n with
  | O => []
  | S n => mem_byte m x :: mem_bytes m (x + 1) n
  end.

Section Generic.
Context {M : Type} {MO : WordMemory M} {ML : WordMemoryLaws M}.

#[export] Instance mem_agree_equiv lo hi : Equivalence (mem_agree (M := M) lo hi).
Proof.
  split; unfold mem_agree.
  - done.
  - intros ?? Hxy a ?. symmetry. auto.
  - intros ??? H1 H2 a ?. rewrite H1 by done. auto.
Qed.

Lemma mem_agree_sub lo hi lo' hi' (m1 m2 : M) :
  lo <= lo' -> hi' <= hi -> mem_agree lo hi m1 m2 -> mem_agree lo' hi' m1 m2.
Proof. intros ?? Hag a ?. apply Hag. lia. Qed.

Lemma mem_agree_store_out lo hi (m : M) a v :
  a < lo \/ hi <= a -> mem_agree lo hi (mem_store m a v) m.
Proof. intros ? b ?. apply load_store_ne. lia. Qed.

(** A store outside the range keeps an agreement. *)
Lemma mem_agree_store_l lo hi (m m' : M) a v :
  mem_agree lo hi m m' -> a < lo \/ hi <= a -> mem_agree lo hi (mem_store m a v) m'.
Proof. intros Hag ? b ?. rewrite load_store_ne by lia. auto. Qed.

Lemma mem_agree_move_out lo hi (m : M) d s n :
  d + n <= lo \/ hi <= d -> mem_agree lo hi (mem_move m d s n) m.
Proof. intros ? b ?. apply load_move_out. lia. Qed.

Lemma length_mem_words (m : M) a k : length (mem_words m a k) = k.
Proof. revert a. induction k; simpl; auto. Qed.

(** Word lists only depend on the words they read. *)
Lemma mem_words_agree (m1 m2 : M) a k :
  mem_agree a (a + 4 * Z.of_nat k) m1 m2 -> mem_words m1 a k = mem_words m2 a k.
Proof.
  revert a. induction k as [|k IH]; intros a Hag; simpl; [done |].
  f_equal; [apply Hag; lia |]. apply IH. eapply mem_agree_sub; [| | exact Hag]; lia.
Qed.

Lemma mem_words_app (m : M) a k1 k2 :
  mem_words m a (k1 + k2) = mem_words m a k1 ++ mem_words m (a + 4 * Z.of_nat k1) k2.
Proof.
  revert a. induction k1 as [|k1 IH]; intros a; simpl; [by rewrite Z.add_0_r |].
  rewrite IH. do 3 f_equal. lia.
Qed.

(** A [memmove] of [4 k] bytes copies the [k] source words. *)
Lemma mem_words_move (m : M) d s k :
  mem_words (mem_move m d s (4 * Z.of_nat k)) d k = mem_words m s k.
Proof.
  assert (Hgen : forall j i, (i + j <= k)%nat ->
    mem_words (mem_move m d s (4 * Z.of_nat k)) (d + 4 * Z.of_nat i) j
    = mem_words m (s + 4 * Z.of_nat i) j).
  { induction j as [|j IH]; intros i Hij; simpl; [done |]. f_equal.
    - rewrite load_move_in; [f_equal; lia | lia | |].
      + replace (d + _ - d) with (Z.of_nat i * 4) by lia. apply Z_mod_mult.
      + rewrite Z.mul_comm. apply Z_mod_mult.
    - specialize (IH (S i) ltac:(lia)). rewrite !Nat2Z.inj_succ in IH.
      replace (d + 4 * Z.of_nat i + 4) with (d + 4 * Z.succ (Z.of_nat i)) by lia.
      replace (s + 4 * Z.of_nat i + 4) with (s + 4 * Z.succ (Z.of_nat i)) by lia.
      exact IH. }
  specialize (Hgen k 0%nat ltac:(lia)). rewrite !Z.add_0_r in Hgen. exact Hgen.
Qed.

(** ** Bytes of a little-endian word memory *)

(** The bytes a caller sees through a [char *] on a little-endian target:
    byte [j] of a word is bits [8 j .. 8 j + 7]. *)
Lemma mem_byte_aligned (m : M) a j :
  a mod 4 = 0 -> 0 <= j < 4 -> mem_byte m (a + j) = byte_at (mem_load m a) j.
Proof.
  intros Ha Hj. unfold mem_byte.
  replace ((a + j) mod 4) with j by (Z.div_mod_to_equations; lia).
  by replace (a + j - j) with a by lia.
Qed.

Lemma mem_bytes_words (m : M) a n :
  a mod 4 = 0 -> mem_bytes m a (4 * n) = words_bytes (mem_words m a n).
Proof.
  revert a. induction n as [|n IH]; intros a Ha; [done |].
  replace (4 * S n)%nat with (S (S (S (S (4 * n))))) by lia. simpl.
  assert (Hb : forall x j, x = a + j -> 0 <= j < 4 -> mem_byte m x = byte_at (mem_load m a) j)
    by (intros x j -> ?; by apply mem_byte_aligned).
  rewrite (Hb a 0), (Hb (a + 1) 1), (Hb (a + 1 + 1) 2), (Hb (a + 1 + 1 + 1) 3) by lia.
  replace (a + 1 + 1 + 1 + 1) with (a + 4) by lia.
  rewrite IH by (Z.div_mod_to_equations; lia). reflexivity.
Qed.

Lemma mem_bytes_prefix (m : M) x n n' :
  (n <= n')%nat -> mem_bytes m x n = take n (mem_bytes m x n').
Proof.
  revert x n'. induction n as [|n IH]; intros x [|n'] Hn; simpl; try done; [lia |].
  f_equal. apply IH. lia.
Qed.
End Generic.

#[export] Hint Resolve mem_agree_store_out mem_agree_move_out : bpa.

(** ** The concrete buffer: a map from byte offsets to words.
    Bytes never written read as 0, as in a buffer from [calloc] or a fresh
    [mmap] (the demonstration program relies on that, see [Scenario]). *)

Abbreviation gmem := (gmap Z Z).

Definition gmem_load (m : gmem) (a : Z) : Z := default 0 (m !! a).

Fixpoint gmem_read (m : gmem) (a : Z) (k : nat) : list Z :=
  match k with
  | O => []
  | S k => gmem_load m a :: gmem_read m (a + 4) k
  end.

Fixpoint gmem_write (m : gmem) (a : Z) (ws : list Z) : gmem :=
  match ws with
  | [] => m
  | w :: ws => gmem_write (<[a := w]> m) (a + 4) ws
  end.

(** memmove reads the whole source before writing: overlap is harmless. *)
Definition gmem_move (m : gmem) (d s n : Z) : gmem :=
  gmem_write m d (gmem_read m s (Z.to_nat (n / 4))).

#[export] Instance gmem_ops : WordMemory gmem := {|
  mem_load := gmem_load;
  mem_store m a v := <[a := v]> m;
  mem_move := gmem_move;
|}.

Lemma gmem_write_out (m : gmem) d ws a :
  a < d \/ d + 4 * Z.of_nat (length ws) <= a -> gmem_load (gmem_write m d ws) a = gmem_load m a.
Proof.
  revert m d. induction ws as [|w ws IH]; intros m d Ha; simpl; [done |].
  rewrite IH; [| simpl in Ha; lia]. unfold gmem_load. rewrite lookup_insert_ne by (simpl in Ha; lia). done.
Qed.

Lemma gmem_write_in (m : gmem) d ws i :
  (i < length ws)%nat -> gmem_load (gmem_write m d ws) (d + 4 * Z.of_nat i) = nth i ws 0.
Proof.
  revert m d i. induction ws as [|w ws IH]; intros m d i Hi; simpl in *; [lia |].
  destruct i as [|i].
  - rewrite gmem_write_out by lia. unfold gmem_load. by rewrite Z.add_0_r, lookup_insert_eq.
  - replace (d + 4 * Z.of_nat (S i)) with (d + 4 + 4 * Z.of_nat i) by lia.
    apply IH. lia.
Qed.

Lemma gmem_read_nth (m : gmem) s k i :
  (i < k)%nat -> nth i (gmem_read m s k) 0 = gmem_load m (s + 4 * Z.of_nat i).
Proof.
  revert s i. induction k as [|k IH]; intros s i Hi; [lia |]. destruct i as [|i]; simpl.
  - f_equal. lia.
  - rewrite IH by lia. f_equal. lia.
Qed.

Lemma length_gmem_read (m : gmem) s k : length (gmem_read m s k) = k.
Proof. revert s. induction k; simpl; auto. Qed.

#[export] Instance gmem_laws : WordMemoryLaws gmem.
Proof.
  split; simpl.
  - intros. unfold gmem_load. by rewrite lookup_insert_eq.
  - intros. unfold gmem_load. by rewrite lookup_insert_ne.
  - intros m d s n a Ha Hal Hn. unfold gmem_move.
    set (i := Z.to_nat ((a - d) / 4)).
    assert (Hai : a = d + 4 * Z.of_nat i).
    { unfold i. rewrite Z2Nat.id by (apply Z.div_pos; lia).
      pose proof (Z_div_mod_eq_full (a - d) 4). lia. }
    assert (Hin : (i < Z.to_nat (n / 4))%nat).
    { pose proof (Z_div_mod_eq_full n 4). lia. }
    rewrite Hai, gmem_write_in by (rewrite length_gmem_read; lia).
    rewrite gmem_read_nth by lia. f_equal. lia.
  - intros m d s n a Ha. unfold gmem_move. rewrite gmem_write_out; [done |].
    rewrite length_gmem_read. destruct (Z_lt_le_dec a d) as [|Hda]; [by left | right].
    destruct (Z_le_gt_dec 0 n).
    + rewrite Z2Nat.id by (apply Z.div_pos; lia).
      pose proof (Z_div_mod_eq_full n 4). pose proof (Z.mod_pos_bound n 4). lia.
    + rewrite Z2Nat.nonpos; [lia |]. pose proof (Z.div_le_upper_bound n 4 0). lia.
Qed.

(** ** A buffer as a function

[fmem] is a second implementation: a store or a [memmove] costs nothing
until a word is read, so a concrete run can use slices of gigabytes. *)
Definition fmem : Type := Z -> Z.
Definition fmem_store (m : fmem) (a v : Z) : fmem := fun b => if b =? a then v else m b.
Definition fmem_move (m : fmem) (d s n : Z) : fmem :=
  fun b => if (d <=? b) && (b <? d + n) then m (s + (b - d)) else m b.

#[export] Instance fmem_ops : WordMemory fmem := {|
  mem_load := fun m a => m a;
  mem_store := fmem_store;
  mem_move := fmem_move;
|}.

#[export] Instance fmem_laws : WordMemoryLaws fmem.
Proof.
  split; simpl; unfold fmem_store, fmem_move.
  - intros. by rewrite Z.eqb_refl.
  - intros m a b v Hne. destruct (Z.eqb_spec b a); [congruence | done].
  - intros m d s n a Ha _ _. destruct (Z.leb_spec d a), (Z.ltb_spec a (d + n)); simpl; [done | lia..].
  - intros m d s n a Ha. destruct (Z.leb_spec d a), (Z.ltb_spec a (d + n)); simpl; [lia | done..].
Qed.

