(* ===== verification/Heap.v ===== *)
(** * Arena state and handle table ([src/bpa.c], lines 9-63)

    [struct bpa_heap] as the record [heap]: the four 32-bit header fields
    [sz], [offset], [collect], [cid], the table [slot[MAX_SLOT]] (a
    [gmap], absent entries reading 0) and the slice region of the buffer
    (a [WordMemory]).  The header and the slot table occupy the first
    [HEAP_HEADER_SIZE] units of the buffer; the model keeps them apart
    from the slice words because no slice access reaches below
    [HEAP_HEADER_SIZE] in a well-formed heap (see [Layout]).

    Operations: the address macros [HEAP_SLICE] and [SLICE_ID], the
    slice field reads, [bpa_init] and the handle prober [alloc_slot]. *)

From Stdlib Require Import ZArith Lia.
From stdpp Require Import base gmap list.
From S2P Require Import Prelude Mem.

Record heap (M : Type) := mk_heap {
  h_sz : Z;          (** [H->sz]: capacity in 8-byte units *)
  h_offset : Z;      (** [H->offset]: the bump pointer *)
  h_collect : Z;     (** [H->collect]: sweep cursor, 0 when idle *)
  h_cid : Z;         (** [H->cid]: last handle issued *)
  h_slot : gmap Z Z; (** [H->slot[]] *)
  h_mem : M;         (** the words of the buffer *)
}.
Arguments mk_heap {M}.
Arguments h_sz {M}. Arguments h_offset {M}. Arguments h_collect {M}.
Arguments h_cid {M}. Arguments h_slot {M}. Arguments h_mem {M}.

(** Assignments to one field of [*H]. *)
Definition set_offset {M} (v : Z) (H : heap M) : heap M :=
  mk_heap (h_sz H) v (h_collect H) (h_cid H) (h_slot H) (h_mem H).
Definition set_collect {M} (v : Z) (H : heap M) : heap M :=
  mk_heap (h_sz H) (h_offset H) v (h_cid H) (h_slot H) (h_mem H).
Definition set_cid {M} (v : Z) (H : heap M) : heap M :=
  mk_heap (h_sz H) (h_offset H) (h_collect H) v (h_slot H) (h_mem H).
Definition set_slot {M} (i v : Z) (H : heap M) : heap M :=
  mk_heap (h_sz H) (h_offset H) (h_collect H) (h_cid H) (<[i := v]> (h_slot H)) (h_mem H).
Definition set_mem {M} (m : M) (H : heap M) : heap M :=
  mk_heap (h_sz H) (h_offset H) (h_collect H) (h_cid H) (h_slot H) m.

(** [H->slot[uid % MAX_SLOT]] *)
Definition slot_of {M} (H : heap M) (uid : Z) : Z := slot_get (h_slot H) (uid mod MAX_SLOT).

Section Macros.
Context {M : Type} {MO : WordMemory M}.

(** [HEAP_SLICE(H, off)]: [off * ALIGN_SIZE] is an [unsigned int]
    product, so it wraps at 2^32. *)
Definition HEAP_SLICE (off : Z) : Z := off ⊠ ALIGN_SIZE.

(** [s->ref] and [s->sz] for the slice at byte offset [s]. *)
Definition slice_ref (m : M) (s : Z) : Z := mem_load m s.
Definition slice_sz (m : M) (s : Z) : Z := mem_load m (s + 4).

(** [SLICE_ID(S)]: the last 4 bytes of the slice, found through the
    [sz] field stored in the slice itself. *)
Definition SLICE_ID (m : M) (s : Z) : Z := s + (slice_sz m s ⊠ ALIGN_SIZE) - SIZEOF_ID.

(** [*SLICE_ID(s)] *)
Definition slice_id (m : M) (s : Z) : Z := mem_load m (SLICE_ID m s).
End Macros.

(** ** [bpa_init] (lines 32-47)

    [slot0] and [mem0] are the contents the buffer had before the call:
    the function does not clear the slot table. *)
Definition bpa_init {M} (slot0 : gmap Z Z) (mem0 : M) (size : Z) : option (heap M) :=
  let sz := size / ALIGN_SIZE in
  if negb (sz =? wrap32 sz) then None
  else if sz <=? HEAP_HEADER_SIZE then None
  else Some (mk_heap sz HEAP_HEADER_SIZE 0 0 slot0 mem0).

(** ** [alloc_slot] (lines 49-63) *)

(** [++H->cid], done a second time when the first increment wraps to 0. *)
Definition next_cid (cid : Z) : Z :=
  let c := cid ⊞ 1 in if c =? 0 then c ⊞ 1 else c.

(** The [for (i=0; i<MAX_SLOT; i++)] loop with [n] iterations left:
    returns the final [H->cid] and the free slot, or [None] for [-1]. *)
Fixpoint alloc_slot_loop (n : nat) (slot : gmap Z Z) (cid : Z) : Z * option Z :=
  match n with
  | O => (cid, None)
  | S n =>
      let c := next_cid cid in
      let i := c mod MAX_SLOT in
      if slot_get slot i =? 0 then (c, Some i) else alloc_slot_loop n slot c
  end.

Definition alloc_slot {M} (H : heap M) : heap M * option Z :=
  let '(c, r) := alloc_slot_loop (Z.to_nat MAX_SLOT) (h_slot H) (h_cid H) in
  (set_cid c H, r).

(** ** Properties of the handle prober *)

Lemma next_cid_range cid : 0 < next_cid cid < 2 ^ 32.
Proof.
  unfold next_cid. pose proof (wrap32_range (cid + 1)).
  destruct (Z.eqb_spec (wrap32 (cid + 1)) 0) as [E|]; [| lia].
  rewrite E. unfold wrap32. rewrite Z.mod_small; lia.
Qed.

(** A slot returned by the loop is free and is the slot of the new id. *)
Lemma alloc_slot_loop_sound n slot cid c i :
  alloc_slot_loop n slot cid = (c, Some i) ->
  i = c mod MAX_SLOT /\ slot_get slot i = 0 /\ 0 < c < 2 ^ 32.
Proof.
  revert cid. induction n as [|n IH]; intros cid Hl; simpl in Hl; [done |].
  destruct (Z.eqb_spec (slot_get slot (next_cid cid mod MAX_SLOT)) 0) as [E|].
  - injection Hl as <- <-. pose proof (next_cid_range cid). auto.
  - eauto.
Qed.

Lemma alloc_slot_sound {M} (H : heap M) H' i :
  alloc_slot H = (H', Some i) ->
  i = h_cid H' mod MAX_SLOT /\ slot_get (h_slot H) i = 0 /\ 0 < h_cid H' < 2 ^ 32 /\
  H' = set_cid (h_cid H') H.
Proof.
  unfold alloc_slot. destruct (alloc_slot_loop _ _ _) as [c r] eqn:E.
  intros Heq. injection Heq as <- ->. apply alloc_slot_loop_sound in E. simpl. tauto.
Qed.

(** [alloc_slot] only writes [H->cid]. *)
Lemma alloc_slot_frame {M} (H : heap M) :
  fst (alloc_slot H) = set_cid (h_cid (fst (alloc_slot H))) H.
Proof. unfold alloc_slot. by destruct (alloc_slot_loop _ _ _). Qed.

(** The loop keeps [H->cid] a 32-bit value. *)
Lemma alloc_slot_loop_range n slot cid :
  0 <= cid < 2 ^ 32 -> 0 <= fst (alloc_slot_loop n slot cid) < 2 ^ 32.
Proof.
  revert cid. induction n as [|n IH]; intros cid Hc; simpl; [done |].
  pose proof (next_cid_range cid).
  destruct (slot_get slot (next_cid cid mod MAX_SLOT) =? 0); simpl; [lia | apply IH; lia].
Qed.

Lemma alloc_slot_cid_range {M} (H : heap M) :
  0 <= h_cid H < 2 ^ 32 ->
  0 <= h_cid (fst (alloc_slot H)) < 2 ^ 32 /\ fst (alloc_slot H) = set_cid (h_cid (fst (alloc_slot H))) H.
Proof.
  intros Hc. unfold alloc_slot.
  match goal with |- context [alloc_slot_loop ?n _ _] => generalize n as k; intros k end.
  pose proof (alloc_slot_loop_range k (h_slot H) (h_cid H) Hc) as Hr.
  destruct (alloc_slot_loop k (h_slot H) (h_cid H)) as [c r]. simpl in *. auto.
Qed.

(** Away from the wrap-around, [++H->cid] is [cid + 1]. *)
Lemma next_cid_no_wrap cid : 0 <= cid -> cid + 1 < 2 ^ 32 -> next_cid cid = cid + 1.
Proof.
  intros ? ?. unfold next_cid, wrap32. rewrite Z.mod_small by lia.
  destruct (Z.eqb_spec (cid + 1) 0); lia.
Qed.

(** A loop of [n] probes that finds nothing, with no wrap-around on the
    way, has seen the slots of [cid + 1], ..., [cid + n] all taken. *)
Lemma alloc_slot_loop_miss n slot cid :
  0 <= cid -> cid + Z.of_nat n < 2 ^ 32 -> snd (alloc_slot_loop n slot cid) = None ->
  forall t, 1 <= t <= Z.of_nat n -> slot_get slot ((cid + t) mod MAX_SLOT) <> 0.
Proof.
  revert cid. induction n as [|n IH]; intros cid Hc Hn Hl t Ht; [lia |].
  simpl in Hl. rewrite next_cid_no_wrap in Hl by lia.
  destruct (slot_get slot ((cid + 1) mod MAX_SLOT) =? 0) eqn:E; [simpl in Hl; congruence |].
  apply Z.eqb_neq in E. destruct (Z.eq_dec t 1) as [-> | Ht1]; [done |].
  replace (cid + t) with (cid + 1 + (t - 1)) by lia. apply IH; [lia | lia | exact Hl | lia].
Qed.

(** Every index [i] of the table is the slot of one of the [MAX_SLOT]
    consecutive ids after [cid]. *)
Lemma probe_reaches cid i :
  0 <= i < MAX_SLOT -> (cid + ((i - (cid + 1)) mod MAX_SLOT + 1)) mod MAX_SLOT = i /\
  1 <= (i - (cid + 1)) mod MAX_SLOT + 1 <= MAX_SLOT.
Proof.
  intros Hi. pose proof (Z.mod_pos_bound (i - (cid + 1)) MAX_SLOT ltac:(done)). split; [| lia].
  replace (cid + ((i - (cid + 1)) mod MAX_SLOT + 1)) with ((cid + 1) + (i - (cid + 1)) mod MAX_SLOT) by lia.
  rewrite Zplus_mod_idemp_r. replace (cid + 1 + (i - (cid + 1))) with i by lia.
  by apply Z.mod_small.
Qed.

(** C20: Completeness of the handle prober: while [H->cid + MAX_SLOT] does
    not wrap, [alloc_slot] finds a slot whenever the table has a free
    one. *)
Theorem alloc_slot_complete {M} (H : heap M) i :
  0 <= h_cid H -> h_cid H + MAX_SLOT < 2 ^ 32 -> 0 <= i < MAX_SLOT -> slot_get (h_slot H) i = 0 ->
  exists j, snd (alloc_slot H) = Some j /\ slot_get (h_slot H) j = 0.
Proof.
  intros Hc Hw Hi Hfree. unfold alloc_slot.
  destruct (alloc_slot_loop _ _ _) as [c [j|]] eqn:E; simpl.
  - apply alloc_slot_loop_sound in E as (_ & ? & _). eauto.
  - exfalso. destruct (probe_reaches (h_cid H) i Hi) as [Ei Ht].
    assert (HN : Z.of_nat (Z.to_nat MAX_SLOT) = MAX_SLOT) by done.
    refine (alloc_slot_loop_miss (Z.to_nat MAX_SLOT) (h_slot H) _ Hc _ _ ((i - (h_cid H + 1)) mod MAX_SLOT + 1) _ _);
      [lia | by rewrite E | lia | by rewrite Ei].
Qed.

(** The entries [i, i + 1, ..., i + n - 1] of a table, all taken. *)
Fixpoint taken_slots (n : nat) (i : Z) : list (Z * Z) :=
  match n with O => [] | S n => (i, 1) :: taken_slots n (i + 1) end.

(** The table of [MAX_SLOT] entries in which only slot 0 is free. *)
Definition slots_but_zero : gmap Z Z := list_to_map (taken_slots (Z.to_nat (MAX_SLOT - 1)) 1).

(** Probes of ids [c + 1 .. c + n] below [MAX_SLOT], all taken, miss. *)
Lemma alloc_slot_loop_low n slot c :
  0 <= c -> c + Z.of_nat n <= MAX_SLOT - 1 ->
  (forall i, 0 < i < MAX_SLOT -> slot_get slot i <> 0) -> snd (alloc_slot_loop n slot c) = None.
Proof.
  revert c. induction n as [|n IH]; intros c Hc Hn Hall; [done |]. simpl. unfold MAX_SLOT in *.
  rewrite next_cid_no_wrap by lia. rewrite Z.mod_small by lia.
  destruct (Z.eqb_spec (slot_get slot (c + 1)) 0) as [E |]; [exfalso; by apply (Hall (c + 1)); [lia |] |].
  apply IH; [lia | lia | done].
Qed.

(** From an id in the last window of [MAX_SLOT] ids below [2^32], the
    probes run up to [2^32 - 1], wrap to 1 (skipping 0), and continue
    below [MAX_SLOT]: no id of slot 0 comes up within the bound. *)
Lemma alloc_slot_loop_high n slot c :
  2 ^ 32 - MAX_SLOT <= c <= 2 ^ 32 - 1 -> Z.of_nat n <= 2 ^ 32 - 2 - c + MAX_SLOT ->
  (forall i, 0 < i < MAX_SLOT -> slot_get slot i <> 0) -> snd (alloc_slot_loop n slot c) = None.
Proof.
  revert c. induction n as [|n IH]; intros c Hc Hn Hall; [done |]. simpl. unfold MAX_SLOT in *.
  destruct (Z.eq_dec c (2 ^ 32 - 1)) as [-> | Hc1].
  - replace (next_cid (2 ^ 32 - 1)) with 1 by reflexivity. change (1 mod 65536) with 1.
    destruct (Z.eqb_spec (slot_get slot 1) 0) as [E |]; [exfalso; by apply (Hall 1) |].
    apply alloc_slot_loop_low; [lia | unfold MAX_SLOT; lia | done].
  - rewrite next_cid_no_wrap by lia.
    assert (0 < (c + 1) mod 65536 < 65536) by (Z.div_mod_to_equations; lia).
    destruct (Z.eqb_spec (slot_get slot ((c + 1) mod 65536)) 0) as [E |];
      [exfalso; by apply (Hall ((c + 1) mod 65536)) |].
    apply IH; [lia | lia | done].
Qed.

(** C33: The probing wraps without reaching slot 0: when [H->cid] is in
    the last window of [MAX_SLOT] ids before the wrap (and not
    [2^32 - 1]), [++H->cid] skips the id 0 and none of the [MAX_SLOT]
    probes lands on slot 0; with every other slot taken, [alloc_slot]
    returns -1 (and [bpa_create] the sentinel), whatever slot 0 holds,
    free included. *)
Theorem alloc_slot_wrap_skips_slot_zero {M} (H : heap M) :
  2 ^ 32 - MAX_SLOT <= h_cid H <= 2 ^ 32 - 2 ->
  (forall i, 0 < i < MAX_SLOT -> slot_get (h_slot H) i <> 0) -> snd (alloc_slot H) = None.
Proof.
  intros Hc Hall. unfold alloc_slot.
  destruct (alloc_slot_loop _ _ _) as [c r] eqn:E. simpl.
  assert (HN : Z.of_nat (Z.to_nat MAX_SLOT) = MAX_SLOT) by done.
  pose proof (alloc_slot_loop_high (Z.to_nat MAX_SLOT) (h_slot H) (h_cid H) ltac:(lia) ltac:(lia) Hall) as Hn.
  by rewrite E in Hn.
Qed.

(** The same table with [H->cid = 0]: the last of the [MAX_SLOT] probes,
    id [0x10000], finds the slot 0. *)
Definition ex_prober : heap gmem := mk_heap (2 ^ 17) HEAP_HEADER_SIZE 0 0 slots_but_zero ∅.

Lemma alloc_slot_complete_witness :
  0 <= h_cid ex_prober /\ h_cid ex_prober + MAX_SLOT < 2 ^ 32 /\ 0 <= 0 < MAX_SLOT /\
  slot_get (h_slot ex_prober) 0 = 0 /\
  exists j, snd (alloc_slot ex_prober) = Some j /\ slot_get (h_slot ex_prober) j = 0.
Proof.
  assert (Hz : slot_get (h_slot ex_prober) 0 = 0) by (vm_compute; reflexivity).
  assert (Hc : 0 <= h_cid ex_prober) by (unfold ex_prober; simpl; lia).
  assert (Hw : h_cid ex_prober + MAX_SLOT < 2 ^ 32) by (unfold ex_prober, MAX_SLOT; simpl; lia).
  assert (Hi : 0 <= 0 < MAX_SLOT) by (unfold MAX_SLOT; lia).
  split_and!; [exact Hc | exact Hw | lia | unfold MAX_SLOT; lia | exact Hz |].
  exact (alloc_slot_complete ex_prober 0 Hc Hw Hi Hz).
Defined.

Lemma taken_slots_lookup n a i :
  a <= i < a + Z.of_nat n -> (list_to_map (taken_slots n a) : gmap Z Z) !! i = Some 1.
Proof.
  revert a. induction n as [|n IH]; intros a Hi; [lia |]. simpl.
  destruct (decide (i = a)) as [-> | Hne]; [by simplify_map_eq |].
  rewrite lookup_insert_ne by congruence. apply IH. lia.
Qed.

(** [H->cid = 2^32 - 2] on the table where only slot 0 is free. *)
Definition ex_wrap : heap gmem := mk_heap (2 ^ 17) HEAP_HEADER_SIZE 0 (2 ^ 32 - 2) slots_but_zero ∅.

Lemma alloc_slot_wrap_skips_slot_zero_witness :
  2 ^ 32 - MAX_SLOT <= h_cid ex_wrap <= 2 ^ 32 - 2 /\
  (forall i, 0 < i < MAX_SLOT -> slot_get (h_slot ex_wrap) i <> 0) /\
  slot_get (h_slot ex_wrap) 0 = 0 /\ snd (alloc_slot ex_wrap) = None.
Proof.
  assert (Hc : 2 ^ 32 - MAX_SLOT <= h_cid ex_wrap <= 2 ^ 32 - 2) by (unfold ex_wrap, MAX_SLOT; simpl; lia).
  assert (Hall : forall i, 0 < i < MAX_SLOT -> slot_get (h_slot ex_wrap) i <> 0).
  { intros i Hi. change (h_slot ex_wrap) with slots_but_zero. unfold slot_get, slots_but_zero.
    rewrite taken_slots_lookup; [cbn; lia |]. rewrite Z2Nat.id by (unfold MAX_SLOT; lia). lia. }
  split_and!; [lia | lia | exact Hall | vm_compute; reflexivity |].
  exact (alloc_slot_wrap_skips_slot_zero ex_wrap Hc Hall).
Defined.

(** ** Properties of [bpa_init] *)

(** C30: [bpa_init] refuses a buffer whose unit count does not exceed the
    header or does not fit in 32 bits. *)
Theorem bpa_init_fails {M} (slot0 : gmap Z Z) (mem0 : M) size :
  0 <= size -> (size / ALIGN_SIZE <= HEAP_HEADER_SIZE \/ 2 ^ 32 <= size / ALIGN_SIZE) ->
  bpa_init slot0 mem0 size = None.
Proof.
  intros Hs Hc. unfold bpa_init.
  assert (0 <= size / ALIGN_SIZE) by (apply Z.div_pos; bpa_lia).
  destruct (Z.eqb_spec (size / ALIGN_SIZE) (wrap32 (size / ALIGN_SIZE))) as [E|]; [| done].
  destruct Hc as [Hc | Hc].
  - simpl. destruct (Z.leb_spec (size / ALIGN_SIZE) HEAP_HEADER_SIZE); [done | lia].
  - pose proof (wrap32_range (size / ALIGN_SIZE)). lia.
Qed.
