(* ===== verification/Layout.v ===== *)
(** * The layout of the slice region and the heap invariant

    A slice ([struct slice] plus payload plus trailing id) of [sz] units
    at unit offset [a] is the [2 sz] words of bytes [8a .. 8a + 8 sz):
    [ref], [sz], [2 sz - 3] payload words, [id].  [slice_at m a sl] says
    the memory holds the image [sl] there; [tiles m a sls b] says the
    slices [sls] follow each other from [a] to [b] without gap, which is
    how [collect] and [bpa_dump] walk the region ([p += s->sz]).

    [heap_repr H sls] is the abstract view of a heap: its slices from
    [HEAP_HEADER_SIZE] to [H->offset], the sweep cursor on a slice
    boundary, the slot table pointing exactly at the slices of nonzero
    id, and the bounds that keep every address below 2^32.  [heap_inv]
    is the invariant every operation preserves. *)

From Stdlib Require Import ZArith Lia.
From stdpp Require Import base gmap list.
From S2P Require Import Prelude Mem Heap.

Record slice := mk_slice {
  sl_ref : Z;          (** [s->ref] *)
  sl_sz : Z;           (** [s->sz], in units, header and id included *)
  sl_body : list Z;    (** the payload words *)
  sl_id : Z;           (** [*SLICE_ID(s)]; 0 for a placeholder *)
}.

(** The words of a slice, in memory order. *)
Definition slice_image (sl : slice) : list Z := [sl_ref sl; sl_sz sl] ++ sl_body sl ++ [sl_id sl].

(** The pinned and the unpinned slices of a list, in order. *)
Definition live (sls : list slice) : list slice := List.filter (fun sl => negb (sl_ref sl =? 0)) sls.
Definition dead (sls : list slice) : list slice := List.filter (fun sl => sl_ref sl =? 0) sls.

(** The slice with its [ref] word replaced. *)
Definition with_ref (sl : slice) (r : Z) : slice := mk_slice r (sl_sz sl) (sl_body sl) (sl_id sl).

(** Total size of a list of slices. *)
Fixpoint span (sls : list slice) : Z :=
  match sls with [] => 0 | sl :: r => sl_sz sl + span r end.

(** The (offset, id) pairs of the slices tiled from [a]. *)
Fixpoint ids_at (a : Z) (sls : list slice) : list (Z * Z) :=
  match sls with
  | [] => []
  | sl :: r => (a, sl_id sl) :: ids_at (a + sl_sz sl) r
  end.

(** The part of a slice list that the slot table and the cursor see. *)
Definition shape (sls : list slice) : list (Z * Z) := map (fun sl => (sl_sz sl, sl_id sl)) sls.

(** The slot table points at every slice of nonzero id, and only there. *)
Definition slots_ok (slot : gmap Z Z) (tbl : list (Z * Z)) : Prop :=
  (forall o u, (o, u) ∈ tbl -> u <> 0 -> slot_get slot (u mod MAX_SLOT) = o) /\
  (forall i, slot_get slot i <> 0 ->
     exists u, (slot_get slot i, u) ∈ tbl /\ u <> 0 /\ u mod MAX_SLOT = i).

(** Per-slice facts: pin counts are nonnegative, placeholders are never
    pinned, ids are 32-bit. *)
Definition slice_ok (sl : slice) : Prop :=
  0 <= sl_ref sl /\ (sl_id sl = 0 -> sl_ref sl = 0) /\ 0 <= sl_id sl < 2 ^ 32.

(** The sweep cursor sits on a slice boundary. *)
Definition boundary (c : Z) (sls : list slice) : Prop :=
  exists k, c = HEAP_HEADER_SIZE + span (take k sls).

(** An entry of [ids_at] is a slice of the list, at its offset. *)
Lemma ids_at_elem a sls o u :
  (o, u) ∈ ids_at a sls ->
  exists l1 sl l2, sls = l1 ++ sl :: l2 /\ o = a + span l1 /\ sl_id sl = u.
Proof.
  revert a. induction sls as [|sl sls IH]; intros a Hin; simpl in Hin;
    [by apply elem_of_nil in Hin |].
  apply elem_of_cons in Hin as [Heq | Hin].
  - injection Heq as -> ->. exists [], sl, sls. simpl. split; [done | lia].
  - destruct (IH _ Hin) as (l1 & sl' & l2 & -> & -> & <-).
    exists (sl :: l1), sl', l2. simpl. split; [done | lia].
Qed.

Section Layout.
Context {M : Type} {MO : WordMemory M} {ML : WordMemoryLaws M}.

Definition slice_at (m : M) (a : Z) (sl : slice) : Prop :=
  2 <= sl_sz sl /\
  mem_load m (8 * a) = sl_ref sl /\
  mem_load m (8 * a + 4) = sl_sz sl /\
  mem_words m (8 * a + 8) (Z.to_nat (2 * sl_sz sl - 3)) = sl_body sl /\
  mem_load m (8 * a + 8 * sl_sz sl - 4) = sl_id sl.

Inductive tiles (m : M) : Z -> list slice -> Z -> Prop :=
| tiles_nil a : tiles m a [] a
| tiles_cons a sl sls b :
    slice_at m a sl -> tiles m (a + sl_sz sl) sls b -> tiles m a (sl :: sls) b.

Definition heap_repr (H : heap M) (sls : list slice) : Prop :=
  HEAP_HEADER_SIZE <= h_offset H <= h_sz H /\ h_sz H <= 2 ^ 29 /\
  0 <= h_cid H < 2 ^ 32 /\
  tiles (h_mem H) HEAP_HEADER_SIZE sls (h_offset H) /\
  (h_collect H <> 0 -> boundary (h_collect H) sls) /\
  Forall slice_ok sls /\
  slots_ok (h_slot H) (ids_at HEAP_HEADER_SIZE sls).

Definition heap_inv (H : heap M) : Prop := exists sls, heap_repr H sls.

(** ** Frame lemmas: a slice and a tiling only depend on their words. *)

Lemma slice_at_frame m m' a sl :
  slice_at m a sl -> mem_agree (8 * a) (8 * a + 8 * sl_sz sl) m' m -> slice_at m' a sl.
Proof.
  intros (Hsz & Hr & Hs & Hb & Hi) Hag. split; [done |].
  split; [rewrite Hag; [done | lia] |]. split; [rewrite Hag; [done | lia] |].
  split; [| rewrite Hag; [done | lia]].
  rewrite <- Hb. apply mem_words_agree. eapply mem_agree_sub; [| | exact Hag]; lia.
Qed.

Lemma tiles_le m a sls b : tiles m a sls b -> a <= b /\ b = a + span sls.
Proof. induction 1 as [|? ? ? ? [? _] _ IH]; simpl; lia. Qed.

Lemma tiles_frame m m' a sls b :
  tiles m a sls b -> mem_agree (8 * a) (8 * b) m' m -> tiles m' a sls b.
Proof.
  induction 1 as [|a sl sls b Hsl Ht IH]; intros Hag; constructor.
  - apply tiles_le in Ht. eapply slice_at_frame; [done |].
    eapply mem_agree_sub; [| | exact Hag]; lia.
  - apply IH. pose proof (tiles_le _ _ _ _ Ht). destruct Hsl.
    eapply mem_agree_sub; [| | exact Hag]; lia.
Qed.

Lemma tiles_app m a l1 l2 c :
  tiles m a (l1 ++ l2) c <-> exists b, tiles m a l1 b /\ tiles m b l2 c.
Proof.
  split.
  - revert a. induction l1 as [|sl l1 IH]; intros a Ht; simpl in *.
    + eexists. split; [constructor | done].
    + inversion Ht as [|? ? ? ? Hsl Ht']; subst.
      destruct (IH _ Ht') as (b & ? & ?). eexists. split; [|done].
      by constructor.
  - intros (b & H1 & H2). induction H1; simpl; [done |]. constructor; auto.
Qed.

Lemma tiles_snoc m a l b sl c :
  tiles m a l b -> slice_at m b sl -> c = b + sl_sz sl -> tiles m a (l ++ [sl]) c.
Proof.
  intros T Hs ->. apply tiles_app. exists b. split; [done |]. constructor; [done | constructor].
Qed.

(** A slice replaced by another of the same size, the memory around
    it unchanged: the tiling holds with the new slice. *)
Lemma tiles_replace m m' a l1 sl sl' l2 b :
  tiles m a (l1 ++ sl :: l2) b ->
  slice_at m' (a + span l1) sl' -> sl_sz sl' = sl_sz sl ->
  mem_agree (8 * a) (8 * (a + span l1)) m' m ->
  mem_agree (8 * (a + span l1 + sl_sz sl)) (8 * b) m' m ->
  tiles m' a (l1 ++ sl' :: l2) b.
Proof.
  intros (c & T1 & T2)%tiles_app Hsl' Hsz Hlo Hhi.
  destruct (tiles_le _ _ _ _ T1) as [_ ->].
  inversion T2 as [|? ? ? ? Hsl T3]; subst.
  apply tiles_app. exists (a + span l1). split; [by eapply tiles_frame |].
  constructor; [done |]. rewrite Hsz. by eapply tiles_frame.
Qed.

(** ** Reading a slice through the macros of [src/bpa.c]

    Below [2^29] units the 32-bit products of [HEAP_SLICE] and
    [SLICE_ID] do not wrap, and the macros find the fields of the slice. *)
Lemma HEAP_SLICE_small o : 0 <= o < 2 ^ 29 -> HEAP_SLICE o = 8 * o.
Proof. intros. unfold HEAP_SLICE. bpa_lia. Qed.

Lemma slice_at_read m o sl :
  slice_at m o sl -> 0 < o -> o + sl_sz sl <= 2 ^ 29 ->
  HEAP_SLICE o = 8 * o /\ slice_ref m (8 * o) = sl_ref sl /\
  slice_sz m (8 * o) = sl_sz sl /\ SLICE_ID m (8 * o) = 8 * o + 8 * sl_sz sl - 4 /\
  slice_id m (8 * o) = sl_id sl.
Proof.
  intros (Hsz & Hr & Hs & Hb & Hi) ? ?.
  assert (HS : SLICE_ID m (8 * o) = 8 * o + 8 * sl_sz sl - 4).
  { unfold SLICE_ID, slice_sz. rewrite Hs. bpa_lia. }
  unfold slice_id, slice_ref, slice_sz. rewrite HS, HEAP_SLICE_small by lia. auto.
Qed.

Lemma tiles_slice_at m a l1 sl l2 b :
  tiles m a (l1 ++ sl :: l2) b -> slice_at m (a + span l1) sl /\ a + span l1 + sl_sz sl <= b.
Proof.
  intros (c & T1 & T2)%tiles_app. destruct (tiles_le _ _ _ _ T1) as [_ ->].
  inversion T2 as [|? ? ? ? Hsl T3]; subst. split; [done |].
  apply tiles_le in T3. lia.
Qed.

(** Offsets of a tiling are at or above its start. *)
Lemma ids_at_tiles_ge m a sls b o u :
  tiles m a sls b -> (o, u) ∈ ids_at a sls -> a <= o.
Proof.
  intros T Hin. destruct (ids_at_elem _ _ _ _ Hin) as (l1 & sl & l2 & -> & -> & _).
  destruct (proj1 (tiles_app _ _ _ _ _) T) as (c & T1 & _).
  destruct (tiles_le _ _ _ _ T1). lia.
Qed.

(** ** Writing the [ref] word of one slice *)

Lemma slice_at_store_ref m o sl r :
  slice_at m o sl -> slice_at (mem_store m (8 * o) r) o (with_ref sl r).
Proof.
  intros (Hsz & Hr & Hs & Hb & Hi). unfold slice_at, with_ref; simpl.
  rewrite load_store_eq, !load_store_ne by lia. split_and!; try done.
  rewrite <- Hb. apply mem_words_agree. apply mem_agree_store_out. lia.
Qed.

Lemma tiles_store_ref m a l1 sl l2 b r :
  tiles m a (l1 ++ sl :: l2) b ->
  tiles (mem_store m (8 * (a + span l1)) r) a (l1 ++ with_ref sl r :: l2) b.
Proof.
  intros T. destruct (tiles_slice_at _ _ _ _ _ _ T) as [Hsl _].
  pose proof Hsl as [? _].
  eapply tiles_replace; [exact T | by apply slice_at_store_ref | done | |];
    apply mem_agree_store_out; lia.
Qed.
Lemma tiles_sizes m a sls b : tiles m a sls b -> Forall (fun x => 2 <= sl_sz x) sls.
Proof. induction 1 as [|? ? ? ? [? _]]; constructor; auto. Qed.

(** ** Writing a slice header

The three stores [s->ref = r0; s->sz = n; *SLICE_ID(s) = c] of
[bpa_create] (lines 78-80) and of the placeholder of [collect] (lines
151-153).  The id lands on the last word of the slice, which is distinct
from the [sz] word only because [n >= 2]. *)
Definition header_write (m : M) (o r0 n c : Z) : M :=
  mem_store (mem_store (mem_store m (8 * o) r0) (8 * o + 4) n) (8 * o + 8 * n - 4) c.

Lemma header_write_slice_at m o r0 n c :
  2 <= n ->
  slice_at (header_write m o r0 n c) o
    (mk_slice r0 n (mem_words (header_write m o r0 n c) (8 * o + 8) (Z.to_nat (2 * n - 3))) c).
Proof.
  intros Hn. unfold header_write, slice_at; simpl.
  rewrite load_store_eq. rewrite !(load_store_ne _ (8 * o + 8 * n - 4)) by lia.
  rewrite load_store_eq, load_store_ne, load_store_eq by lia. auto.
Qed.

Lemma header_write_agree m o r0 n c lo hi :
  2 <= n -> hi <= 8 * o \/ 8 * o + 8 * n <= lo -> mem_agree lo hi (header_write m o r0 n c) m.
Proof.
  intros. unfold header_write.
  apply mem_agree_store_l; [apply mem_agree_store_l; [apply mem_agree_store_out |] |]; lia.
Qed.
(** ** A slice is its [2 sz] words *)

Lemma slice_at_words m a sl :
  slice_at m a sl <->
  2 <= sl_sz sl /\ length (sl_body sl) = Z.to_nat (2 * sl_sz sl - 3) /\
  mem_words m (8 * a) (Z.to_nat (2 * sl_sz sl)) = slice_image sl.
Proof.
  assert (Hsplit : forall n, 2 <= n -> Z.to_nat (2 * n) = (2 + Z.to_nat (2 * n - 3) + 1)%nat) by lia.
  assert (Ha : forall n, 2 <= n -> 8 * a + 4 * Z.of_nat (S (S (Z.to_nat (2 * n - 3)))) = 8 * a + 8 * n - 4) by lia.
  assert (Hb2 : 8 * a + 4 * Z.of_nat 2 = 8 * a + 8) by lia.
  split.
  - intros (Hsz & Hr & Hs & Hb & Hi). split_and!; [done | rewrite <- Hb; apply length_mem_words |].
    rewrite Hsplit, !mem_words_app by done. simpl. rewrite Ha, Hb2 by done.
    by rewrite Hr, Hs, Hb, Hi.
  - intros (Hsz & Hlen & Hw). rewrite Hsplit, !mem_words_app in Hw by done.
    simpl in Hw. rewrite Ha, Hb2 in Hw by done.
    unfold slice_image in Hw. simpl in Hw. injection Hw as Hr Hs Hw.
    apply app_inj_1 in Hw as [Hb Hi]; [| by rewrite length_mem_words].
    injection Hi as Hi. by split_and!.
Qed.
End Layout.

(** ** Lists of slices *)

Lemma span_app l1 l2 : span (l1 ++ l2) = span l1 + span l2.
Proof. induction l1; simpl; lia. Qed.

Lemma ids_at_app a l1 l2 : ids_at a (l1 ++ l2) = ids_at a l1 ++ ids_at (a + span l1) l2.
Proof.
  revert a. induction l1 as [|sl l1 IH]; intros a; simpl; [by rewrite Z.add_0_r |].
  rewrite IH. do 3 f_equal. lia.
Qed.

Lemma ids_at_shape a l l' : shape l = shape l' -> ids_at a l = ids_at a l'.
Proof.
  revert a l'. induction l as [|sl l IH]; intros a [|sl' l'] E; simpl in *; try done.
  injection E as E1 E2 E3. rewrite E1, E2, (IH _ _ E3). done.
Qed.

Lemma span_shape l l' : shape l = shape l' -> span l = span l'.
Proof.
  revert l'. induction l as [|sl l IH]; intros [|sl' l'] E; simpl in *; try done.
  injection E as E1 E2 E3. rewrite E1, (IH _ E3). done.
Qed.

Lemma boundary_shape c l l' : shape l = shape l' -> boundary c l -> boundary c l'.
Proof.
  intros E [k ->]. exists k. f_equal. apply span_shape.
  unfold shape in *. by rewrite <- !firstn_map, E.
Qed.

Lemma shape_app l1 l2 : shape (l1 ++ l2) = shape l1 ++ shape l2.
Proof. apply map_app. Qed.

#[export] Hint Resolve span_app ids_at_app : bpa.

Lemma shape_with_ref l1 sl l2 r :
  shape (l1 ++ with_ref sl r :: l2) = shape (l1 ++ sl :: l2).
Proof. by rewrite !shape_app. Qed.

(** Registering a fresh handle [c] at offset [o] in a free slot. *)
Lemma slots_ok_insert_new (slot : gmap Z Z) (tbl : list (Z * Z)) (c o : Z) :
  slots_ok slot tbl -> slot_get slot (c mod MAX_SLOT) = 0 -> c <> 0 -> 0 < o ->
  (forall o' u, (o', u) ∈ tbl -> 0 < o') ->
  slots_ok (<[c mod MAX_SLOT := o]> slot) (tbl ++ [(o, c)]) /\
  (forall o' u, (o', u) ∈ tbl -> u <> c).
Proof.
  intros [Hs1 Hs2] Hfree Hc Ho Hpos. split; [split |].
  - intros o' u Hin Hu. rewrite slot_get_insert.
    apply elem_of_app in Hin as [Hin | Hin%list_elem_of_singleton].
    + case_decide as E; [| auto]. specialize (Hs1 _ _ Hin Hu). specialize (Hpos _ _ Hin).
      rewrite <- E in Hs1. lia.
    + injection Hin as -> ->. by rewrite decide_True.
  - intros i. rewrite slot_get_insert. case_decide as E.
    + intros _. exists c. split_and!; [| done | done]. apply elem_of_app. right.
      by apply list_elem_of_singleton.
    + intros Hne. destruct (Hs2 _ Hne) as (u & ? & ? & ?). exists u.
      split_and!; [by apply elem_of_app; left | done | done].
  - intros o' u Hin ->. specialize (Hs1 _ _ Hin Hc). specialize (Hpos _ _ Hin). lia.
Qed.

(** The cursor stays on a boundary when slices are appended. *)
Lemma boundary_app c l l' : boundary c l -> boundary c (l ++ l').
Proof.
  intros [k ->]. exists (Nat.min k (length l)). f_equal.
  rewrite take_app_le by lia. f_equal. destruct (Nat.le_ge_cases k (length l)).
  - by rewrite Nat.min_l.
  - rewrite Nat.min_r, take_ge by lia. by rewrite take_ge.
Qed.

(** Every slice of a list has its entry in [ids_at]. *)
Lemma ids_at_in a sls sl : sl ∈ sls -> exists o, (o, sl_id sl) ∈ ids_at a sls.
Proof.
  intros Hin. apply list_elem_of_In, in_split in Hin as (l1 & l2 & ->).
  exists (a + span l1). rewrite ids_at_app. apply elem_of_app. right. simpl.
  apply elem_of_cons. by left.
Qed.

Lemma span_nonneg l : Forall (fun x => 0 < sl_sz x) l -> 0 <= span l.
Proof. induction 1; simpl; lia. Qed.

(** In a list of slices of positive size, a prefix is determined by its span. *)
Lemma span_prefix_inj l1 sl l2 l1' sl' l2' :
  Forall (fun x => 0 < sl_sz x) (l1 ++ sl :: l2) ->
  l1 ++ sl :: l2 = l1' ++ sl' :: l2' -> span l1 = span l1' -> l1 = l1' /\ sl = sl' /\ l2 = l2'.
Proof.
  revert l1'. induction l1 as [|x l1 IH]; intros [|x' l1'] Hpos E Hs; simpl in *.
  - by injection E as -> ->.
  - injection E as -> E. inversion Hpos as [|? ? Hx Hr]. rewrite E in Hr.
    apply Forall_app in Hr as [Hr _]. apply span_nonneg in Hr. lia.
  - injection E as <- E. inversion Hpos as [|? ? Hx Hr].
    apply Forall_app in Hr as [Hr _]. apply span_nonneg in Hr. lia.
  - injection E as <- E. inversion Hpos as [|? ? Hx Hr].
    destruct (IH l1' Hr E ltac:(lia)) as (-> & -> & ->). done.
Qed.

(** Two slices with the same slot have the same offset. *)
Lemma slots_ok_unique slot tbl o1 u1 o2 u2 :
  slots_ok slot tbl -> (o1, u1) ∈ tbl -> (o2, u2) ∈ tbl -> u1 <> 0 -> u2 <> 0 ->
  u1 mod MAX_SLOT = u2 mod MAX_SLOT -> o1 = o2.
Proof. intros [Hs _] H1 H2 ? ? E. rewrite <- (Hs _ _ H1), <- (Hs _ _ H2) by done. by rewrite E. Qed.

Section Repr.
Context {M : Type} {MO : WordMemory M} {ML : WordMemoryLaws M}.

(** Changing one pin count keeps the abstract view, with that slice
    updated. *)
Lemma heap_repr_store_ref (H : heap M) l1 sl l2 r :
  heap_repr H (l1 ++ sl :: l2) -> slice_ok (with_ref sl r) ->
  heap_repr (set_mem (mem_store (h_mem H) (8 * (HEAP_HEADER_SIZE + span l1)) r) H)
            (l1 ++ with_ref sl r :: l2).
Proof.
  intros (? & ? & ? & T & Hc & Hok & Hslots) Hsl. unfold heap_repr; simpl.
  do 3 (split; [done |]). split; [by apply tiles_store_ref |]. split; [| split].
  - intros Hc0. apply (boundary_shape _ (l1 ++ sl :: l2)); [by rewrite shape_with_ref | auto].
  - apply Forall_app in Hok as [? Hok2]. inversion Hok2. apply Forall_app. auto.
  - by rewrite (ids_at_shape _ _ (l1 ++ sl :: l2)) by apply shape_with_ref.
Qed.
End Repr.

(** ** A decision procedure for the abstract view

[heap_reprb] computes [heap_repr] on a heap with a finite slot table: the
second half of [slots_ok] ranges over every index, but only the indices
present in the map can read nonzero. *)
Section Check.
Context {M : Type} {MO : WordMemory M}.

Definition slice_atb (m : M) (a : Z) (sl : slice) : bool :=
  bool_decide (2 <= sl_sz sl) && (mem_load m (8 * a) =? sl_ref sl) &&
  (mem_load m (8 * a + 4) =? sl_sz sl) &&
  bool_decide (mem_words m (8 * a + 8) (Z.to_nat (2 * sl_sz sl - 3)) = sl_body sl) &&
  (mem_load m (8 * a + 8 * sl_sz sl - 4) =? sl_id sl).

Fixpoint tilesb (m : M) (a : Z) (sls : list slice) (b : Z) : bool :=
  match sls with
  | [] => a =? b
  | sl :: r => slice_atb m a sl && tilesb m (a + sl_sz sl) r b
  end.

Definition slots_okb (slot : gmap Z Z) (tbl : list (Z * Z)) : bool :=
  forallb (fun '(o, u) => (u =? 0) || (slot_get slot (u mod MAX_SLOT) =? o)) tbl &&
  forallb (fun '(i, v) => (v =? 0) ||
             existsb (fun '(o, u) => (o =? v) && negb (u =? 0) && (u mod MAX_SLOT =? i)) tbl)
    (map_to_list slot).

Definition slice_okb (sl : slice) : bool :=
  (0 <=? sl_ref sl) && (negb (sl_id sl =? 0) || (sl_ref sl =? 0)) &&
  (0 <=? sl_id sl) && (sl_id sl <? 2 ^ 32).

Definition heap_reprb (H : heap M) (sls : list slice) : bool :=
  (HEAP_HEADER_SIZE <=? h_offset H) && (h_offset H <=? h_sz H) && (h_sz H <=? 2 ^ 29) &&
  (0 <=? h_cid H) && (h_cid H <? 2 ^ 32) &&
  tilesb (h_mem H) HEAP_HEADER_SIZE sls (h_offset H) &&
  ((h_collect H =? 0) ||
   existsb (fun k => h_collect H =? HEAP_HEADER_SIZE + span (take k sls)) (seq 0 (S (length sls)))) &&
  forallb slice_okb sls && slots_okb (h_slot H) (ids_at HEAP_HEADER_SIZE sls).

(** The slices laid out from [a] to [b], read back from memory: the
    abstract view of a concrete heap, for the checker. *)
Fixpoint read_tiling (fuel : nat) (m : M) (a b : Z) : list slice :=
  match fuel with
  | O => []
  | S fuel =>
      if a <? b then
        let sz := mem_load m (8 * a + 4) in
        mk_slice (mem_load m (8 * a)) sz (mem_words m (8 * a + 8) (Z.to_nat (2 * sz - 3)))
          (mem_load m (8 * a + 8 * sz - 4)) :: read_tiling fuel m (a + sz) b
      else []
  end.

Definition view_of (H : heap M) : list slice :=
  read_tiling (Z.to_nat (h_offset H - HEAP_HEADER_SIZE)) (h_mem H) HEAP_HEADER_SIZE (h_offset H).

Lemma tilesb_sound m a sls b : tilesb m a sls b = true -> tiles m a sls b.
Proof.
  revert a. induction sls as [|sl sls IH]; intros a; simpl.
  - intros ->%Z.eqb_eq. constructor.
  - intros (Hs & Ht)%andb_prop. constructor; [| auto].
    unfold slice_atb in Hs. repeat (apply andb_prop in Hs as [Hs ?]).
    apply bool_decide_eq_true in Hs. unfold slice_at.
    repeat match goal with H : (_ =? _) = true |- _ => apply Z.eqb_eq in H end.
    match goal with H : bool_decide _ = true |- _ => apply bool_decide_eq_true in H end.
    auto.
Qed.

Lemma slots_okb_sound slot tbl : slots_okb slot tbl = true -> slots_ok slot tbl.
Proof.
  unfold slots_okb. intros (H1 & H2)%andb_prop. rewrite forallb_forall in H1, H2. split.
  - intros o u Hin Hu. apply list_elem_of_In in Hin. specialize (H1 _ Hin). simpl in H1.
    apply orb_prop in H1 as [H1 | H1]; apply Z.eqb_eq in H1; [done | lia].
  - intros i Hi. unfold slot_get in Hi. destruct (slot !! i) as [v|] eqn:E; simpl in Hi; [| done].
    assert (Hin' : In (i, v) (map_to_list slot))
      by (apply list_elem_of_In, elem_of_map_to_list; done).
    specialize (H2 _ Hin'). simpl in H2.
    apply orb_prop in H2 as [H2 | H2]; [apply Z.eqb_eq in H2; lia |].
    apply existsb_exists in H2 as ([o u] & Hin & Hc).
    repeat (apply andb_prop in Hc as [Hc ?]). apply Z.eqb_eq in Hc.
    exists u. unfold slot_get. rewrite E. simpl. subst. split_and!; [by apply list_elem_of_In | |].
    + match goal with H : negb _ = true |- _ => apply negb_true_iff, Z.eqb_neq in H end. done.
    + match goal with H : (_ mod _ =? _) = true |- _ => apply Z.eqb_eq in H end. done.
Qed.

Lemma heap_reprb_sound (H : heap M) sls : heap_reprb H sls = true -> heap_repr H sls.
Proof.
  unfold heap_reprb. intros Hb. repeat (apply andb_prop in Hb as [Hb ?]).
  repeat match goal with
         | H : (_ <=? _) = true |- _ => apply Z.leb_le in H
         | H : (_ <? _) = true |- _ => apply Z.ltb_lt in H end.
  unfold heap_repr. split_and!; try lia.
  - by apply tilesb_sound.
  - intros Hc. match goal with H : (_ =? 0) || _ = true |- _ => apply orb_prop in H as [E | E] end;
      [apply Z.eqb_eq in E; done |].
    apply existsb_exists in E as (k & _ & Ek). apply Z.eqb_eq in Ek. by exists k.
  - apply Forall_forall. intros sl Hin.
    match goal with H : forallb slice_okb _ = true |- _ => rewrite forallb_forall in H; apply list_elem_of_In in Hin; specialize (H _ Hin) end.
    unfold slice_okb in *. repeat match goal with H : _ && _ = true |- _ => apply andb_prop in H as [? ?] end.
    repeat match goal with
           | H : (_ <=? _) = true |- _ => apply Z.leb_le in H
           | H : (_ <? _) = true |- _ => apply Z.ltb_lt in H end.
    split_and!; try lia.
    all: intros Hid; match goal with H : negb _ || _ = true |- _ => apply orb_prop in H as [E | E] end;
      [apply negb_true_iff, Z.eqb_neq in E; done | by apply Z.eqb_eq in E].
  - by apply slots_okb_sound.
Qed.
End Check.

(** ** [bpa_init] builds the empty heap *)

Section Init.
Context {M : Type} {MO : WordMemory M} {ML : WordMemoryLaws M}.

Lemma init_repr (slot0 : gmap Z Z) (mem0 : M) size H :
  bpa_init slot0 mem0 size = Some H -> 0 <= size <= 2 ^ 32 ->
  (forall i, slot_get slot0 i = 0) -> heap_repr H [].
Proof.
  unfold bpa_init. intros E Hs Hz.
  destruct (negb _); [done |]. destruct (Z.leb_spec (size / ALIGN_SIZE) HEAP_HEADER_SIZE); [done |].
  injection E as <-. unfold heap_repr; simpl.
  assert (size / ALIGN_SIZE <= 2 ^ 29) by (unfold ALIGN_SIZE; apply Z.div_le_upper_bound; zlia).
  split_and!; try (lia || zlia).
  - constructor.
  - constructor.
  - split; [intros ? ? Hin; by apply elem_of_nil in Hin | intros i Hi; by rewrite Hz in Hi].
Qed.

(** C29: A buffer of at most 4 GiB whose slot table reads 0 becomes an empty
    well-formed heap. *)
Theorem bpa_init_empty (slot0 : gmap Z Z) (mem0 : M) size H :
  bpa_init slot0 mem0 size = Some H -> 0 <= size <= 2 ^ 32 ->
  (forall i, slot_get slot0 i = 0) -> heap_repr H [].
Proof. apply init_repr. Qed.

End Init.

(** Discharge a [heap_repr] hypothesis on a concrete heap by computation. *)
Ltac repr_by_compute := apply heap_reprb_sound; vm_compute; reflexivity.
