(* ===== verification/Relocate.v ===== *)
(** * What a sweep does to the abstract view

    The compactor ([collect], [src/bpa.c] lines 135-175) changes a heap
    in three ways: it clears the slot of an unpinned slice, it moves a
    pinned slice down with [memmove] and points its slot at the new
    offset, and it writes a placeholder header over a gap.  This file
    proves what each of these does to [slots_ok] and to [tiles], on the
    pinned/unpinned split of a slice list ([live], [dead]), and that a
    tiling determines the words of the region ([image]) and the slot
    table, which is what makes two heaps with the same abstract view
    interchangeable. *)

From Stdlib Require Import ZArith Lia.
From stdpp Require Import base gmap list.
From S2P Require Import Prelude Mem Heap Layout.

(** The words of a list of slices laid end to end. *)
Definition image (sls : list slice) : list Z := concat (map slice_image sls).

(** ** Pinned and unpinned slices *)

Lemma live_app l1 l2 : live (l1 ++ l2) = live l1 ++ live l2.
Proof. apply List.filter_app. Qed.

Lemma dead_app l1 l2 : dead (l1 ++ l2) = dead l1 ++ dead l2.
Proof. apply List.filter_app. Qed.

Lemma live_idem l : live (live l) = live l.
Proof.
  induction l as [|sl l IH]; [done |]. unfold live in *. simpl.
  destruct (sl_ref sl =? 0) eqn:E; simpl; rewrite ?E; simpl; congruence.
Qed.

Lemma span_live_dead l : span l = span (live l) + span (dead l).
Proof.
  induction l as [|sl l IH]; simpl; [done |]. unfold live, dead in *. simpl.
  destruct (sl_ref sl =? 0); simpl; lia.
Qed.

#[export] Hint Rewrite live_app dead_app span_app live_idem : bpa_rw.

Lemma span_ge_length l : Forall (fun x => 2 <= sl_sz x) l -> 2 * Z.of_nat (length l) <= span l.
Proof. induction 1; simpl; lia. Qed.

Lemma Forall_live (P : slice -> Prop) l : Forall P l -> Forall P (live l).
Proof. rewrite !Forall_forall. intros HP x Hx%list_elem_of_In%filter_In. apply HP, list_elem_of_In, Hx. Qed.

Lemma Forall_dead (P : slice -> Prop) l : Forall P l -> Forall P (dead l).
Proof. rewrite !Forall_forall. intros HP x Hx%list_elem_of_In%filter_In. apply HP, list_elem_of_In, Hx. Qed.

(** ** The slot table under removal and relocation of an entry *)

Lemma elem_of_app_cons_ne {A} (x a : A) l1 l2 : x ∈ l1 ++ a :: l2 -> x <> a -> x ∈ l1 ++ l2.
Proof. set_solver. Qed.

Lemma elem_of_app_cons_r {A} (x a : A) l1 l2 : x ∈ l1 ++ l2 -> x ∈ l1 ++ a :: l2.
Proof. set_solver. Qed.

#[export] Hint Resolve elem_of_app_cons_r : bpa.

(** [slots_ok] only depends on the entries of the table, not their order. *)
#[export] Instance slots_ok_perm slot : Proper ((≡ₚ) ==> iff) (slots_ok slot).
Proof.
  intros t1 t2 Hp. unfold slots_ok. split; intros [Hs1 Hs2]; split.
  - intros o u Hin. apply Hs1. by rewrite Hp.
  - intros i Hi. destruct (Hs2 i Hi) as (u & ? & ?). exists u. by rewrite <- Hp.
  - intros o u Hin. apply Hs1. by rewrite <- Hp.
  - intros i Hi. destruct (Hs2 i Hi) as (u & ? & ?). exists u. by rewrite Hp.
Qed.

(** Lines 161-164: an unpinned slice leaves the table, and its slot is
    cleared when its id is nonzero. *)
Lemma slots_ok_remove slot t1 t2 o u :
  slots_ok slot (t1 ++ (o, u) :: t2) ->
  (forall o' u', (o', u') ∈ t1 ++ t2 -> o' <> o) ->
  slots_ok (if u =? 0 then slot else <[u mod MAX_SLOT := 0]> slot) (t1 ++ t2).
Proof.
  intros [Hs1 Hs2] Hoff. split.
  - intros o' u' Hi Hu'. pose proof (Hs1 _ _ (elem_of_app_cons_r _ (o, u) _ _ Hi) Hu') as E'.
    destruct (Z.eqb_spec u 0); [done |]. rewrite slot_get_insert. case_decide as E; [| done].
    exfalso. apply (Hoff _ _ Hi). rewrite <- E', <- E. apply Hs1; [set_solver | done].
  - intros i Hi. assert (Hne : forall u', u' mod MAX_SLOT = i -> u' <> 0 ->
        slot_get slot i <> 0 -> i <> u mod MAX_SLOT \/ u = 0 ->
        (slot_get slot i, u') ∈ t1 ++ (o, u) :: t2 -> (slot_get slot i, u') ∈ t1 ++ t2).
    { intros u' Hi' Hu' _ Hc Hm. apply (elem_of_app_cons_ne _ (o, u)); [done |].
      intros [= _ ->]. destruct Hc; congruence. }
    destruct (Z.eqb_spec u 0) as [Hu | Hu].
    + destruct (Hs2 _ Hi) as (u' & Hm & Hu' & Hi'). exists u'. split_and!; auto.
    + rewrite slot_get_insert in Hi |- *. case_decide; [done |].
      destruct (Hs2 _ Hi) as (u' & Hm & Hu' & Hi'). exists u'. split_and!; auto.
Qed.

(** Lines 166-168: a pinned slice moved from [o] to [d], its slot
    rewritten. *)
Lemma slots_ok_move slot t1 t2 o u d :
  slots_ok slot (t1 ++ (o, u) :: t2) -> u <> 0 ->
  (forall o' u', (o', u') ∈ t1 ++ t2 -> o' <> o) ->
  slots_ok (<[u mod MAX_SLOT := d]> slot) (t1 ++ (d, u) :: t2).
Proof.
  intros [Hs1 Hs2] Hu Hoff. split.
  - intros o' u' Hi Hu'. rewrite slot_get_insert.
    destruct (decide ((o', u') = (d, u))) as [[= -> ->] | Hne]; [by rewrite decide_True |].
    apply elem_of_app_cons_ne in Hi; [| done].
    pose proof (Hs1 _ _ (elem_of_app_cons_r _ (o, u) _ _ Hi) Hu') as E'.
    case_decide as E; [| done]. exfalso. apply (Hoff _ _ Hi).
    rewrite <- E', <- E. apply Hs1; [set_solver | done].
  - intros i Hi. rewrite slot_get_insert in Hi |- *. case_decide as E.
    + exists u. split_and!; [set_solver | done | done].
    + destruct (Hs2 _ Hi) as (u' & Hm & Hu' & Hi'). exists u'. split_and!; [| done | done].
      apply elem_of_app_cons_r, (elem_of_app_cons_ne _ (o, u)); [done |].
      intros [= _ ->]. congruence.
Qed.

(** Lines 150-153: a placeholder of id 0 has no slot. *)
Lemma slots_ok_add_zero slot t1 t2 o :
  slots_ok slot (t1 ++ t2) -> slots_ok slot (t1 ++ (o, 0) :: t2).
Proof.
  intros [Hs1 Hs2]. split.
  - intros o' u' Hi Hu'. apply Hs1; [| done]. apply (elem_of_app_cons_ne _ (o, 0)); [done |].
    by intros [= _ ->].
  - intros i Hi. destruct (Hs2 _ Hi) as (u' & ? & ?). exists u'. split; [set_solver | done].
Qed.

(** The table is determined by the slices: two slot tables that satisfy
    [slots_ok] for the same entries read the same everywhere. *)
Lemma slots_ok_determined s1 s2 tbl i :
  slots_ok s1 tbl -> slots_ok s2 tbl -> slot_get s1 i = slot_get s2 i.
Proof.
  intros [H11 H12] [H21 H22].
  destruct (decide (slot_get s1 i = 0)) as [E1 | E1].
  - destruct (decide (slot_get s2 i = 0)) as [E2 | E2]; [congruence |].
    destruct (H22 _ E2) as (u & Hm & Hu & <-). by rewrite (H11 _ _ Hm Hu).
  - destruct (H12 _ E1) as (u & Hm & Hu & <-). by rewrite (H21 _ _ Hm Hu).
Qed.

(** ** Tilings under [memmove] and placeholder headers *)

Section Words.
Context {M : Type} {MO : WordMemory M} {ML : WordMemoryLaws M}.

Lemma ids_at_tiles_lt (m : M) a sls b o u :
  tiles m a sls b -> (o, u) ∈ ids_at a sls -> o < b.
Proof.
  intros T Hin. destruct (ids_at_elem _ _ _ _ Hin) as (l1 & sl & l2 & -> & -> & _).
  destruct (tiles_slice_at _ _ _ _ _ _ T) as [[? _] ?]. lia.
Qed.

Lemma tiles_empty (m : M) a sls b : tiles m a sls b -> b <= a -> sls = [] /\ b = a.
Proof. inversion 1 as [|? ? ? ? [? _] T]; subst; [done |]. apply tiles_le in T. lia. Qed.

(** A slice copied by [memmove(HEAP_SLICE(dst), s, sz * ALIGN_SIZE)]. *)
Lemma slice_at_move (m : M) d p sl :
  slice_at m p sl -> slice_at (mem_move m (8 * d) (8 * p) (8 * sl_sz sl)) d sl.
Proof.
  intros Hs. pose proof Hs as [Hsz _]. apply slice_at_words in Hs as (_ & Hlen & Hw).
  apply slice_at_words. split_and!; [done | done |]. rewrite <- Hw.
  replace (8 * sl_sz sl) with (4 * Z.of_nat (Z.to_nat (2 * sl_sz sl))) by lia.
  apply mem_words_move.
Qed.

(** The move step of the sweep: the region below [dst] and above the
    source slice keep their tilings, and the slice lands at [dst]. *)
Lemma tiles_move (m : M) a D dst p sl R b :
  tiles m a D dst -> slice_at m p sl -> tiles m (p + sl_sz sl) R b -> dst <= p ->
  tiles (mem_move m (8 * dst) (8 * p) (8 * sl_sz sl)) a (D ++ [sl]) (dst + sl_sz sl) /\
  tiles (mem_move m (8 * dst) (8 * p) (8 * sl_sz sl)) (p + sl_sz sl) R b.
Proof.
  intros TD Hs TR Hle. split.
  - eapply tiles_snoc; [| by apply slice_at_move | done].
    eapply tiles_frame; [done |]. apply mem_agree_move_out. lia.
  - eapply tiles_frame; [done |]. apply mem_agree_move_out. lia.
Qed.

(** The pause of the sweep: a placeholder header over the gap [dst, p). *)
Lemma tiles_placeholder (m : M) a D dst p R b :
  tiles m a D dst -> tiles m p R b -> 2 <= p - dst ->
  exists ph, sl_ref ph = 0 /\ sl_sz ph = p - dst /\ sl_id ph = 0 /\
    tiles (header_write m dst 0 (p - dst) 0) a (D ++ ph :: R) b.
Proof.
  intros TD TR Hgap. eexists. split_and!; [| | | apply tiles_app; exists dst; split].
  4: { eapply tiles_frame; [done |]. apply header_write_agree; [lia |].
       apply tiles_le in TD. lia. }
  4: { constructor; [by apply header_write_slice_at |]. simpl.
       replace (dst + (p - dst)) with p by lia.
       eapply tiles_frame; [done |]. apply header_write_agree; lia. }
  all: done.
Qed.

(** A tiling is the image of its slices. *)
Lemma tiles_words (m : M) a sls b :
  tiles m a sls b -> mem_words m (8 * a) (Z.to_nat (2 * (b - a))) = image sls.
Proof.
  induction 1 as [a|a sl sls b Hs T IH]; unfold image in *; simpl.
  - by rewrite Z.sub_diag.
  - pose proof Hs as [Hsz _]. apply tiles_le in T as [? _].
    replace (Z.to_nat (2 * (b - a))) with (Z.to_nat (2 * sl_sz sl) + Z.to_nat (2 * (b - (a + sl_sz sl))))%nat by lia.
    rewrite mem_words_app, Z2Nat.id by lia. apply slice_at_words in Hs as (_ & _ & ->).
    rewrite <- IH. replace (8 * a + 4 * (2 * sl_sz sl)) with (8 * (a + sl_sz sl)) by lia.
    reflexivity.
Qed.
End Words.
