(* ===== verification/Alloc.v ===== *)
(** * The allocator: [bpa_create], [bpa_grab], [bpa_release],
    [bpa_get_ptr], [bpa_get_id] ([src/bpa.c], lines 65-133)

    Pointers returned to the client are byte offsets from [H]; [NULL] is
    [None].  A failed [assert] is [Abort] (the functions are modelled as
    compiled without [NDEBUG], as the demonstration program is).

    The three handle-taking functions start with the same lookup
    ([H->slot[uid % MAX_SLOT]], then the identity check on [*SLICE_ID(s)]);
    [resolve] is that lookup, and [resolve_spec] characterises it on a
    well-formed heap: it finds exactly the slices whose id is [uid].

    The section [Wrap] states what the 32-bit arithmetic of the code does
    beyond the bounds of [heap_repr], on every heap: a carrying
    [H->offset + rsz] in [bpa_create], the slot table kept by [bpa_init],
    and the product [H->offset * ALIGN_SIZE] of [bpa_get_id] at 4 GiB. *)

From Stdlib Require Import ZArith Lia.
From stdpp Require Import base gmap list.
From S2P Require Import Prelude Mem Heap Layout.

Section Ops.
Context {M : Type} {MO : WordMemory M}.

(** The lookup of lines 87-94 (repeated at 101-110 and 117-124):
    the byte offset of the slice of handle [uid], if its id matches. *)
Definition resolve (H : heap M) (uid : Z) : option Z :=
  let off := slot_of H uid in
  if off =? 0 then None
  else
    let s := HEAP_SLICE off in
    if slice_id (h_mem H) s =? uid then Some s else None.

(** [rsz] of line 67: computed in [size_t], then stored in a [pointer_t]. *)
Definition reserved_size (sz : Z) : Z :=
  wrap32 (wrap64 (sz + SIZEOF_SLICE + SIZEOF_ID + ALIGN_SIZE - 1) / ALIGN_SIZE).

(** [bpa_create] (lines 65-83); the handle 0 reports a failure. *)
Definition bpa_create (H : heap M) (sz : Z) : heap M * Z :=
  let rsz := reserved_size sz in
  if h_sz H <? h_offset H ⊞ rsz then (H, 0)
  else
    match alloc_slot H with
    | (H1, None) => (H1, 0)
    | (H1, Some slot) =>
        let cid := h_cid H1 in
        let off := h_offset H1 in
        let H2 := set_offset (off ⊞ rsz) (set_slot slot off H1) in
        let s := HEAP_SLICE off in
        let m := mem_store (h_mem H2) s 0 in
        let m := mem_store m (s + 4) rsz in
        let m := mem_store m (SLICE_ID m s) cid in
        (set_mem m H2, cid)
    end.

(** [bpa_grab] (lines 85-97): pin, and return the payload pointer [s+1]. *)
Definition bpa_grab (H : heap M) (uid : Z) : heap M * option Z :=
  match resolve H uid with
  | None => (H, None)
  | Some s =>
      let m := h_mem H in
      (set_mem (mem_store m s (slice_ref m s + 1)) H, Some (s + SIZEOF_SLICE))
  end.

(** [bpa_release] (lines 99-113): the three [assert]s abort. *)
Definition bpa_release (H : heap M) (uid : Z) : outcome (heap M) :=
  match resolve H uid with
  | None => Abort
  | Some s =>
      let m := h_mem H in
      if 0 <? slice_ref m s then Ok (set_mem (mem_store m s (slice_ref m s - 1)) H)
      else Abort
  end.

(** [bpa_get_ptr] (lines 115-126). *)
Definition bpa_get_ptr (H : heap M) (uid : Z) : option Z :=
  match resolve H uid with
  | None => None
  | Some s => Some (s + SIZEOF_SLICE)
  end.

(** [bpa_get_id] (lines 128-133): the [assert] bounds the pointer by
    [H] and [H + H->offset * ALIGN_SIZE] (a 32-bit product). *)
Definition bpa_get_id (H : heap M) (ptr : Z) : outcome Z :=
  if (0 <? ptr) && (ptr <? h_offset H ⊠ ALIGN_SIZE)
  then Ok (slice_id (h_mem H) (ptr - SIZEOF_SLICE))
  else Abort.
End Ops.

(** ** The lookup on a well-formed heap *)

Lemma ids_at_mid a l1 sl l2 : (a + span l1, sl_id sl) ∈ ids_at a (l1 ++ sl :: l2).
Proof. rewrite ids_at_app. apply elem_of_app. right. simpl. apply elem_of_cons. by left. Qed.

Section Lookup.
Context {M : Type} {MO : WordMemory M} {ML : WordMemoryLaws M}.

(** A slice of a well-formed heap, read through the macros. *)
Lemma repr_slice_read (H : heap M) l1 sl l2 :
  heap_repr H (l1 ++ sl :: l2) ->
  let o := HEAP_HEADER_SIZE + span l1 in
  slice_at (h_mem H) o sl /\ HEAP_SLICE o = 8 * o /\ slice_ref (h_mem H) (8 * o) = sl_ref sl /\
  slice_id (h_mem H) (8 * o) = sl_id sl /\ HEAP_HEADER_SIZE <= o /\ o + sl_sz sl <= h_offset H.
Proof.
  intros (Hb & Hsz & _ & T & _) o.
  destruct (tiles_slice_at _ _ _ _ _ _ T) as [Hsl Hend].
  destruct (proj1 (tiles_app _ _ _ _ _) T) as (c & T1 & _).
  destruct (tiles_le _ _ _ _ T1) as [Hc Hce].
  destruct (slice_at_read _ _ _ Hsl) as (? & ? & _ & _ & ?); [bpa_lia | lia |].
  unfold o. split_and!; auto; lia.
Qed.

(** [resolve] finds exactly the slices whose id is the (nonzero) handle. *)
Lemma resolve_spec (H : heap M) sls uid s :
  heap_repr H sls ->
  resolve H uid = Some s <->
  exists l1 sl l2, sls = l1 ++ sl :: l2 /\ sl_id sl = uid /\ uid <> 0 /\
                   s = 8 * (HEAP_HEADER_SIZE + span l1).
Proof.
  intros Hr. pose proof Hr as (_ & _ & _ & _ & _ & _ & [Hs1 Hs2]).
  unfold resolve, slot_of. split.
  - destruct (Z.eqb_spec (slot_get (h_slot H) (uid mod MAX_SLOT)) 0) as [|Hne]; [done |].
    destruct (Hs2 _ Hne) as (u & Hin & Hu & Hmod).
    destruct (ids_at_elem _ _ _ _ Hin) as (l1 & sl & l2 & -> & Ho & <-).
    destruct (repr_slice_read _ _ _ _ Hr) as (_ & HS & _ & Hid & _).
    rewrite Ho, HS, Hid.
    destruct (Z.eqb_spec (sl_id sl) uid) as [<-|]; [| done].
    intros [= <-]. eauto 10.
  - intros (l1 & sl & l2 & -> & <- & Hu & ->).
    destruct (repr_slice_read _ _ _ _ Hr) as (_ & HS & _ & Hid & Hge & _).
    rewrite (Hs1 _ _ (ids_at_mid _ _ _ _) Hu), HS, Hid, Z.eqb_refl.
    destruct (Z.eqb_spec (HEAP_HEADER_SIZE + span l1) 0); [bpa_lia | done].
Qed.

Lemma resolve_none (H : heap M) sls uid :
  heap_repr H sls ->
  resolve H uid = None <-> (uid = 0 \/ Forall (fun sl => sl_id sl <> uid) sls).
Proof.
  intros Hr. split.
  - intros Hn. destruct (decide (uid = 0)) as [|Hu]; [by left | right].
    apply Forall_forall. intros sl Hin E. apply list_elem_of_In, in_split in Hin as (l1 & l2 & ->).
    assert (resolve H uid = Some (8 * (HEAP_HEADER_SIZE + span l1))) as Hs by
      (apply (resolve_spec _ _ _ _ Hr); eauto 10).
    congruence.
  - intros Hnot. destruct (resolve H uid) as [s|] eqn:E; [| done].
    apply (resolve_spec _ _ _ _ Hr) in E as (l1 & sl & l2 & -> & <- & Hu & _).
    destruct Hnot as [|Hnot]; [done |]. apply Forall_app in Hnot as [_ Hnot].
    inversion Hnot; congruence.
Qed.
End Lookup.

Section AllocProps.
Context {M : Type} {MO : WordMemory M} {ML : WordMemoryLaws M}.

Lemma repr_slice_ok (H : heap M) l1 sl l2 : heap_repr H (l1 ++ sl :: l2) -> slice_ok sl.
Proof.
  intros (_ & _ & _ & _ & _ & Hok & _). apply Forall_app in Hok as [_ Hok]. by inversion Hok.
Qed.

(** Handles are unique: two slices with the same nonzero id are the same slice. *)
Lemma repr_id_unique (H : heap M) l1 sl l2 l1' sl' l2' :
  heap_repr H (l1 ++ sl :: l2) -> l1 ++ sl :: l2 = l1' ++ sl' :: l2' ->
  sl_id sl = sl_id sl' -> sl_id sl <> 0 -> l1 = l1' /\ sl = sl' /\ l2 = l2'.
Proof.
  intros Hr E Hid Hnz. pose proof Hr as (_ & _ & _ & T & _ & _ & Hsl).
  assert (Ho : HEAP_HEADER_SIZE + span l1 = HEAP_HEADER_SIZE + span l1').
  { eapply (slots_ok_unique _ _ _ (sl_id sl) _ (sl_id sl')); [exact Hsl | apply ids_at_mid | |
      done | congruence | by rewrite Hid].
    rewrite E. apply ids_at_mid. }
  apply (span_prefix_inj _ _ _ _ _ _); [| done | lia].
  eapply Forall_impl; [apply (tiles_sizes _ _ _ _ T) |]. simpl. lia.
Qed.

Lemma resolve_mid (H : heap M) l1 sl l2 :
  heap_repr H (l1 ++ sl :: l2) -> sl_id sl <> 0 ->
  resolve H (sl_id sl) = Some (8 * (HEAP_HEADER_SIZE + span l1)).
Proof. intros Hr ?. apply (resolve_spec _ _ _ _ Hr). eauto 10. Qed.

Lemma grab_spec (H : heap M) l1 sl l2 :
  heap_repr H (l1 ++ sl :: l2) -> sl_id sl <> 0 ->
  exists H', bpa_grab H (sl_id sl) = (H', Some (8 * (HEAP_HEADER_SIZE + span l1) + SIZEOF_SLICE)) /\
             heap_repr H' (l1 ++ with_ref sl (sl_ref sl + 1) :: l2).
Proof.
  intros Hr Hid. unfold bpa_grab. rewrite (resolve_mid _ _ _ _ Hr Hid).
  destruct (repr_slice_read _ _ _ _ Hr) as (_ & _ & Href & _). rewrite Href.
  eexists. split; [reflexivity |]. apply heap_repr_store_ref; [done |].
  destruct (repr_slice_ok _ _ _ _ Hr) as (? & ? & ?). unfold slice_ok; simpl. lia.
Qed.

(** C14: [bpa_grab] of a live handle pins its slice: the pin count goes up by
    one, nothing else of the abstract heap changes, and the returned
    pointer is the payload, just after the slice header. *)
Theorem bpa_grab_pins (H : heap M) l1 sl l2 :
  heap_repr H (l1 ++ sl :: l2) -> sl_id sl <> 0 ->
  exists H', bpa_grab H (sl_id sl) = (H', Some (8 * (HEAP_HEADER_SIZE + span l1) + SIZEOF_SLICE)) /\
             heap_repr H' (l1 ++ with_ref sl (sl_ref sl + 1) :: l2).
Proof. apply grab_spec. Qed.

(** C27: [bpa_grab] of a handle that no slice carries (or of 0) is a miss and
    changes nothing. *)
Theorem bpa_grab_miss (H : heap M) sls uid :
  heap_repr H sls -> (uid = 0 \/ Forall (fun sl => sl_id sl <> uid) sls) ->
  bpa_grab H uid = (H, None).
Proof. intros Hr Hn. unfold bpa_grab. by rewrite (proj2 (resolve_none _ _ _ Hr) Hn). Qed.

(** C15: [bpa_release] of a pinned handle drops its pin count by one. *)
Theorem bpa_release_unpins (H : heap M) l1 sl l2 :
  heap_repr H (l1 ++ sl :: l2) -> sl_id sl <> 0 -> 0 < sl_ref sl ->
  exists H', bpa_release H (sl_id sl) = Ok H' /\
             heap_repr H' (l1 ++ with_ref sl (sl_ref sl - 1) :: l2).
Proof.
  intros Hr Hid Hpos. unfold bpa_release. rewrite (resolve_mid _ _ _ _ Hr Hid).
  destruct (repr_slice_read _ _ _ _ Hr) as (_ & _ & Href & _). rewrite Href.
  destruct (Z.ltb_spec 0 (sl_ref sl)); [| lia].
  eexists. split; [reflexivity |]. apply heap_repr_store_ref; [done |].
  destruct (repr_slice_ok _ _ _ _ Hr) as (? & ? & ?). unfold slice_ok; simpl. lia.
Qed.

(** C18: [bpa_release] aborts on the contract violations of the spec: an
    unknown handle, or a handle whose pin count is already 0. *)
Theorem bpa_release_aborts (H : heap M) sls uid :
  heap_repr H sls ->
  (uid = 0 \/ Forall (fun sl => sl_id sl <> uid) sls \/
   exists l1 sl l2, sls = l1 ++ sl :: l2 /\ sl_id sl = uid /\ sl_ref sl = 0) ->
  bpa_release H uid = Abort.
Proof.
  intros Hr Hcase. unfold bpa_release.
  destruct (resolve H uid) as [s|] eqn:E; [| done].
  destruct Hcase as [Hc | [Hc | (l1 & sl & l2 & -> & <- & Hz)]].
  - assert (resolve H uid = None) by (apply (resolve_none _ _ _ Hr); auto). congruence.
  - assert (resolve H uid = None) by (apply (resolve_none _ _ _ Hr); auto). congruence.
  - apply (resolve_spec _ _ _ _ Hr) in E as (l1' & sl' & l2' & E & Hid & Hnz & ->).
    destruct (repr_id_unique _ _ _ _ _ _ _ Hr E (eq_sym Hid) ltac:(congruence))
      as (<- & <- & <-).
    destruct (repr_slice_read _ _ _ _ Hr) as (_ & _ & Href & _). rewrite Href, Hz. done.
Qed.

(** C19: Round trip: the id read back through a pointer from [bpa_get_ptr] is
    the handle ([assert(bpa_get_id(H, bpa_get_ptr(H, id)) == id)] of the
    demonstration program), as long as the region stays below 4 GiB. *)
Theorem bpa_get_id_get_ptr (H : heap M) sls uid p :
  heap_repr H sls -> h_offset H < 2 ^ 29 -> bpa_get_ptr H uid = Some p ->
  bpa_get_id H p = Ok uid.
Proof.
  intros Hr Hlt. unfold bpa_get_ptr. destruct (resolve H uid) as [s|] eqn:E; [| done].
  intros [= <-]. apply (resolve_spec _ _ _ _ Hr) in E as (l1 & sl & l2 & -> & <- & _ & ->).
  destruct (repr_slice_read _ _ _ _ Hr) as ((Hsz & _) & _ & _ & Hid & Hge & Hend).
  unfold bpa_get_id, SIZEOF_SLICE. rewrite Z.add_simpl_r, Hid.
  assert (Hw : h_offset H ⊠ ALIGN_SIZE = 8 * h_offset H) by bpa_lia. rewrite Hw.
  destruct (Z.ltb_spec 0 (8 * (HEAP_HEADER_SIZE + span l1) + 8)); [| bpa_lia].
  destruct (Z.ltb_spec (8 * (HEAP_HEADER_SIZE + span l1) + 8) (8 * h_offset H)); [done | lia].
Qed.

(** ** [bpa_create] *)

(** Below 2^34 bytes the reserved size is the rounded-up unit count of
    the payload plus 12 bytes of header and id, with no wrap-around. *)
Lemma reserved_size_small sz :
  0 <= sz < 2 ^ 34 -> reserved_size sz = (sz + 19) / 8 /\ 2 <= (sz + 19) / 8 <= 2 ^ 31 + 3.
Proof.
  intros. unfold reserved_size. bpa_consts. unfold SIZEOF_SLICE, SIZEOF_ID.
  pose proof (Z_div_mod_eq_full (sz + 19) 8). pose proof (Z.mod_pos_bound (sz + 19) 8).
  replace (sz + 8 + 4 + 8 - 1) with (sz + 19) by lia.
  rewrite wrap64_small, wrap32_small by zlia. split; [done | zlia].
Qed.

Lemma heap_repr_set_cid (H : heap M) sls c :
  heap_repr H sls -> 0 <= c < 2 ^ 32 -> heap_repr (set_cid c H) sls.
Proof. intros (? & ? & _ & ?) ?. unfold heap_repr; simpl. auto. Qed.

(** The stores of lines 78-80 are a [header_write] at the old bump pointer. *)
Lemma create_mem_eq (m : M) o r c :
  0 < o -> 2 <= r -> o + r <= 2 ^ 29 ->
  mem_store (mem_store (mem_store m (HEAP_SLICE o) 0) (HEAP_SLICE o + 4) r)
    (SLICE_ID (mem_store (mem_store m (HEAP_SLICE o) 0) (HEAP_SLICE o + 4) r) (HEAP_SLICE o)) c
  = header_write m o 0 r c.
Proof.
  intros. rewrite HEAP_SLICE_small by lia. unfold SLICE_ID, slice_sz, header_write.
  rewrite load_store_eq. f_equal. bpa_lia.
Qed.

(** The successful branch of [bpa_create] (lines 66-83). *)
Lemma create_spec (H : heap M) sls sz H' h :
  heap_repr H sls -> 0 <= sz < 2 ^ 34 -> bpa_create H sz = (H', h) -> h <> 0 ->
  h_offset H' = h_offset H + reserved_size sz /\ Forall (fun sl => sl_id sl <> h) sls /\
  exists body, heap_repr H' (sls ++ [mk_slice 0 (reserved_size sz) body h]).
Proof.
  intros Hr Hsz E Hh. pose proof Hr as (Hoff & H29 & Hcid & T & Hcol & Hok & Hsl).
  destruct (reserved_size_small sz Hsz) as [Er Hrsz]. rewrite <- Er in Hrsz.
  set (r := reserved_size sz) in *. unfold bpa_create in E. cbv zeta in E. fold r in E.
  rewrite (wrap32_small (h_offset H + r)) in E by zlia.
  destruct (Z.ltb_spec (h_sz H) (h_offset H + r)); [injection E; congruence |].
  destruct (alloc_slot H) as [H1 [slot|]] eqn:A; [| injection E; congruence].
  apply alloc_slot_sound in A as (Hslot & Hfree & Hc1 & EH1).
  remember (h_cid H1) as c eqn:Ec. subst H1.
  cbn [h_cid h_offset h_mem h_slot h_sz h_collect set_cid set_offset set_slot] in E.
  injection E as <- <-. destruct (tiles_le _ _ _ _ T) as [_ Ho].
  rewrite create_mem_eq by bpa_lia.
  assert (Hids : forall o' u, (o', u) ∈ ids_at HEAP_HEADER_SIZE sls -> 0 < o').
  { intros o' u Hin. apply (ids_at_tiles_ge _ _ _ _ _ _ T) in Hin. bpa_lia. }
  destruct (slots_ok_insert_new _ _ c (h_offset H) Hsl ltac:(by rewrite <- Hslot) Hh
    ltac:(bpa_lia) Hids) as [Hsl' Hfresh].
  split; [simpl; bpa_lia |]. split.
  { apply Forall_forall. intros sl Hin. destruct (ids_at_in HEAP_HEADER_SIZE _ _ Hin) as [o' Ho'].
    eauto. }
  eexists. unfold heap_repr; simpl. rewrite wrap32_small by zlia.
  split; [lia |]. split; [done |]. split; [lia |]. split; [| split; [| split]].
  - eapply tiles_snoc; [| apply header_write_slice_at; lia | done].
    eapply tiles_frame; [exact T |]. apply header_write_agree; lia.
  - intros Hc0. by apply boundary_app, Hcol.
  - apply Forall_app. split; [done |]. constructor; [| constructor].
    unfold slice_ok; simpl. lia.
  - rewrite ids_at_app. simpl. rewrite <- Ho, Hslot. exact Hsl'.
Qed.

(** C12: [bpa_create] within capacity appends a fresh slice with pin count 0
    at the old bump pointer, registers a handle that no other slice
    carries, and advances the bump pointer by the reserved size. *)
Theorem bpa_create_ok (H : heap M) sls sz H' h :
  heap_repr H sls -> 0 <= sz < 2 ^ 34 -> bpa_create H sz = (H', h) -> h <> 0 ->
  h_offset H' = h_offset H + reserved_size sz /\ Forall (fun sl => sl_id sl <> h) sls /\
  exists body, heap_repr H' (sls ++ [mk_slice 0 (reserved_size sz) body h]).
Proof. apply create_spec. Qed.

(** C28: [bpa_create] beyond capacity returns the sentinel 0 and leaves the
    heap untouched (no handle is consumed). *)
Theorem bpa_create_no_space (H : heap M) sls sz :
  heap_repr H sls -> 0 <= sz < 2 ^ 34 -> h_sz H < h_offset H + reserved_size sz ->
  bpa_create H sz = (H, 0).
Proof.
  intros (? & ? & _) Hsz Hlt. destruct (reserved_size_small sz Hsz) as [Er Hrsz].
  unfold bpa_create. rewrite wrap32_small by zlia.
  destruct (Z.ltb_spec (h_sz H) (h_offset H + reserved_size sz)); [done | lia].
Qed.

(** A failed [bpa_create] keeps the abstract heap (it may have advanced
    [H->cid] while probing). *)
Lemma bpa_create_fail (H : heap M) sls sz H' :
  heap_repr H sls -> bpa_create H sz = (H', 0) -> heap_repr H' sls.
Proof.
  intros Hr E. unfold bpa_create in E. cbv zeta in E.
  destruct (_ <? _); [by injection E as <- |].
  destruct (alloc_slot H) as [H1 [slot|]] eqn:A.
  - apply alloc_slot_sound in A as (_ & _ & Hc & _). injection E as _ E. lia.
  - injection E as <-. pose proof Hr as (_ & _ & Hc & _).
    pose proof (alloc_slot_cid_range H Hc) as [Hc' E]. rewrite A in Hc', E. simpl in *.
    rewrite E. by apply heap_repr_set_cid.
Qed.

Lemma create_keeps_inv (H : heap M) sz :
  heap_inv H -> 0 <= sz < 2 ^ 34 -> heap_inv (fst (bpa_create H sz)).
Proof.
  intros [sls Hr] Hsz. destruct (bpa_create H sz) as [H' h] eqn:E. simpl.
  destruct (decide (h = 0)) as [->|Hh].
  - exists sls. by eapply bpa_create_fail.
  - destruct (create_spec _ _ _ _ _ Hr Hsz E Hh) as (_ & _ & body & Hr'). by eexists.
Qed.

(** C13: [bpa_create] preserves the heap invariant on every branch. *)
Theorem bpa_create_inv (H : heap M) sz :
  heap_inv H -> 0 <= sz < 2 ^ 34 -> heap_inv (fst (bpa_create H sz)).
Proof. apply create_keeps_inv. Qed.

(** [bpa_create] never touches the sweep cursor. *)
Lemma create_collect (H : heap M) sz : h_collect (fst (bpa_create H sz)) = h_collect H.
Proof.
  unfold bpa_create. destruct (_ <? _); [done |].
  destruct (alloc_slot H) as [H1 r] eqn:A. pose proof (alloc_slot_frame H) as F.
  rewrite A in F. simpl in F. destruct r; rewrite F; reflexivity.
Qed.

(** [bpa_grab] and [bpa_release] keep the invariant, hit or miss. *)
Lemma grab_keeps_inv (H : heap M) uid : heap_inv H -> heap_inv (fst (bpa_grab H uid)).
Proof.
  intros [sls Hr]. unfold bpa_grab. destruct (resolve H uid) as [s|] eqn:E; [| by exists sls].
  apply (resolve_spec _ _ _ _ Hr) in E as (l1 & sl & l2 & -> & <- & Hnz & ->).
  destruct (repr_slice_read _ _ _ _ Hr) as (_ & _ & Href & _). simpl. rewrite Href.
  eexists. apply heap_repr_store_ref; [done |].
  destruct (repr_slice_ok _ _ _ _ Hr) as (? & ? & ?). unfold slice_ok; simpl. lia.
Qed.

Lemma release_keeps_inv (H H' : heap M) uid :
  heap_inv H -> bpa_release H uid = Ok H' -> heap_inv H'.
Proof.
  intros [sls Hr]. unfold bpa_release. destruct (resolve H uid) as [s|] eqn:E; [| done].
  apply (resolve_spec _ _ _ _ Hr) in E as (l1 & sl & l2 & -> & <- & Hnz & ->).
  destruct (repr_slice_read _ _ _ _ Hr) as (_ & _ & Href & _). rewrite Href.
  destruct (Z.ltb_spec 0 (sl_ref sl)); [intros [= <-] | done].
  eexists. apply heap_repr_store_ref; [done |].
  destruct (repr_slice_ok _ _ _ _ Hr) as (? & ? & ?). unfold slice_ok; simpl. lia.
Qed.
End AllocProps.

(** ** What the 32-bit arithmetic of the code does beyond its bounds *)

Section Wrap.
Context {M : Type} {MO : WordMemory M} {ML : WordMemoryLaws M}.

(** [resolve] reads only the slot table and the buffer. *)
Lemma resolve_frame (H H' : heap M) uid :
  h_slot H' = h_slot H -> h_mem H' = h_mem H -> resolve H' uid = resolve H uid.
Proof. intros Hs Hm. unfold resolve, slot_of. by rewrite Hs, Hm. Qed.

(** The payload pointer of a slice of a well-formed heap. *)
Lemma get_ptr_mid (H : heap M) l1 sl l2 :
  heap_repr H (l1 ++ sl :: l2) -> sl_id sl <> 0 ->
  bpa_get_ptr H (sl_id sl) = Some (8 * (HEAP_HEADER_SIZE + span l1) + SIZEOF_SLICE).
Proof. intros Hr Hid. unfold bpa_get_ptr. by rewrite (resolve_mid _ _ _ _ Hr Hid). Qed.

(** C31: [rsz] and [H->offset + rsz] are 32-bit values: when the sum
    carries, the capacity test of line 68 compares [H->sz] with the
    wrapped sum, the creation succeeds (if a slot is free), and the bump
    pointer moves backwards by [2^32 - rsz] units. *)
Theorem bpa_create_size_wraps (H : heap M) sz :
  0 <= h_offset H < 2 ^ 32 -> 2 ^ 32 <= h_offset H + reserved_size sz ->
  h_offset H + reserved_size sz - 2 ^ 32 <= h_sz H -> snd (alloc_slot H) <> None ->
  snd (bpa_create H sz) <> 0 /\
  h_offset (fst (bpa_create H sz)) = h_offset H + reserved_size sz - 2 ^ 32 /\
  h_offset (fst (bpa_create H sz)) < h_offset H.
Proof.
  intros Ho Hc Hsz Ha. pose proof (wrap32_range (wrap64 (sz + SIZEOF_SLICE + SIZEOF_ID + ALIGN_SIZE - 1) / ALIGN_SIZE)) as Hr.
  fold (reserved_size sz) in Hr. unfold bpa_create. rewrite wrap32_carry by lia.
  destruct (Z.ltb_spec (h_sz H) (h_offset H + reserved_size sz - 2 ^ 32)); [lia |].
  destruct (alloc_slot H) as [H1 [slot|]] eqn:A; [| done].
  apply alloc_slot_sound in A as (_ & _ & Hc1 & EH1). rewrite EH1. cbn.
  rewrite wrap32_carry by lia. split_and!; lia.
Qed.

(** C32: [bpa_init] keeps the slot table the buffer had: in a heap
    re-initialised over a well-formed one, every handle of the old heap
    still resolves ([bpa_get_ptr] returns its old payload pointer) while
    the new heap is empty, and [bpa_get_id] aborts on that pointer. *)
Theorem bpa_init_keeps_stale_handles (H : heap M) l1 sl l2 size H2 :
  heap_repr H (l1 ++ sl :: l2) -> sl_id sl <> 0 ->
  bpa_init (h_slot H) (h_mem H) size = Some H2 ->
  h_offset H2 = HEAP_HEADER_SIZE /\
  bpa_get_ptr H2 (sl_id sl) = Some (8 * (HEAP_HEADER_SIZE + span l1) + SIZEOF_SLICE) /\
  bpa_get_id H2 (8 * (HEAP_HEADER_SIZE + span l1) + SIZEOF_SLICE) = Abort.
Proof.
  intros Hr Hid Hi. unfold bpa_init in Hi.
  destruct (negb _); [done |]. destruct (_ <=? _); [done |]. injection Hi as <-.
  destruct (repr_slice_read _ _ _ _ Hr) as (_ & _ & _ & _ & Hge & _).
  split; [done | split].
  - unfold bpa_get_ptr. rewrite (resolve_frame H) by done. by rewrite (resolve_mid _ _ _ _ Hr Hid).
  - unfold bpa_get_id; cbn [h_offset].
    destruct (Z.ltb_spec (8 * (HEAP_HEADER_SIZE + span l1) + SIZEOF_SLICE) (HEAP_HEADER_SIZE ⊠ ALIGN_SIZE));
      [bpa_lia | by rewrite andb_false_r].
Qed.

(** C34: A well-formed heap filled to 4 GiB ([H->offset = 2^29] units):
    [H->offset * ALIGN_SIZE] wraps to 0 and [bpa_get_id] aborts on the
    pointer [bpa_get_ptr] returns for any live handle, the assertion of
    the demonstration program failing where [bpa_get_id_get_ptr] needs
    [H->offset < 2^29]. *)
Theorem bpa_get_id_full_4GiB (H : heap M) l1 sl l2 :
  heap_repr H (l1 ++ sl :: l2) -> sl_id sl <> 0 -> h_offset H = 2 ^ 29 ->
  bpa_get_ptr H (sl_id sl) = Some (8 * (HEAP_HEADER_SIZE + span l1) + SIZEOF_SLICE) /\
  bpa_get_id H (8 * (HEAP_HEADER_SIZE + span l1) + SIZEOF_SLICE) = Abort.
Proof.
  intros Hr Hid Ho. split; [exact (get_ptr_mid _ _ _ _ Hr Hid) |].
  unfold bpa_get_id. rewrite Ho. replace (2 ^ 29 ⊠ ALIGN_SIZE) with 0 by reflexivity.
  destruct (Z.ltb_spec (8 * (HEAP_HEADER_SIZE + span l1) + SIZEOF_SLICE) 0); [| by rewrite andb_false_r].
  destruct (repr_slice_read _ _ _ _ Hr) as (_ & _ & _ & _ & Hge & _). bpa_lia.
Qed.
End Wrap.

(** ** Concrete heaps and instances of the theorems

A 1 MiB buffer as the demonstration program uses, with one object of
100 bytes: 14 units, handle 1, payload never written. *)

Definition ex_heap0 : heap gmem := mk_heap 131072 HEAP_HEADER_SIZE 0 0 ∅ ∅.
Definition ex_slice : slice := mk_slice 0 14 (repeat 0 25) 1.
Definition ex_heap1 : heap gmem := fst (bpa_create ex_heap0 100).
Definition ex_heap2 : heap gmem := fst (bpa_grab ex_heap1 1).

Lemma bpa_init_empty_witness :
  bpa_init (∅ : gmap Z Z) (∅ : gmem) (2 ^ 20) = Some ex_heap0 /\ heap_repr ex_heap0 [].
Proof.
  split; [reflexivity |].
  apply (bpa_init_empty ∅ ∅ (2 ^ 20)); [reflexivity | lia | intros; reflexivity].
Defined.

Lemma bpa_init_fails_witness : bpa_init (∅ : gmap Z Z) (∅ : gmem) 1000 = None.
Proof. apply bpa_init_fails; [lia | left; vm_compute; discriminate]. Defined.

Lemma bpa_create_ok_witness :
  heap_repr ex_heap0 [] /\ bpa_create ex_heap0 100 = (ex_heap1, 1) /\
  (h_offset ex_heap1 = h_offset ex_heap0 + reserved_size 100 /\ Forall (fun sl => sl_id sl <> 1) [] /\
   exists body, heap_repr ex_heap1 ([] ++ [mk_slice 0 (reserved_size 100) body 1])).
Proof.
  assert (Hr : heap_repr ex_heap0 []) by repr_by_compute.
  assert (E : bpa_create ex_heap0 100 = (ex_heap1, 1)) by (vm_compute; reflexivity).
  split; [done | split; [done |]].
  apply (bpa_create_ok ex_heap0 [] 100 ex_heap1 1 Hr); [lia | exact E | lia].
Defined.

Lemma bpa_create_no_space_witness :
  heap_repr ex_heap0 [] /\ bpa_create ex_heap0 (2 ^ 21) = (ex_heap0, 0).
Proof.
  assert (Hr : heap_repr ex_heap0 []) by repr_by_compute.
  split; [done |]. apply (bpa_create_no_space ex_heap0 [] (2 ^ 21) Hr); [lia | vm_compute; reflexivity].
Defined.

Lemma bpa_create_inv_witness : heap_inv ex_heap0 /\ heap_inv (fst (bpa_create ex_heap0 100)).
Proof.
  assert (Hi : heap_inv ex_heap0) by (exists []; repr_by_compute).
  split; [done |]. apply (bpa_create_inv ex_heap0 100 Hi). lia.
Defined.

Lemma bpa_grab_pins_witness :
  heap_repr ex_heap1 ([] ++ ex_slice :: []) /\
  exists H', bpa_grab ex_heap1 (sl_id ex_slice) =
               (H', Some (8 * (HEAP_HEADER_SIZE + span []) + SIZEOF_SLICE)) /\
             heap_repr H' ([] ++ with_ref ex_slice (sl_ref ex_slice + 1) :: []).
Proof.
  assert (Hr : heap_repr ex_heap1 ([] ++ ex_slice :: [])) by repr_by_compute.
  split; [done |]. apply (bpa_grab_pins ex_heap1 [] ex_slice [] Hr). discriminate.
Defined.

Lemma bpa_grab_miss_witness : heap_repr ex_heap1 [ex_slice] /\ bpa_grab ex_heap1 2 = (ex_heap1, None).
Proof.
  assert (Hr : heap_repr ex_heap1 [ex_slice]) by repr_by_compute.
  split; [done |]. apply (bpa_grab_miss ex_heap1 [ex_slice] 2 Hr).
  right. repeat constructor. discriminate.
Defined.

Lemma bpa_release_unpins_witness :
  heap_repr ex_heap2 ([] ++ with_ref ex_slice 1 :: []) /\
  exists H', bpa_release ex_heap2 1 = Ok H' /\
             heap_repr H' ([] ++ with_ref (with_ref ex_slice 1) (1 - 1) :: []).
Proof.
  assert (Hr : heap_repr ex_heap2 ([] ++ with_ref ex_slice 1 :: [])) by repr_by_compute.
  split; [done |]. apply (bpa_release_unpins ex_heap2 [] (with_ref ex_slice 1) [] Hr);
    simpl; lia.
Defined.

Lemma bpa_release_aborts_witness : heap_repr ex_heap1 [ex_slice] /\ bpa_release ex_heap1 1 = Abort.
Proof.
  assert (Hr : heap_repr ex_heap1 [ex_slice]) by repr_by_compute.
  split; [done |]. apply (bpa_release_aborts ex_heap1 [ex_slice] 1 Hr).
  right; right. exists [], ex_slice, []. split_and!; reflexivity.
Defined.

Lemma bpa_get_id_get_ptr_witness :
  heap_repr ex_heap1 [ex_slice] /\ bpa_get_ptr ex_heap1 1 = Some 262168 /\
  bpa_get_id ex_heap1 262168 = Ok 1.
Proof.
  assert (Hr : heap_repr ex_heap1 [ex_slice]) by repr_by_compute.
  assert (Hp : bpa_get_ptr ex_heap1 1 = Some 262168) by (vm_compute; reflexivity).
  split; [done | split; [done |]].
  apply (bpa_get_id_get_ptr ex_heap1 [ex_slice] 1 262168 Hr); [vm_compute; reflexivity | exact Hp].
Defined.

Lemma bpa_create_size_wraps_witness :
  0 <= h_offset ex_heap0 < 2 ^ 32 /\ 2 ^ 32 <= h_offset ex_heap0 + reserved_size (8 * (2 ^ 32 - 1) - 19) /\
  h_offset ex_heap0 + reserved_size (8 * (2 ^ 32 - 1) - 19) - 2 ^ 32 <= h_sz ex_heap0 /\
  snd (alloc_slot ex_heap0) <> None /\
  h_offset (fst (bpa_create ex_heap0 (8 * (2 ^ 32 - 1) - 19))) < HEAP_HEADER_SIZE /\
  (snd (bpa_create ex_heap0 (8 * (2 ^ 32 - 1) - 19)) <> 0 /\
   h_offset (fst (bpa_create ex_heap0 (8 * (2 ^ 32 - 1) - 19))) =
     h_offset ex_heap0 + reserved_size (8 * (2 ^ 32 - 1) - 19) - 2 ^ 32 /\
   h_offset (fst (bpa_create ex_heap0 (8 * (2 ^ 32 - 1) - 19))) < h_offset ex_heap0).
Proof.
  assert (Ho : 0 <= h_offset ex_heap0 < 2 ^ 32) by (unfold ex_heap0; simpl; bpa_lia).
  assert (Hc : 2 ^ 32 <= h_offset ex_heap0 + reserved_size (8 * (2 ^ 32 - 1) - 19))
    by (apply Z.leb_le; vm_compute; reflexivity).
  assert (Hs : h_offset ex_heap0 + reserved_size (8 * (2 ^ 32 - 1) - 19) - 2 ^ 32 <= h_sz ex_heap0)
    by (apply Z.leb_le; vm_compute; reflexivity).
  assert (Ha : snd (alloc_slot ex_heap0) <> None) by (vm_compute; discriminate).
  assert (Hb : h_offset (fst (bpa_create ex_heap0 (8 * (2 ^ 32 - 1) - 19))) < HEAP_HEADER_SIZE)
    by (apply Z.ltb_lt; vm_compute; reflexivity).
  split; [exact Ho | split; [exact Hc | split; [exact Hs | split; [exact Ha | split; [exact Hb |]]]]].
  exact (bpa_create_size_wraps ex_heap0 (8 * (2 ^ 32 - 1) - 19) Ho Hc Hs Ha).
Defined.

(** The buffer of [ex_heap1] initialised again. *)
Definition ex_reinit : heap gmem := mk_heap 131072 HEAP_HEADER_SIZE 0 0 (h_slot ex_heap1) (h_mem ex_heap1).

Lemma bpa_init_keeps_stale_handles_witness :
  heap_repr ex_heap1 ([] ++ ex_slice :: []) /\ sl_id ex_slice <> 0 /\
  bpa_init (h_slot ex_heap1) (h_mem ex_heap1) (2 ^ 20) = Some ex_reinit /\
  (h_offset ex_reinit = HEAP_HEADER_SIZE /\
   bpa_get_ptr ex_reinit (sl_id ex_slice) = Some (8 * (HEAP_HEADER_SIZE + span []) + SIZEOF_SLICE) /\
   bpa_get_id ex_reinit (8 * (HEAP_HEADER_SIZE + span []) + SIZEOF_SLICE) = Abort).
Proof.
  assert (Hr : heap_repr ex_heap1 ([] ++ ex_slice :: [])) by repr_by_compute.
  assert (Hid : sl_id ex_slice <> 0) by discriminate.
  assert (Hi : bpa_init (h_slot ex_heap1) (h_mem ex_heap1) (2 ^ 20) = Some ex_reinit) by reflexivity.
  split; [exact Hr | split; [exact Hid | split; [exact Hi |]]].
  exact (bpa_init_keeps_stale_handles ex_heap1 [] ex_slice [] (2 ^ 20) ex_reinit Hr Hid Hi).
Defined.

(** A 4 GiB buffer, and one object that fills it. *)
Definition ex_big0 : heap gmem := mk_heap (2 ^ 29) HEAP_HEADER_SIZE 0 0 ∅ ∅.
Definition ex_fill_size : Z := 8 * (2 ^ 29 - HEAP_HEADER_SIZE) - 19.
Definition ex_full : heap gmem := fst (bpa_create ex_big0 ex_fill_size).

Lemma bpa_get_id_full_4GiB_witness :
  exists body, let sl := mk_slice 0 (reserved_size ex_fill_size) body 1 in
  heap_repr ex_full ([] ++ sl :: []) /\ sl_id sl <> 0 /\ h_offset ex_full = 2 ^ 29 /\
  (bpa_get_ptr ex_full (sl_id sl) = Some (8 * (HEAP_HEADER_SIZE + span []) + SIZEOF_SLICE) /\
   bpa_get_id ex_full (8 * (HEAP_HEADER_SIZE + span []) + SIZEOF_SLICE) = Abort).
Proof.
  assert (Hr0 : heap_repr ex_big0 []).
  { apply (bpa_init_empty (∅ : gmap Z Z) (∅ : gmem) (2 ^ 32)); [reflexivity | lia | intros; reflexivity]. }
  assert (Hsz : 0 <= ex_fill_size < 2 ^ 34) by (unfold ex_fill_size; bpa_lia).
  assert (E : bpa_create ex_big0 ex_fill_size = (ex_full, 1)) by (vm_compute; reflexivity).
  destruct (bpa_create_ok ex_big0 [] ex_fill_size ex_full 1 Hr0 Hsz E ltac:(discriminate))
    as (Ho & _ & body & Hr).
  exists body. cbv zeta. simpl app in Hr.
  assert (Hid : sl_id (mk_slice 0 (reserved_size ex_fill_size) body 1) <> 0) by discriminate.
  assert (Ho' : h_offset ex_full = 2 ^ 29) by (rewrite Ho; vm_compute; reflexivity).
  split; [exact Hr | split; [exact Hid | split; [exact Ho' |]]].
  exact (bpa_get_id_full_4GiB ex_full [] _ [] Hr Hid Ho').
Defined.
