(* ===== verification/Dump.v ===== *)
(** * The debug dump [bpa_dump] ([src/bpa.c], lines 198-224)

    [bpa_dump] prints a header line, one line per nonzero slot, and one
    line per slice, walking the region with [offset += s->sz].  The model
    returns the values it prints, in order, as data: [dump_header] for
    [Heap size = %d K , %u used], [dump_slots] for the [slot [%d] offset
    = 0x%x] lines, [dump_walk] for the [slice [%d] offset = 0x%x ref = %d
    sz = %u] lines.  The [while] loop does not terminate on a slice of
    size 0; it gets the fuel [S (offset - HEAP_HEADER_SIZE)], which a
    well-formed heap never exhausts.

    The theorems show that on a well-formed heap the dump is exact: the
    slice lines are the abstract view, in order, and the slot lines are
    exactly the handles of the slices that carry one. *)

From Stdlib Require Import ZArith Lia.
From stdpp Require Import base gmap list.
From S2P Require Import Prelude Mem Heap Layout Relocate Alloc.

(** A [slice] line: id, unit offset, pin count, size in bytes. *)
Definition dump_line : Type := Z * Z * Z * Z.

Section Dump.
Context {M : Type} {MO : WordMemory M}.

(** [H->sz * 8 / 1024] and [H->offset * 8], unsigned. *)
Definition dump_header (H : heap M) : Z * Z := ((h_sz H ⊠ 8) / 1024, h_offset H ⊠ 8).

(** The [for (i=0;i<MAX_SLOT;i++)] loop over the slot table. *)
Definition dump_slots (H : heap M) : list (Z * Z) :=
  List.filter (fun '(_, pt) => negb (pt =? 0))
    (map (fun i => (Z.of_nat i, slot_get (h_slot H) (Z.of_nat i))) (seq 0 (Z.to_nat MAX_SLOT))).

(** The [while (offset < H->offset)] walk. *)
Fixpoint dump_walk (fuel : nat) (H : heap M) (offset : Z) : list dump_line :=
  match fuel with
  | O => []
  | S fuel =>
      if offset <? h_offset H then
        let m := h_mem H in
        let s := HEAP_SLICE offset in
        (slice_id m s, offset, slice_ref m s, slice_sz m s ⊠ 8)
          :: dump_walk fuel H (offset ⊞ slice_sz m s)
      else []
  end.

Definition dump_fuel (H : heap M) : nat := S (Z.to_nat (h_offset H - HEAP_HEADER_SIZE)).

Definition bpa_dump (H : heap M) : (Z * Z) * list (Z * Z) * list dump_line :=
  (dump_header H, dump_slots H, dump_walk (dump_fuel H) H HEAP_HEADER_SIZE).
End Dump.

(** The lines the walk should print for slices tiled from [a]. *)
Fixpoint dump_lines (a : Z) (sls : list slice) : list dump_line :=
  match sls with
  | [] => []
  | sl :: r => (sl_id sl, a, sl_ref sl, 8 * sl_sz sl) :: dump_lines (a + sl_sz sl) r
  end.

Section Props.
Context {M : Type} {MO : WordMemory M} {ML : WordMemoryLaws M}.

Lemma dump_walk_tiles fuel (H : heap M) a sls :
  tiles (h_mem H) a sls (h_offset H) -> 0 < a -> h_offset H <= 2 ^ 29 -> (length sls < fuel)%nat ->
  dump_walk fuel H a = dump_lines a sls.
Proof.
  revert fuel a. induction sls as [|sl sls IH]; intros fuel a T Ha Hb Hf;
    (destruct fuel as [|fuel]; [simpl in Hf; lia |]); simpl.
  - apply tiles_le in T as [_ T]. simpl in T. destruct (Z.ltb_spec a (h_offset H)); [lia | done].
  - inversion T as [|? ? ? ? Hsl T']; subst. pose proof (tiles_le _ _ _ _ T') as [? _].
    pose proof Hsl as [? _].
    destruct (slice_at_read _ _ _ Hsl) as (-> & Hr & Hz & _ & Hi); [lia | zlia |].
    destruct (Z.ltb_spec a (h_offset H)); [| lia]. rewrite Hr, Hz, Hi.
    rewrite (wrap32_small (a + sl_sz sl)), (wrap32_small (sl_sz sl * 8)) by zlia.
    rewrite Z.mul_comm, (IH fuel); [done | exact T' | lia | done | simpl in Hf; lia].
Qed.

Lemma elem_of_dump_slots (H : heap M) i pt :
  (i, pt) ∈ dump_slots H <-> 0 <= i < MAX_SLOT /\ pt = slot_get (h_slot H) i /\ pt <> 0.
Proof.
  unfold dump_slots. rewrite list_elem_of_In, filter_In, in_map_iff. split.
  - intros ((n & [= <- <-] & Hn) & Hne). apply in_seq in Hn.
    apply negb_true_iff, Z.eqb_neq in Hne. unfold MAX_SLOT in *. split_and!; [lia | lia | done | done].
  - intros (Hi & -> & Hne). split; [| by apply negb_true_iff, Z.eqb_neq].
    exists (Z.to_nat i). rewrite Z2Nat.id by lia. split; [done |]. apply in_seq. unfold MAX_SLOT in *. lia.
Qed.
End Props.

Section Theorems.
Context {M : Type} {MO : WordMemory M} {ML : WordMemoryLaws M}.

(** C24: On a well-formed heap the walk of [bpa_dump] ends within its fuel
    and prints exactly the slices of the abstract view, in order, each
    with its id, unit offset, pin count and size in bytes. *)
Theorem bpa_dump_slices (H : heap M) sls :
  heap_repr H sls -> snd (bpa_dump H) = dump_lines HEAP_HEADER_SIZE sls.
Proof.
  intros (Hoff & Hsz & _ & T & _).
  change (snd (bpa_dump H)) with (dump_walk (dump_fuel H) H HEAP_HEADER_SIZE).
  apply dump_walk_tiles; [done | zlia | lia |].
  pose proof (span_ge_length _ (tiles_sizes _ _ _ _ T)). apply tiles_le in T as [_ T].
  unfold dump_fuel. lia.
Qed.

(** C25: On a well-formed heap [bpa_dump] prints the slot line [(i, pt)]
    exactly when a slice with a nonzero id [u], [u mod MAX_SLOT = i],
    sits at the unit offset [pt]. *)
Theorem bpa_dump_slots_exact (H : heap M) sls i pt :
  heap_repr H sls ->
  ((i, pt) ∈ snd (fst (bpa_dump H)) <->
   0 <= i < MAX_SLOT /\ exists u, (pt, u) ∈ ids_at HEAP_HEADER_SIZE sls /\ u <> 0 /\ u mod MAX_SLOT = i).
Proof.
  intros (_ & _ & _ & T & _ & _ & [Hs1 Hs2]).
  change (snd (fst (bpa_dump H))) with (dump_slots H). rewrite elem_of_dump_slots. split.
  - intros (Hi & -> & Hne). split; [done |]. by apply Hs2.
  - intros (Hi & u & Hin & Hu & <-). rewrite (Hs1 _ _ Hin Hu).
    pose proof (ids_at_tiles_ge _ _ _ _ _ _ T Hin). split_and!; try done; zlia.
Qed.
End Theorems.

(** ** Instances on the one-object heap of [Alloc] *)

Lemma bpa_dump_slices_witness :
  heap_repr ex_heap1 [ex_slice] /\
  snd (bpa_dump ex_heap1) = dump_lines HEAP_HEADER_SIZE [ex_slice] /\
  snd (bpa_dump ex_heap1) = [(1, 32770, 0, 112)].
Proof.
  assert (Hr : heap_repr ex_heap1 [ex_slice]) by repr_by_compute.
  pose proof (bpa_dump_slices ex_heap1 _ Hr) as E.
  split_and!; [done | exact E | rewrite E; reflexivity].
Defined.

Lemma bpa_dump_slots_exact_witness :
  heap_repr ex_heap1 [ex_slice] /\
  ((1, HEAP_HEADER_SIZE) ∈ snd (fst (bpa_dump ex_heap1)) <->
   0 <= 1 < MAX_SLOT /\ exists u, (HEAP_HEADER_SIZE, u) ∈ ids_at HEAP_HEADER_SIZE [ex_slice] /\
                               u <> 0 /\ u mod MAX_SLOT = 1).
Proof.
  assert (Hr : heap_repr ex_heap1 [ex_slice]) by repr_by_compute.
  split; [done | exact (bpa_dump_slots_exact ex_heap1 _ 1 HEAP_HEADER_SIZE Hr)].
Defined.
