(* ===== verification/Collect.v ===== *)
(** * The incremental compactor: [collect] and [bpa_collect]
    ([src/bpa.c], lines 135-196)

One call of [collect] is an increment of a collection cycle: it scans
slices from the cursor [H->collect], drops the unpinned ones (clearing
their slot), slides the pinned ones down to [dst] with [memmove]
(rewriting their slot), and stops when the scan reaches [H->offset] (the
cycle ends: [H->offset = dst], [H->collect = 0]) or when the work counter
[length] exceeds [COLLECT_STEP_LENGTH] (the cycle pauses at [dst], the gap
[dst, p) becoming a placeholder slice of id 0).

The [for (;;)] loop is [collect_loop] with fuel [S (offset - p)]: each
iteration that does not leave the loop advances [p] by a slice size, at
least 2 units in a well-formed heap, so the fuel never runs out there
([collect_spec] in [CollectLoop]).  The two loops of [bpa_collect] get the fuel
[S (2 (offset - collect))]: an increment that pauses either moves the
cursor up by at least 2 units or, when it only dropped slices, consumed
more than 512 of them, so [span rest + length rest], at most
[3/2 (offset - collect)], decreases at every increment.

The abstract specification of a cycle is [sweep_result done rest =
done ++ live rest]: the slices before the cursor stay, those after it
keep only the pinned ones, in order.  Every increment preserves it,
which makes the result independent of how the cycle is cut into steps. *)

From Stdlib Require Import ZArith Lia.
From stdpp Require Import base gmap list.
From S2P Require Import Prelude Mem Heap Layout Alloc.

Section Ops.
Context {M : Type} {MO : WordMemory M}.

(** Lines 148-155: record the cursor and, over a gap, a placeholder slice
    [ref = 0, sz = p - dst, id = 0]. *)
Definition collect_pause (H : heap M) (p dst : Z) : heap M :=
  let H1 := set_collect dst H in
  if p =? dst then H1
  else
    let s := HEAP_SLICE dst in
    let m := mem_store (h_mem H1) s 0 in
    let m := mem_store m (s + 4) (p ⊟ dst) in
    let m := mem_store m (SLICE_ID m s) 0 in
    set_mem m H1.

(** The [for (;;)] loop of lines 141-174, with the scan pointer [p], the
    destination [dst] and the work counter [length]. *)
Fixpoint collect_loop (fuel : nat) (H : heap M) (p dst len : Z) : outcome (heap M) :=
  match fuel with
  | O => OutOfFuel
  | S fuel =>
      if h_offset H <=? p then Ok (set_collect 0 (set_offset dst H))
      else if COLLECT_STEP_LENGTH <? len then Ok (collect_pause H p dst)
      else
        let m := h_mem H in
        let s := HEAP_SLICE p in
        let sz := slice_sz m s in
        let uid := slice_id m s in
        let len := int_add_u len SIZEOF_SLICE in
        if slice_ref m s =? 0 then
          let H1 := if uid =? 0 then H else set_slot (uid mod MAX_SLOT) 0 H in
          collect_loop fuel H1 (p ⊞ sz) dst len
        else if dst =? p then
          collect_loop fuel H (p ⊞ sz) (dst ⊞ sz) len
        else
          let H1 := set_slot (uid mod MAX_SLOT) dst H in
          let H1 := set_mem (mem_move (h_mem H1) (HEAP_SLICE dst) s (sz ⊠ ALIGN_SIZE)) H1 in
          collect_loop fuel H1 (p ⊞ sz) (dst ⊞ sz) (int_add_u len (sz ⊠ ALIGN_SIZE))
  end.

(** [collect] (lines 135-175): [assert(p)], then the loop from the cursor. *)
Definition collect (H : heap M) : outcome (heap M) :=
  let p := h_collect H in
  if p =? 0 then Abort
  else collect_loop (S (Z.to_nat (h_offset H - p))) H p p 0.

(** [do { collect(H); } while (H->collect != 0)], and the [for] loop of
    line 190 when [step == 0]: increments until the cycle ends. *)
Fixpoint collect_until_idle (fuel : nat) (H : heap M) : outcome (heap M) :=
  match fuel with
  | O => OutOfFuel
  | S fuel =>
      let! H1 := collect H in
      if h_collect H1 =? 0 then Ok H1 else collect_until_idle fuel H1
  end.

(** The [for] loop of line 190 when [step > 0]: at most [n] increments. *)
Fixpoint collect_steps (n : nat) (H : heap M) : outcome (heap M) :=
  match n with
  | O => Ok H
  | S n =>
      let! H1 := collect H in
      if h_collect H1 =? 0 then Ok H1 else collect_steps n H1
  end.

(** Fuel of the [do]/[for] loops that run a cycle to its end: one more
    than twice the units left to scan (see [collect_until_idle_terminates]). *)
Definition idle_fuel (H : heap M) : nat := S (Z.to_nat (2 * (h_offset H - h_collect H))).

(** [bpa_collect] (lines 177-196). *)
Definition bpa_collect (H : heap M) (step : Z) : outcome (heap M) :=
  let! H1 :=
    if (step =? 0) && negb (h_collect H =? 0) then collect_until_idle (idle_fuel H) H
    else Ok H in
  let H2 := if h_collect H1 =? 0 then set_collect HEAP_HEADER_SIZE H1 else H1 in
  if step =? 0 then collect_until_idle (idle_fuel H2) H2
  else collect_steps (Z.to_nat step) H2.
End Ops.

(** What a full cycle leaves: the slices before the cursor, then the
    pinned slices after it. *)
Definition sweep_result (done rest : list slice) : list slice := done ++ live rest.
