(* ===== verification/Scenario.v ===== *)
(** * The demonstration program [src/testbpa.c]

    [main] of [testbpa.c] run on the model: a 1 MiB buffer, four objects
    of 10000, 20000, 30000 and 4000 bytes, the round trip
    [bpa_get_id(H, bpa_get_ptr(H, id)) == id] on the first three, their
    payloads filled with [memset], two of them pinned, one increment of
    collection, then each pinned object released and a full collection.
    The helpers [set_id] and [dump_id] are modelled as they are written:
    [set_id] is the [memset] of the payload, [memset]: [s / 4] words of
    the byte [(unsigned char) v] repeated, then the [s mod 4] low bytes of
    the next word (a little-endian target); [dump_id] returns what it
    prints: the handle, and the first [s] bytes of the payload as the
    [char] values [printf] receives, or [None] for [not exist].
    [bpa_dump] calls are output only (see [Dump]) and are left out of the
    trace.

    [malloc] returns a buffer of unspecified contents; the run assumes a
    zeroed one, as fresh pages are, because [bpa_init] does not clear the
    slot table ([bpa_init_keeps_stale_handles]).

    The heap [main] leaves after its increment of collection,
    [paused_heap], is the instance of the paused-cycle theorem of
    [CollectSpec]; [Payload] proves [set_id] and [dump_id] on every
    well-formed heap. *)

From Stdlib Require Import ZArith Lia.
From stdpp Require Import base gmap list.
From S2P Require Import Prelude Mem Heap Layout Relocate Alloc Collect.

(** [k] words [w] from [a]: the whole words of a [memset]. *)
Fixpoint mem_fill `{WordMemory M} (m : M) (a w : Z) (k : nat) : M :=
  match k with
  | O => m
  | S k => mem_fill (mem_store m a w) (a + 4) w k
  end.

(** The word of four bytes [(unsigned char) v]. *)
Definition memset_word (v : Z) : Z := (v mod 256) * 16843009.

(** The word [old] with its [r] low bytes (the first [r] in memory) taken
    from [w]. *)
Definition byte_merge (old w r : Z) : Z :=
  Z.lor (Z.land old (Z.lnot (Z.ones (8 * r)))) (Z.land w (Z.ones (8 * r))).

(** [memset(buf, v, s)] (line 10) at a word-aligned [a]: [s / 4] whole
    words, then the [s mod 4] bytes that start the next word. *)
Definition memset `{WordMemory M} (m : M) (a v s : Z) : M :=
  let w := memset_word v in
  let m1 := mem_fill m a w (Z.to_nat (s / 4)) in
  let x := a + 4 * (s / 4) in
  if s mod 4 =? 0 then m1 else mem_store m1 x (byte_merge (mem_load m1 x) w (s mod 4)).

Section Helpers.
Context {M : Type} {MO : WordMemory M}.

(** [set_id] (lines 7-11): [memset] through [bpa_get_ptr]; a [NULL]
    buffer crashes the program. *)
Definition set_id (H : heap M) (uid v s : Z) : outcome (heap M) :=
  match bpa_get_ptr H uid with
  | None => Abort
  | Some buf => Ok (set_mem (memset (h_mem H) buf v s) H)
  end.

(** [dump_id] (lines 13-26). *)
Definition dump_id (H : heap M) (uid s : Z) : Z * option (list Z) :=
  (uid, match bpa_get_ptr H uid with
        | None => None
        | Some buf => Some (map to_int8 (mem_bytes (h_mem H) buf (Z.to_nat s)))
        end).

(** [assert(bpa_get_id(H, bpa_get_ptr(H,id)) == id)]: a [NULL] pointer
    fails the [assert] of [bpa_get_id]. *)
Definition check_id (H : heap M) (uid : Z) : outcome unit :=
  match bpa_get_ptr H uid with
  | None => Abort
  | Some p => let! i := bpa_get_id H p in if i =? uid then Ok tt else Abort
  end.
End Helpers.

Definition trace : Type := list (Z * option (list Z)).

(** Lines 31-60 of [main]: up to the increment of collection and the
    three [dump_id] after it ([bpa_dump] at lines 34, 50 and 56 only
    prints). *)
Definition testbpa_phase1 : outcome (trace * heap gmem * Z * Z) :=
  match bpa_init ∅ (∅ : gmem) (1024 * 1024) with
  | None => Abort
  | Some H =>
      let '(H, id1) := bpa_create H 10000 in
      let '(H, id2) := bpa_create H 20000 in
      let '(H, id3) := bpa_create H 30000 in
      let '(H, _) := bpa_create H 4000 in
      let! _ := check_id H id1 in
      let! _ := check_id H id2 in
      let! _ := check_id H id3 in
      let! H := set_id H id1 1 10000 in
      let! H := set_id H id2 2 20000 in
      let! H := set_id H id3 3 30000 in
      let t1 := [dump_id H id1 100; dump_id H id2 100; dump_id H id3 100;
                 dump_id H (id1 ⊞ 65536) 100] in
      let H := fst (bpa_grab H id1) in
      let H := fst (bpa_grab H id3) in
      let! H := bpa_collect H 1 in
      Ok (t1 ++ [dump_id H id1 100; dump_id H id2 100; dump_id H id3 100], H, id1, id3)
  end.

(** Lines 62-68: release and collect, twice. *)
Definition testbpa_phase2 (st : trace * heap gmem * Z * Z) : outcome (trace * heap gmem) :=
  let '(t, H, id1, id3) := st in
  let! H := bpa_release H id1 in
  let! H := bpa_collect H 0 in
  let! H := bpa_release H id3 in
  let! H := bpa_collect H 0 in
  Ok (t, H).

Definition testbpa_main : outcome (trace * heap gmem) :=
  let! st := testbpa_phase1 in testbpa_phase2 st.

(** The heap [main] leaves after its increment of collection. *)
Definition paused_heap : heap gmem :=
  snd (fst (fst (ok_or ([], ex_heap0, 0, 0) testbpa_phase1))).

(** A client that, on [paused_heap], creates a 100-byte object and then
    calls [bpa_collect(H, 1)] again. *)
Definition paused_create : heap gmem * Z := bpa_create paused_heap 100.
Definition paused_after : heap gmem := ok_or ex_heap0 (bpa_collect (fst paused_create) 1).
