(* ===== verification/CollectLoop.v ===== *)
(** * The sweep loop of [collect] against the abstract view

    [loop_inv H done P R p dst len] is the state of the [for (;;)] loop of
    [collect] ([src/bpa.c] lines 141-174) inside a cycle whose cursor
    stands after the slices [done]: the slices [P] have been scanned, the
    pinned ones among them now lie packed from the cursor to [dst], the
    slices [R] are still in place from [p] to [H->offset], the gap
    [dst, p) is as large as the dropped slices of [P], and the slot table
    points at the packed slices and at [R].  Each branch of the loop
    body keeps it ([loop_dead], [loop_keep], [loop_move]); the two exits
    establish [collect_post] ([loop_exit], [loop_pause]); and
    [collect_loop_spec] runs the loop to an exit by induction on [R]. *)

From Stdlib Require Import ZArith Lia.
From stdpp Require Import base gmap list.
From S2P Require Import Prelude Mem Heap Layout Relocate Alloc Collect.

(** The progress measure of a cycle: it decreases at every increment
    that does not end the cycle. *)
Definition sweep_measure (rest : list slice) : Z := span rest + Z.of_nat (length rest).

Section Loop.
Context {M : Type} {MO : WordMemory M} {ML : WordMemoryLaws M}.

Definition loop_inv (H : heap M) (done P R : list slice) (p dst len : Z) : Prop :=
  HEAP_HEADER_SIZE <= h_offset H <= h_sz H /\ h_sz H <= 2 ^ 29 /\ 0 <= h_cid H < 2 ^ 32 /\
  h_collect H = HEAP_HEADER_SIZE + span done /\
  tiles (h_mem H) HEAP_HEADER_SIZE (done ++ live P) dst /\
  tiles (h_mem H) p R (h_offset H) /\
  p - dst = span (dead P) /\
  Forall (fun x => 2 <= sl_sz x) P /\
  Forall slice_ok (done ++ P ++ R) /\
  slots_ok (h_slot H) (ids_at HEAP_HEADER_SIZE (done ++ live P) ++ ids_at p R) /\
  (live P = [] -> len = 8 * Z.of_nat (length P)).

(** What one increment of a cycle that started from [done ++ rest]
    leaves: the cycle ended with the pinned slices of [rest] packed after
    [done], or it paused on an abstract state with the same final result
    and a smaller measure.  [sz], [offset] and [cid] are the header
    fields before the increment. *)
Definition collect_post (sz off cid : Z) (done rest : list slice) (H' : heap M) : Prop :=
  h_sz H' = sz /\ h_cid H' = cid /\
  ((h_collect H' = 0 /\ heap_repr H' (done ++ live rest)) \/
   (exists done' rest', h_collect H' = HEAP_HEADER_SIZE + span done' /\
      heap_repr H' (done' ++ rest') /\ done' ++ live rest' = done ++ live rest /\
      sweep_measure rest' < sweep_measure rest /\ h_offset H' = off)).
End Loop.

(** ** Facts on slice lists the loop uses *)

Lemma live_cons_dead sl l : sl_ref sl = 0 -> live (sl :: l) = live l.
Proof. intros E. unfold live. simpl. by rewrite E. Qed.

Lemma dead_cons_dead sl l : sl_ref sl = 0 -> dead (sl :: l) = sl :: dead l.
Proof. intros E. unfold dead. simpl. by rewrite E. Qed.

Lemma live_cons_live sl l : sl_ref sl <> 0 -> live (sl :: l) = sl :: live l.
Proof. intros E. unfold live. simpl. by apply Z.eqb_neq in E as ->. Qed.

Lemma dead_cons_live sl l : sl_ref sl <> 0 -> dead (sl :: l) = dead l.
Proof. intros E. unfold dead. simpl. by apply Z.eqb_neq in E as ->. Qed.

Lemma span_pos_nil l : Forall (fun x => 2 <= sl_sz x) l -> span l = 0 -> l = [].
Proof. intros Hs E. apply span_ge_length in Hs. destruct l; simpl in *; [done | lia]. Qed.

(** The cursor after [done] is a slice boundary of [done ++ rest]. *)
Lemma boundary_after c done rest :
  c = HEAP_HEADER_SIZE + span done -> boundary c (done ++ rest).
Proof. intros ->. exists (length done). by rewrite take_app_length. Qed.

(** Offsets of two consecutive tilings are apart from the slice between. *)
Lemma offsets_apart {M} `{WordMemory M} (m : M) a D dst p sl R b o' u' :
  tiles m a D dst -> tiles m (p + sl_sz sl) R b -> dst <= p -> 2 <= sl_sz sl ->
  (o', u') ∈ ids_at a D ++ ids_at (p + sl_sz sl) R -> o' <> p.
Proof.
  intros TD TR ? ? [Hin | Hin]%elem_of_app.
  - apply (ids_at_tiles_lt _ _ _ _ _ _ TD) in Hin. lia.
  - apply (ids_at_tiles_ge _ _ _ _ _ _ TR) in Hin. lia.
Qed.

Lemma Forall_keep_live (Q : slice -> Prop) done P R :
  Forall Q (done ++ P ++ R) -> Forall Q (done ++ live P ++ R).
Proof.
  rewrite !Forall_app. intros (? & ? & ?). split_and!; [done | by apply Forall_live | done].
Qed.

(** A list that has no pinned slice but more than one word of work
    per slice behind it, or a pinned slice, weighs more than a
    placeholder. *)
Lemma measure_drop P : Forall (fun x => 2 <= sl_sz x) P ->
  (live P = [] -> (2 <= length P)%nat) -> P <> [] -> 1 < span (live P) + Z.of_nat (length P).
Proof.
  intros Hs Hl HP. destruct (live P) as [|x l] eqn:EL.
  - specialize (Hl eq_refl). simpl. lia.
  - pose proof (span_ge_length _ (Forall_live _ _ Hs)) as Hsp. rewrite EL in Hsp. simpl in Hsp.
    destruct P; [done | simpl; lia].
Qed.

Section Exits.
Context {M : Type} {MO : WordMemory M} {ML : WordMemoryLaws M}.

Ltac inv_loop Hinv :=
  destruct Hinv as (Hoff & Hsz & Hcid & Hc & T1 & T2 & Hgap & Hs & Hok & Hslots & Hlen).

(** Lines 142-146: the scan reached [H->offset]; the cycle ends. *)
Lemma loop_exit (H : heap M) done P R p dst len :
  loop_inv H done P R p dst len -> h_offset H <= p ->
  collect_post (h_sz H) (h_offset H) (h_cid H) done (P ++ R) (set_collect 0 (set_offset dst H)).
Proof.
  intros Hinv Hp. inv_loop Hinv. destruct (tiles_empty _ _ _ _ T2 Hp) as [-> Heq].
  pose proof (tiles_le _ _ _ _ T1) as [? _]. pose proof (span_ge_length _ (Forall_dead _ _ Hs)).
  split_and!; [done | done |]. left. rewrite app_nil_r. split; [done |].
  unfold heap_repr; simpl. split_and!; try lia; try done.
  - apply Forall_keep_live in Hok. by rewrite app_nil_r in Hok.
  - by rewrite app_nil_r in Hslots.
Qed.

(** The stores of lines 150-153 are a [header_write] at [dst]. *)
Lemma collect_pause_write (H : heap M) p dst :
  HEAP_HEADER_SIZE <= dst -> dst < p <= 2 ^ 29 ->
  h_mem (collect_pause H p dst) = header_write (h_mem H) dst 0 (p - dst) 0.
Proof.
  intros. unfold collect_pause. destruct (Z.eqb_spec p dst); [lia |]. simpl.
  unfold header_write, SLICE_ID, slice_sz. rewrite HEAP_SLICE_small by zlia.
  rewrite load_store_eq. replace (p ⊟ dst) with (p - dst) by bpa_lia.
  do 2 f_equal. bpa_lia.
Qed.

Lemma collect_pause_frame (H : heap M) p dst :
  h_sz (collect_pause H p dst) = h_sz H /\ h_offset (collect_pause H p dst) = h_offset H /\
  h_cid (collect_pause H p dst) = h_cid H /\ h_slot (collect_pause H p dst) = h_slot H /\
  h_collect (collect_pause H p dst) = dst.
Proof. unfold collect_pause. by destruct (_ =? _). Qed.

(** Lines 147-155: the work quota is spent; the cycle pauses at [dst]. *)
Lemma loop_pause (H : heap M) done P R p dst len :
  loop_inv H done P R p dst len -> p < h_offset H -> COLLECT_STEP_LENGTH < len ->
  collect_post (h_sz H) (h_offset H) (h_cid H) done (P ++ R) (collect_pause H p dst).
Proof.
  intros Hinv Hp Hl. inv_loop Hinv. unfold COLLECT_STEP_LENGTH in Hl.
  assert (HP : P <> []) by (intros ->; specialize (Hlen eq_refl); simpl in Hlen; lia).
  assert (HPl : live P = [] -> (2 <= length P)%nat) by (intros E; specialize (Hlen E); lia).
  pose proof (measure_drop _ Hs HPl HP) as Hm.
  pose proof (tiles_le _ _ _ _ T1) as [Hd Hdst]. pose proof (tiles_le _ _ _ _ T2) as [_ Hend].
  pose proof (span_live_dead P). rewrite span_app in Hdst.
  pose proof (span_ge_length _ (Forall_dead _ _ Hs)) as Hdead.
  assert (Hres : forall R', live R' = live R ->
            (done ++ live P) ++ live R' = done ++ live (P ++ R)) by (intros R' ->; by rewrite live_app, app_assoc).
  destruct (collect_pause_frame H p dst) as (Fsz & Foff & Fcid & Fslot & Fc).
  split_and!; [done | done |].
  right. exists (done ++ live P).
  destruct (Z.eqb_spec p dst) as [<- | Hne].
  - exists R. unfold collect_pause. rewrite Z.eqb_refl. simpl.
    split_and!; [rewrite span_app; lia | | by apply Hres | | done].
    + unfold heap_repr; simpl. split_and!; try lia.
      * apply tiles_app. eauto.
      * intros _. apply boundary_after. rewrite span_app. lia.
      * rewrite <- app_assoc. by apply Forall_keep_live.
      * rewrite ids_at_app. replace (HEAP_HEADER_SIZE + span (done ++ live P)) with p
          by (rewrite span_app; lia). done.
    + unfold sweep_measure. rewrite span_app, length_app. pose proof (span_ge_length _ Hs).
      destruct P; [done | simpl in *; lia].
  - assert (Hgap2 : 2 <= p - dst).
    { destruct (dead P) eqn:E; simpl in Hgap, Hdead; [lia |]. lia. }
    destruct (tiles_placeholder _ _ _ _ _ _ _ T1 T2 Hgap2) as (ph & Hr & Hsz' & Hid & T).
    exists (ph :: R).
    split_and!; [rewrite Fc, span_app; lia | | apply Hres; by apply live_cons_dead | | done].
    + unfold heap_repr. rewrite collect_pause_write, Fsz, Foff, Fcid, Fslot, Fc by lia.
      split_and!; try lia; [done | | |].
      * intros _. apply boundary_after. rewrite span_app. lia.
      * rewrite <- app_assoc. apply Forall_keep_live in Hok.
        apply Forall_app in Hok as [? Hok]. apply Forall_app in Hok as [? ?].
        apply Forall_app. split; [done |]. apply Forall_app. split; [done |].
        constructor; [| done]. unfold slice_ok. rewrite Hr, Hid. lia.
      * rewrite ids_at_app. simpl. rewrite Hid, Hsz'.
        replace (HEAP_HEADER_SIZE + span (done ++ live P)) with dst by (rewrite span_app; lia).
        replace (dst + (p - dst)) with p by lia. by apply slots_ok_add_zero.
    + unfold sweep_measure. simpl. rewrite span_app, length_app, Hsz'. lia.
Qed.
End Exits.

Section Body.
Context {M : Type} {MO : WordMemory M} {ML : WordMemoryLaws M}.

Ltac inv_loop Hinv :=
  destruct Hinv as (Hoff & Hsz & Hcid & Hc & T1 & T2 & Hgap & Hs & Hok & Hslots & Hlen).

(** Lines 157-159: the fields of the slice at [p], read through the
    macros, and the 32-bit sums of the loop, which do not wrap. *)
Lemma loop_read (H : heap M) done P sl R p dst len :
  loop_inv H done P (sl :: R) p dst len ->
  slice_at (h_mem H) p sl /\ tiles (h_mem H) (p + sl_sz sl) R (h_offset H) /\
  HEAP_SLICE p = 8 * p /\ HEAP_SLICE dst = 8 * dst /\
  slice_ref (h_mem H) (8 * p) = sl_ref sl /\ slice_sz (h_mem H) (8 * p) = sl_sz sl /\
  slice_id (h_mem H) (8 * p) = sl_id sl /\
  p ⊞ sl_sz sl = p + sl_sz sl /\ dst ⊞ sl_sz sl = dst + sl_sz sl /\
  sl_sz sl ⊠ ALIGN_SIZE = 8 * sl_sz sl /\ dst <= p < h_offset H.
Proof.
  intros Hinv. inv_loop Hinv. inversion T2 as [|? ? ? ? Hsl T3]; subst.
  pose proof (tiles_le _ _ _ _ T3) as [? _]. pose proof (tiles_le _ _ _ _ T1) as [? _].
  pose proof (span_ge_length _ (Forall_dead _ _ Hs)). pose proof Hsl as [? _].
  destruct (slice_at_read _ _ _ Hsl) as (Hp & Hr & Hz & _ & Hi); [zlia | zlia |].
  split_and!; try done; try bpa_lia. apply HEAP_SLICE_small. zlia.
Qed.

(** Lines 161-164 and 173: an unpinned slice is dropped. *)
Lemma loop_dead (H : heap M) done P sl R p dst len :
  loop_inv H done P (sl :: R) p dst len -> sl_ref sl = 0 -> len <= COLLECT_STEP_LENGTH ->
  loop_inv (if sl_id sl =? 0 then H else set_slot (sl_id sl mod MAX_SLOT) 0 H)
    done (P ++ [sl]) R (p + sl_sz sl) dst (int_add_u len SIZEOF_SLICE).
Proof.
  intros Hinv Hr Hl. destruct (loop_read _ _ _ _ _ _ _ _ Hinv) as (Hsl & T3 & _ & _ & _ & _ & _ & _ & _ & _ & Hp).
  inv_loop Hinv. pose proof Hsl as [Hsz2 _].
  assert (EL : live (P ++ [sl]) = live P) by (by rewrite live_app, live_cons_dead, app_nil_r).
  assert (F : forall b : bool, let H1 := if b then H else set_slot (sl_id sl mod MAX_SLOT) 0 H in
            h_sz H1 = h_sz H /\ h_offset H1 = h_offset H /\ h_cid H1 = h_cid H /\
            h_collect H1 = h_collect H /\ h_mem H1 = h_mem H /\
            h_slot H1 = if b then h_slot H else <[sl_id sl mod MAX_SLOT := 0]> (h_slot H))
    by (intros []; done).
  destruct (F (sl_id sl =? 0)) as (F1 & F2 & F3 & F4 & F5 & F6).
  unfold loop_inv. rewrite F1, F2, F3, F4, F5, F6, EL. split_and!; try lia; try done.
  - rewrite dead_app, span_app, dead_cons_dead by done. simpl. lia.
  - apply Forall_app. split; [done | by constructor].
  - by rewrite <- app_assoc.
  - simpl in Hslots. eapply slots_ok_remove; [exact Hslots |].
    intros o' u' Hin. eapply offsets_apart; [exact T1 | exact T3 | lia | lia | exact Hin].
  - intros E. specialize (Hlen E). unfold COLLECT_STEP_LENGTH in Hl.
    rewrite int_add_u_small by (unfold SIZEOF_SLICE; zlia). rewrite length_app. simpl.
    unfold SIZEOF_SLICE. lia.
Qed.

(** Lines 165-173, [dst == p]: a pinned slice already in place. *)
Lemma loop_keep (H : heap M) done P sl R p len len' :
  loop_inv H done P (sl :: R) p p len -> sl_ref sl <> 0 ->
  loop_inv H done (P ++ [sl]) R (p + sl_sz sl) (p + sl_sz sl) len'.
Proof.
  intros Hinv Hr. destruct (loop_read _ _ _ _ _ _ _ _ Hinv) as (Hsl & T3 & _).
  inv_loop Hinv. pose proof Hsl as [Hsz2 _].
  assert (ED : dead P = []) by (apply span_pos_nil; [by apply Forall_dead | lia]).
  pose proof (tiles_le _ _ _ _ T1) as [_ Hp].
  unfold loop_inv. rewrite live_app, live_cons_live, dead_app, dead_cons_live, ED by done.
  split_and!; try lia; try done.
  - rewrite app_assoc. by eapply tiles_snoc.
  - simpl. lia.
  - apply Forall_app. split; [done | by constructor].
  - by rewrite <- app_assoc.
  - rewrite app_assoc, ids_at_app, <- app_assoc. simpl. by rewrite <- Hp.
  - intros E. by destruct (live P).
Qed.

(** Lines 165-173, [dst != p]: a pinned slice moved down to [dst]. *)
Lemma loop_move (H : heap M) done P sl R p dst len len' :
  loop_inv H done P (sl :: R) p dst len -> sl_ref sl <> 0 -> dst <> p ->
  loop_inv (set_mem (mem_move (h_mem H) (8 * dst) (8 * p) (8 * sl_sz sl))
              (set_slot (sl_id sl mod MAX_SLOT) dst H))
    done (P ++ [sl]) R (p + sl_sz sl) (dst + sl_sz sl) len'.
Proof.
  intros Hinv Hr Hne. destruct (loop_read _ _ _ _ _ _ _ _ Hinv) as (Hsl & T3 & _ & _ & _ & _ & _ & _ & _ & _ & Hp).
  inv_loop Hinv. pose proof Hsl as [Hsz2 _].
  assert (Hslok : slice_ok sl).
  { apply Forall_app in Hok as [_ Hok]. apply Forall_app in Hok as [_ Hok]. by inversion Hok. }
  assert (Hid : sl_id sl <> 0) by (destruct Hslok as (_ & Hz & _); intros E; by apply Hr, Hz).
  pose proof (tiles_le _ _ _ _ T1) as [_ Hd].
  destruct (tiles_move _ _ _ _ _ _ _ _ T1 Hsl T3 ltac:(lia)) as [T1' T3'].
  unfold loop_inv; simpl. rewrite live_app, live_cons_live, dead_app, dead_cons_live by done.
  split_and!; try lia; try done.
  - by rewrite app_assoc.
  - simpl. rewrite app_nil_r. lia.
  - apply Forall_app. split; [done | by constructor].
  - by rewrite <- app_assoc.
  - rewrite app_assoc, ids_at_app, <- app_assoc, <- Hd. simpl. simpl in Hslots.
    eapply slots_ok_move; [exact Hslots | done |].
    intros o' u' Hin. eapply offsets_apart; [exact T1 | exact T3 | lia | lia | exact Hin].
  - intros E. by destruct (live P).
Qed.
End Body.

(** ** The loop runs to one of its exits *)

Section Run.
Context {M : Type} {MO : WordMemory M} {ML : WordMemoryLaws M}.

(** Fuel one more than the slices left to scan is enough: the loop
    returns, and what it returns satisfies [collect_post]. *)
Local Ltac use_ih IH fuel Hinv' :=
  let H' := fresh "H'" in let Hpost := fresh "Hpost" in
  destruct (IH fuel _ _ _ _ _ ltac:(lia) Hinv') as (H' & -> & Hpost);
  exists H'; split; [done | exact Hpost].

Lemma collect_loop_spec fuel (H : heap M) done P R p dst len :
  (length R < fuel)%nat -> loop_inv H done P R p dst len ->
  exists H', collect_loop fuel H p dst len = Ok H' /\
    collect_post (h_sz H) (h_offset H) (h_cid H) done (P ++ R) H'.
Proof.
  revert fuel H P p dst len.
  induction R as [|sl R IH]; intros fuel H P p dst len Hf Hinv;
    (destruct fuel as [|fuel]; [simpl in Hf; lia |]); cbn [collect_loop].
  - pose proof Hinv as (_ & _ & _ & _ & _ & T2 & _). apply tiles_le in T2 as [_ Hpo].
    simpl in Hpo. destruct (Z.leb_spec (h_offset H) p); [| lia].
    eexists. split; [done |]. eapply loop_exit; [exact Hinv | lia].
  - destruct (loop_read _ _ _ _ _ _ _ _ Hinv)
      as (_ & _ & Hhp & Hhd & Hr & Hz & Hi & Wp & Wd & Wz & Hp).
    destruct (Z.leb_spec (h_offset H) p); [lia |].
    destruct (Z.ltb_spec COLLECT_STEP_LENGTH len).
    { eexists. split; [done |]. by eapply loop_pause. }
    simpl in Hf. rewrite Hhp, Hr, Hz, Hi, Wp, Hhd, Wz.
    replace (P ++ sl :: R) with ((P ++ [sl]) ++ R) by by rewrite <- app_assoc.
    destruct (Z.eqb_spec (sl_ref sl) 0) as [E | E].
    + pose proof (loop_dead _ _ _ _ _ _ _ _ Hinv E ltac:(lia)) as Hinv'.
      destruct (sl_id sl =? 0); use_ih IH fuel Hinv'.
    + rewrite Wd. destruct (Z.eqb_spec dst p) as [<- | Hne].
      * use_ih IH fuel (loop_keep _ _ _ _ _ _ _ (int_add_u len SIZEOF_SLICE) Hinv E).
      * change (h_mem (set_slot (sl_id sl mod MAX_SLOT) dst H)) with (h_mem H).
        use_ih IH fuel (loop_move _ _ _ _ _ _ _ _
                  (int_add_u (int_add_u len SIZEOF_SLICE) (8 * sl_sz sl)) Hinv E Hne).
Qed.
End Run.

(** ** One increment, and increments until the cycle ends *)

Section Cycle.
Context {M : Type} {MO : WordMemory M} {ML : WordMemoryLaws M}.

Lemma repr_sizes (H : heap M) sls : heap_repr H sls -> Forall (fun x => 2 <= sl_sz x) sls.
Proof. intros (_ & _ & _ & T & _). by eapply tiles_sizes. Qed.

(** A heap in a cycle whose cursor stands after [done]: the loop
    invariant holds at the entry of [collect]. *)
Lemma loop_inv_start (H : heap M) done rest :
  heap_repr H (done ++ rest) -> h_collect H = HEAP_HEADER_SIZE + span done ->
  loop_inv H done [] rest (h_collect H) (h_collect H) 0.
Proof.
  intros (Hoff & Hsz & Hcid & T & _ & Hok & Hslots) Hc.
  apply tiles_app in T as (b & T1 & T2). pose proof (tiles_le _ _ _ _ T1) as [_ Hb].
  unfold loop_inv. simpl. rewrite !app_nil_r. rewrite Hc, <- Hb. rewrite <- Hb in Hc.
  split_and!; try lia; try done. by rewrite Hb, <- ids_at_app.
Qed.

Lemma idle_measure (H : heap M) done rest :
  heap_repr H (done ++ rest) -> h_collect H = HEAP_HEADER_SIZE + span done ->
  h_offset H - h_collect H = span rest /\ 0 <= sweep_measure rest <= 2 * span rest.
Proof.
  intros Hr Hc. pose proof (repr_sizes _ _ Hr) as Hs. apply Forall_app in Hs as [_ Hs].
  apply span_ge_length in Hs. destruct Hr as (_ & _ & _ & T & _).
  apply tiles_le in T as [_ T]. rewrite span_app in T. unfold sweep_measure. lia.
Qed.

(** [collect] (lines 135-175) from a heap in a cycle. *)
Lemma collect_spec (H : heap M) done rest :
  heap_repr H (done ++ rest) -> h_collect H = HEAP_HEADER_SIZE + span done ->
  exists H', collect H = Ok H' /\ collect_post (h_sz H) (h_offset H) (h_cid H) done rest H'.
Proof.
  intros Hr Hc. pose proof (idle_measure _ _ _ Hr Hc) as [Hm _].
  pose proof (span_ge_length _ (proj2 (proj1 (Forall_app _ _ _) (repr_sizes _ _ Hr)))).
  pose proof (span_ge_length _ (proj1 (proj1 (Forall_app _ _ _) (repr_sizes _ _ Hr)))).
  unfold collect. destruct (Z.eqb_spec (h_collect H) 0); [zlia |].
  apply (collect_loop_spec _ _ _ [] rest); [lia | by apply loop_inv_start].
Qed.

(** Increments until the cycle ends: enough fuel for the measure gives
    the end of the cycle, with the pinned slices of [rest] packed after
    [done]. *)
Lemma collect_until_idle_spec fuel (H : heap M) done rest :
  heap_repr H (done ++ rest) -> h_collect H = HEAP_HEADER_SIZE + span done ->
  sweep_measure rest < Z.of_nat fuel ->
  exists H', collect_until_idle fuel H = Ok H' /\ h_sz H' = h_sz H /\ h_cid H' = h_cid H /\
    h_collect H' = 0 /\ heap_repr H' (done ++ live rest).
Proof.
  revert H done rest. induction fuel as [|fuel IH]; intros H done rest Hr Hc Hf.
  - pose proof (idle_measure _ _ _ Hr Hc). lia.
  - destruct (collect_spec _ _ _ Hr Hc) as (H1 & E & Hsz & Hcid & Hpost). simpl. rewrite E. simpl.
    destruct Hpost as [[Hc1 Hr1] | (done' & rest' & Hc1 & Hr1 & Hres & Hm & _)].
    + rewrite Hc1. simpl. eexists. split_and!; [done | done | done | done | done].
    + destruct (Z.eqb_spec (h_collect H1) 0) as [E0 |].
      { pose proof (span_ge_length _ (proj1 (proj1 (Forall_app _ _ _) (repr_sizes _ _ Hr1)))). zlia. }
      destruct (IH H1 done' rest' Hr1 Hc1 ltac:(lia)) as (H' & E' & ? & ? & ? & Hr').
      exists H'. rewrite Hres in Hr'. split_and!; congruence.
Qed.

Lemma idle_fuel_enough (H : heap M) done rest :
  heap_repr H (done ++ rest) -> h_collect H = HEAP_HEADER_SIZE + span done ->
  sweep_measure rest < Z.of_nat (idle_fuel H).
Proof. intros Hr Hc. pose proof (idle_measure _ _ _ Hr Hc). unfold idle_fuel. lia. Qed.

(** More fuel does not change a result the loop has reached. *)
Lemma collect_until_idle_mono fuel fuel' (H H' : heap M) :
  collect_until_idle fuel H = Ok H' -> (fuel <= fuel')%nat -> collect_until_idle fuel' H = Ok H'.
Proof.
  revert fuel' H. induction fuel as [|fuel IH]; intros [|fuel'] H E Hle; simpl in *; try done; [lia |].
  destruct (collect H) as [H1 | |]; simpl in *; try done.
  destruct (h_collect H1 =? 0); [done |]. apply IH; [done | lia].
Qed.

(** C8: Termination of the loop [do collect(H); while (H->collect != 0)]
    (lines 182-184, and the [for] loop of line 190 when [step == 0]):
    from a heap whose cursor stands after [done], the loop ends after at
    most [sweep_measure rest] increments, on one heap whatever the fuel
    beyond that bound, and the fuel [idle_fuel] of [bpa_collect] is
    beyond it. *)
Theorem collect_until_idle_terminates (H : heap M) done rest :
  heap_repr H (done ++ rest) -> h_collect H = HEAP_HEADER_SIZE + span done ->
  exists H', h_collect H' = 0 /\ heap_repr H' (done ++ live rest) /\
    (forall fuel, sweep_measure rest < Z.of_nat fuel -> collect_until_idle fuel H = Ok H') /\
    sweep_measure rest < Z.of_nat (idle_fuel H).
Proof.
  intros Hr Hc. pose proof (idle_measure _ _ _ Hr Hc) as [_ Hm].
  destruct (collect_until_idle_spec (S (Z.to_nat (sweep_measure rest))) _ _ _ Hr Hc ltac:(lia))
    as (H' & E & _ & _ & Hc' & Hr').
  exists H'. split_and!; [done | done | | by apply (idle_fuel_enough _ done rest)].
  intros fuel Hf. apply (collect_until_idle_mono _ _ _ _ E). lia.
Qed.
End Cycle.

Definition ex_cycle1 : heap gmem := set_collect HEAP_HEADER_SIZE ex_heap1.

Lemma collect_until_idle_terminates_witness :
  heap_repr ex_cycle1 ([] ++ [ex_slice]) /\ h_collect ex_cycle1 = HEAP_HEADER_SIZE + span [] /\
  exists H', h_collect H' = 0 /\ heap_repr H' ([] ++ live [ex_slice]) /\
    (forall fuel, sweep_measure [ex_slice] < Z.of_nat fuel -> collect_until_idle fuel ex_cycle1 = Ok H') /\
    sweep_measure [ex_slice] < Z.of_nat (idle_fuel ex_cycle1).
Proof.
  assert (Hr : heap_repr ex_cycle1 ([] ++ [ex_slice])) by repr_by_compute.
  assert (Hc : h_collect ex_cycle1 = HEAP_HEADER_SIZE + span []) by reflexivity.
  split_and!; [exact Hr | exact Hc |]. exact (collect_until_idle_terminates ex_cycle1 [] [ex_slice] Hr Hc).
Defined.
