(* ===== verification/CollectSpec.v ===== *)
(** * What [bpa_collect] promises

    The abstract specification of the compactor: a heap whose cursor
    stands after the slices [done] will end its cycle with
    [done ++ live rest] ([cycle_result]); [bpa_collect H 0] always
    returns, with exactly the pinned slices left, packed from
    [HEAP_HEADER_SIZE]; a call with [step <> 0] either ends the cycle
    with the promised result or pauses on a heap that promises the same
    result; so a caller that runs [bpa_collect H k] until the cursor is
    back to 0 ([collect_by_steps]) gets a heap equal to the one of
    [bpa_collect H 0] up to what the code never reads ([heap_equiv]).
    An allocation made while a cycle is paused is swept by that cycle
    ([create_during_pause_reclaimed]). *)

From Stdlib Require Import ZArith Lia.
From stdpp Require Import base gmap list.
From S2P Require Import Prelude Mem Heap Layout Relocate Alloc Collect Scenario CollectLoop.

(** The slices before and after the unit offset [c], walking from [a]. *)
Fixpoint cut (a c : Z) (sls : list slice) : list slice * list slice :=
  match sls with
  | [] => ([], [])
  | sl :: r =>
      if a =? c then ([], sls)
      else let '(d, r') := cut (a + sl_sz sl) c r in (sl :: d, r')
  end.

(** The slices a heap with cursor [c] holds once its cycle has ended:
    an idle heap starts a new cycle from the first slice. *)
Definition cycle_result (c : Z) (sls : list slice) : list slice :=
  if c =? 0 then live sls
  else let '(d, r) := cut HEAP_HEADER_SIZE c sls in d ++ live r.

Section Client.
Context {M : Type} {MO : WordMemory M}.

(** A caller's loop [do bpa_collect(H, k); while (H->collect != 0)]. *)
Fixpoint collect_by_steps (fuel : nat) (k : Z) (H : heap M) : outcome (heap M) :=
  match fuel with
  | O => OutOfFuel
  | S fuel =>
      let! H1 := bpa_collect H k in
      if h_collect H1 =? 0 then Ok H1 else collect_by_steps fuel k H1
  end.

Definition steps_fuel (H : heap M) : nat := S (Z.to_nat (2 * (h_offset H - HEAP_HEADER_SIZE))).

(** Two heaps the code cannot tell apart: the same header, the same slot
    table entry by entry, and the same words from [HEAP_HEADER_SIZE] to
    the bump pointer. *)
Definition heap_equiv (H1 H2 : heap M) : Prop :=
  h_sz H1 = h_sz H2 /\ h_offset H1 = h_offset H2 /\ h_collect H1 = h_collect H2 /\
  h_cid H1 = h_cid H2 /\ (forall i, slot_get (h_slot H1) i = slot_get (h_slot H2) i) /\
  mem_words (h_mem H1) (8 * HEAP_HEADER_SIZE) (Z.to_nat (2 * (h_offset H1 - HEAP_HEADER_SIZE))) =
  mem_words (h_mem H2) (8 * HEAP_HEADER_SIZE) (Z.to_nat (2 * (h_offset H2 - HEAP_HEADER_SIZE))).

#[export] Instance heap_equiv_equiv : Equivalence heap_equiv.
Proof.
  split.
  - intros H. unfold heap_equiv. auto 10.
  - intros H1 H2 (? & ? & ? & ? & Hs & Hm). unfold heap_equiv. split_and!; auto.
  - intros H1 H2 H3 (? & ? & ? & ? & Hs & Hm) (? & ? & ? & ? & Hs' & Hm').
    unfold heap_equiv. split_and!; try congruence.
Qed.
End Client.

(** ** The abstract result of a cycle *)

Lemma cut_after a done rest :
  Forall (fun x => 2 <= sl_sz x) done -> cut a (a + span done) (done ++ rest) = (done, rest).
Proof.
  revert a. induction done as [|x d IH]; intros a Hs; simpl.
  - destruct rest; simpl; [done |]. by rewrite Z.add_0_r, Z.eqb_refl.
  - inversion Hs as [|? ? Hx Hd]; subst. pose proof (span_ge_length _ Hd).
    destruct (Z.eqb_spec a (a + (sl_sz x + span d))); [lia |].
    rewrite Z.add_assoc, IH by done. done.
Qed.

Section Results.
Context {M : Type} {MO : WordMemory M} {ML : WordMemoryLaws M}.

Lemma cycle_result_after (H : heap M) done rest :
  heap_repr H (done ++ rest) ->
  cycle_result (HEAP_HEADER_SIZE + span done) (done ++ rest) = done ++ live rest.
Proof.
  intros Hr. pose proof (repr_sizes _ _ Hr) as Hs. apply Forall_app in Hs as [Hs _].
  pose proof (span_ge_length _ Hs). unfold cycle_result.
  destruct (Z.eqb_spec (HEAP_HEADER_SIZE + span done) 0); [zlia |]. by rewrite cut_after.
Qed.

(** A heap on which a cycle runs: idle, or with its cursor on the
    boundary after [done]. *)
Lemma cursor_split (H : heap M) sls :
  heap_repr H sls -> h_collect H <> 0 ->
  exists done rest, sls = done ++ rest /\ h_collect H = HEAP_HEADER_SIZE + span done.
Proof.
  intros Hr Hc. pose proof Hr as (_ & _ & _ & _ & Hb & _).
  destruct (Hb Hc) as [k Hk]. exists (take k sls), (drop k sls). by rewrite take_drop.
Qed.

Lemma heap_repr_restart (H : heap M) sls :
  heap_repr H sls -> heap_repr (set_collect HEAP_HEADER_SIZE H) ([] ++ sls) /\
  h_collect (set_collect HEAP_HEADER_SIZE H) = HEAP_HEADER_SIZE + span [].
Proof.
  intros (? & ? & ? & ? & _ & ? & ?). unfold heap_repr. simpl. split_and!; try done; try lia.
  intros _. by apply (boundary_after _ []).
Qed.

(** Lines 180-185: a paused cycle is finished first. *)
Lemma finish_phase (H : heap M) sls :
  heap_repr H sls ->
  exists H1 sls1, (if negb (h_collect H =? 0) then collect_until_idle (idle_fuel H) H else Ok H) = Ok H1 /\
    h_sz H1 = h_sz H /\ h_cid H1 = h_cid H /\ h_collect H1 = 0 /\ heap_repr H1 sls1 /\
    live sls1 = live sls.
Proof.
  intros Hr. destruct (Z.eqb_spec (h_collect H) 0) as [E | E]; simpl.
  - by exists H, sls.
  - destruct (cursor_split _ _ Hr E) as (done & rest & -> & Hc).
    destruct (collect_until_idle_spec (idle_fuel H) _ _ _ Hr Hc (idle_fuel_enough _ _ _ Hr Hc))
      as (H1 & E1 & ? & ? & ? & ?).
    exists H1, (done ++ live rest). split_and!; try done. by rewrite !live_app, live_idem.
Qed.

(** [bpa_collect H 0]: both phases run to their end. *)
Lemma bpa_collect_zero_spec (H : heap M) sls :
  heap_repr H sls ->
  exists H', bpa_collect H 0 = Ok H' /\ h_sz H' = h_sz H /\ h_cid H' = h_cid H /\
    h_collect H' = 0 /\ heap_repr H' (live sls).
Proof.
  intros Hr. destruct (finish_phase _ _ Hr) as (H1 & sls1 & E1 & ? & ? & Hc1 & Hr1 & Hl).
  unfold bpa_collect. cbn -[collect_until_idle idle_fuel]. rewrite E1.
  cbn -[collect_until_idle idle_fuel]. rewrite Hc1. cbn -[collect_until_idle idle_fuel].
  destruct (heap_repr_restart _ _ Hr1) as [Hr2 Hc2].
  destruct (collect_until_idle_spec _ _ _ _ Hr2 Hc2 (idle_fuel_enough _ _ _ Hr2 Hc2))
    as (H' & E' & ? & ? & ? & Hr'). simpl in *.
  exists H'. rewrite <- Hl. split_and!; congruence.
Qed.

(** The [for] loop of line 190 with [step > 0]: [n] increments at most. *)
Lemma collect_steps_spec n (H : heap M) done rest :
  heap_repr H (done ++ rest) -> h_collect H = HEAP_HEADER_SIZE + span done ->
  exists H', collect_steps n H = Ok H' /\ h_sz H' = h_sz H /\ h_cid H' = h_cid H /\
    ((h_collect H' = 0 /\ heap_repr H' (done ++ live rest)) \/
     (exists done' rest', h_collect H' = HEAP_HEADER_SIZE + span done' /\
        heap_repr H' (done' ++ rest') /\ done' ++ live rest' = done ++ live rest /\
        sweep_measure rest' <= sweep_measure rest /\
        (n <> 0%nat -> sweep_measure rest' < sweep_measure rest))).
Proof.
  revert H done rest. induction n as [|n IH]; intros H done rest Hr Hc.
  - exists H. split_and!; try done. right. exists done, rest. split_and!; try done; lia.
  - destruct (collect_spec _ _ _ Hr Hc) as (H1 & E & Hsz & Hcid & Hpost). simpl. rewrite E. simpl.
    destruct Hpost as [[Hc1 Hr1] | (done' & rest' & Hc1 & Hr1 & Hres & Hm & _)].
    + rewrite Hc1. simpl. exists H1. split_and!; auto.
    + destruct (Z.eqb_spec (h_collect H1) 0) as [E0 |].
      { pose proof (span_ge_length _ (proj1 (proj1 (Forall_app _ _ _) (repr_sizes _ _ Hr1)))). zlia. }
      destruct (IH H1 done' rest' Hr1 Hc1) as (H' & E' & ? & ? & Hpost').
      exists H'. split_and!; [done | congruence | congruence |].
      destruct Hpost' as [[? Hr'] | (d2 & r2 & ? & ? & Hres2 & ? & _)].
      * left. rewrite <- Hres. auto.
      * right. exists d2, r2. split_and!; try done; try lia. congruence.
Qed.

(** [bpa_collect H k] with [k > 0], on a heap that is idle or in a cycle. *)
Lemma bpa_collect_pos_spec (H : heap M) done rest k :
  heap_repr H (done ++ rest) ->
  (h_collect H = HEAP_HEADER_SIZE + span done \/ (h_collect H = 0 /\ done = [])) -> 0 < k ->
  exists H', bpa_collect H k = Ok H' /\ h_sz H' = h_sz H /\ h_cid H' = h_cid H /\
    ((h_collect H' = 0 /\ heap_repr H' (done ++ live rest)) \/
     (exists done' rest', h_collect H' = HEAP_HEADER_SIZE + span done' /\
        heap_repr H' (done' ++ rest') /\ done' ++ live rest' = done ++ live rest /\
        sweep_measure rest' < sweep_measure rest)).
Proof.
  intros Hr Hc Hk. unfold bpa_collect.
  destruct (Z.eqb_spec k 0); [lia |]. cbn -[collect_steps].
  assert (Hstart : exists H2, (if h_collect H =? 0 then set_collect HEAP_HEADER_SIZE H else H) = H2 /\
            heap_repr H2 (done ++ rest) /\ h_collect H2 = HEAP_HEADER_SIZE + span done /\
            h_sz H2 = h_sz H /\ h_cid H2 = h_cid H).
  { destruct Hc as [Hc | [Hc ->]].
    - pose proof (span_ge_length _ (proj1 (proj1 (Forall_app _ _ _) (repr_sizes _ _ Hr)))).
      destruct (Z.eqb_spec (h_collect H) 0); [zlia |]. by exists H.
    - rewrite Hc. simpl. destruct (heap_repr_restart _ _ Hr). by eexists. }
  destruct Hstart as (H2 & -> & Hr2 & Hc2 & Hsz2 & Hcid2).
  destruct (collect_steps_spec (Z.to_nat k) _ _ _ Hr2 Hc2) as (H' & E' & ? & ? & Hpost).
  exists H'. split_and!; [done | congruence | congruence |].
  destruct Hpost as [? | (d' & r' & ? & ? & ? & _ & Hlt)]; [by left | right].
  exists d', r'. split_and!; try done. apply Hlt. lia.
Qed.

(** A caller's loop of [bpa_collect H k] runs the cycle to its end. *)
Lemma collect_by_steps_spec fuel (H : heap M) done rest k :
  heap_repr H (done ++ rest) ->
  (h_collect H = HEAP_HEADER_SIZE + span done \/ (h_collect H = 0 /\ done = [])) -> 0 < k ->
  sweep_measure rest < Z.of_nat fuel ->
  exists H', collect_by_steps fuel k H = Ok H' /\ h_sz H' = h_sz H /\ h_cid H' = h_cid H /\
    h_collect H' = 0 /\ heap_repr H' (done ++ live rest).
Proof.
  revert H done rest. induction fuel as [|fuel IH]; intros H done rest Hr Hc Hk Hf.
  - pose proof (span_ge_length _ (proj2 (proj1 (Forall_app _ _ _) (repr_sizes _ _ Hr)))).
    unfold sweep_measure in Hf. lia.
  - destruct (bpa_collect_pos_spec _ _ _ _ Hr Hc Hk) as (H1 & E & ? & ? & Hpost).
    simpl. rewrite E. simpl.
    destruct Hpost as [[Hc1 Hr1] | (d' & r' & Hc1 & Hr1 & Hres & Hm)].
    + rewrite Hc1. simpl. by exists H1.
    + destruct (Z.eqb_spec (h_collect H1) 0) as [E0 |].
      { pose proof (span_ge_length _ (proj1 (proj1 (Forall_app _ _ _) (repr_sizes _ _ Hr1)))). zlia. }
      destruct (IH H1 d' r' Hr1 (or_introl Hc1) Hk ltac:(lia)) as (H' & E' & ? & ? & ? & Hr').
      exists H'. rewrite Hres in Hr'. split_and!; congruence.
Qed.

(** Two heaps with the same abstract view and header cannot be told
    apart. *)
Lemma heap_repr_equiv (H1 H2 : heap M) sls :
  heap_repr H1 sls -> heap_repr H2 sls -> h_sz H1 = h_sz H2 -> h_collect H1 = h_collect H2 ->
  h_cid H1 = h_cid H2 -> heap_equiv H1 H2.
Proof.
  intros (_ & _ & _ & T1 & _ & _ & S1) (_ & _ & _ & T2 & _ & _ & S2) ? ? ?.
  pose proof (tiles_le _ _ _ _ T1) as [_ E1]. pose proof (tiles_le _ _ _ _ T2) as [_ E2].
  unfold heap_equiv. split_and!; try done; [lia | |].
  - intros i. by eapply slots_ok_determined.
  - by rewrite (tiles_words _ _ _ _ T1), (tiles_words _ _ _ _ T2).
Qed.
End Results.

Section Start.
Context {M : Type} {MO : WordMemory M} {ML : WordMemoryLaws M}.

(** Lines 186-188: an idle heap starts a cycle at the first slice; a
    paused one keeps its cursor.  Either way the cycle promises
    [cycle_result]. *)
Lemma start_phase (H : heap M) sls :
  heap_repr H sls ->
  exists done rest,
    heap_repr (if h_collect H =? 0 then set_collect HEAP_HEADER_SIZE H else H) (done ++ rest) /\
    h_collect (if h_collect H =? 0 then set_collect HEAP_HEADER_SIZE H else H) =
      HEAP_HEADER_SIZE + span done /\
    cycle_result (h_collect H) sls = done ++ live rest.
Proof.
  intros Hr. destruct (Z.eqb_spec (h_collect H) 0) as [E | E].
  - exists [], sls. destruct (heap_repr_restart _ _ Hr). split_and!; try done.
    unfold cycle_result. by rewrite E.
  - destruct (cursor_split _ _ Hr E) as (done & rest & -> & Hc). exists done, rest.
    split_and!; try done. rewrite Hc. by eapply cycle_result_after.
Qed.

(** Ending a cycle and keeping the pinned slices of its result keeps
    the pinned slices of the heap. *)
Lemma live_cycle_result (H : heap M) sls :
  heap_repr H sls -> live (cycle_result (h_collect H) sls) = live sls.
Proof.
  intros Hr. destruct (Z.eqb_spec (h_collect H) 0) as [E | E].
  - unfold cycle_result. rewrite E. simpl. apply live_idem.
  - destruct (cursor_split _ _ Hr E) as (done & rest & -> & Hc). rewrite Hc.
    rewrite (cycle_result_after _ _ _ Hr). by rewrite !live_app, live_idem.
Qed.

Lemma repr_offset (H : heap M) sls : heap_repr H sls -> h_offset H = HEAP_HEADER_SIZE + span sls.
Proof. intros (_ & _ & _ & T & _). by apply tiles_le in T as [_ ->]. Qed.
End Start.

Section Keep.
Context {M : Type} {MO : WordMemory M} {ML : WordMemoryLaws M}.

(** Every call of [bpa_collect] returns on a well-formed heap, and keeps
    it well formed. *)
Lemma collect_keeps_repr (H : heap M) sls k :
  heap_repr H sls -> exists H' sls', bpa_collect H k = Ok H' /\ heap_repr H' sls'.
Proof.
  intros Hr. destruct (Z.eqb_spec k 0) as [-> | Hk].
  - destruct (bpa_collect_zero_spec _ _ Hr) as (H' & E & _ & _ & _ & Hr'). eauto.
  - destruct (start_phase _ _ Hr) as (done & rest & Hr2 & Hc2 & _).
    destruct (collect_steps_spec (Z.to_nat k) _ _ _ Hr2 Hc2) as (H' & E' & _ & _ & Hpost).
    unfold bpa_collect. destruct (Z.eqb_spec k 0); [done |]. cbn -[collect_steps]. rewrite E'.
    destruct Hpost as [[_ ?] | (d' & r' & _ & ? & _)]; eauto.
Qed.
Lemma collect_step_spec (H : heap M) sls k :
  heap_repr H sls -> k <> 0 ->
  exists H' sls', bpa_collect H k = Ok H' /\ heap_repr H' sls' /\
    ((h_collect H' = 0 /\ sls' = cycle_result (h_collect H) sls) \/
     (h_collect H' <> 0 /\ cycle_result (h_collect H') sls' = cycle_result (h_collect H) sls)).
Proof.
  intros Hr Hk. destruct (start_phase _ _ Hr) as (done & rest & Hr2 & Hc2 & Hres).
  destruct (collect_steps_spec (Z.to_nat k) _ _ _ Hr2 Hc2) as (H' & E' & _ & _ & Hpost).
  unfold bpa_collect. destruct (Z.eqb_spec k 0); [done |]. cbn -[collect_steps]. rewrite E'.
  rewrite Hres. destruct Hpost as [[? ?] | (d' & r' & Hc' & Hr' & Hres' & _)].
  - exists H', (done ++ live rest). auto.
  - exists H', (d' ++ r'). split_and!; [done | done |]. right.
    pose proof (span_ge_length _ (proj1 (proj1 (Forall_app _ _ _) (repr_sizes _ _ Hr')))).
    split; [zlia |]. rewrite Hc', <- Hres'. by eapply cycle_result_after.
Qed.
End Keep.

(** ** The compactor's contract *)

Section Theorems.
Context {M : Type} {MO : WordMemory M} {ML : WordMemoryLaws M}.

(** C1: [bpa_collect H 0] terminates (no assertion fails and no loop
    runs out of fuel): it ends the cycle in progress, whose result is
    [cycle_result], then runs a whole new cycle, which keeps the pinned
    slices of that result.  The idle heap it leaves holds exactly the
    pinned slices of [H], in their order, packed from [HEAP_HEADER_SIZE]
    up to the new bump pointer. *)
Theorem bpa_collect_full (H : heap M) sls :
  heap_repr H sls ->
  exists H', bpa_collect H 0 = Ok H' /\ h_collect H' = 0 /\
    heap_repr H' (live (cycle_result (h_collect H) sls)) /\
    live (cycle_result (h_collect H) sls) = live sls /\
    h_offset H' = HEAP_HEADER_SIZE + span (live sls).
Proof.
  intros Hr. destruct (bpa_collect_zero_spec _ _ Hr) as (H' & E & _ & _ & Hc & Hr').
  rewrite (live_cycle_result _ _ Hr). exists H'. split_and!; try done. by apply repr_offset.
Qed.

(** C2: Refinement of the cycle: a call [bpa_collect H k] with [k <> 0]
    returns, and either ends the cycle with exactly the slices the cycle
    promised ([cycle_result]), or pauses on a heap whose cycle promises
    the same slices. *)
Theorem bpa_collect_step_refines (H : heap M) sls k :
  heap_repr H sls -> k <> 0 ->
  exists H' sls', bpa_collect H k = Ok H' /\ heap_repr H' sls' /\
    ((h_collect H' = 0 /\ sls' = cycle_result (h_collect H) sls) \/
     (h_collect H' <> 0 /\ cycle_result (h_collect H') sls' = cycle_result (h_collect H) sls)).
Proof. apply collect_step_spec. Qed.

(** C3: Granularity does not matter: from an idle heap, calling
    [bpa_collect H k] with [k > 0] until the cursor is back to 0 ends,
    in a heap the code cannot tell apart from the one [bpa_collect H 0]
    produces: same header, same slot table, same words up to the bump
    pointer. *)
Theorem collect_granularity (H : heap M) sls k :
  heap_repr H sls -> h_collect H = 0 -> 0 < k ->
  exists H1 H2, collect_by_steps (steps_fuel H) k H = Ok H1 /\ bpa_collect H 0 = Ok H2 /\
    heap_equiv H1 H2.
Proof.
  intros Hr Hc Hk.
  assert (Hf : sweep_measure sls < Z.of_nat (steps_fuel H)).
  { pose proof (span_ge_length _ (repr_sizes _ _ Hr)). pose proof (repr_offset _ _ Hr).
    unfold sweep_measure, steps_fuel. lia. }
  destruct (collect_by_steps_spec _ H [] sls k Hr (or_intror (conj Hc eq_refl)) Hk Hf)
    as (Ha & Ea & Sa & Ca & Za & Ra).
  destruct (bpa_collect_zero_spec _ _ Hr) as (Hb & Eb & Sb & Cb & Zb & Rb).
  exists Ha, Hb. split_and!; try done. by apply (heap_repr_equiv _ _ (live sls)); [| | congruence..].
Qed.

(** C26: A negative [step] (the parameter is an [int]): [bpa_collect H k]
    with [k < 0] runs no increment; it only starts a cycle at the first
    slice when the heap was idle.  The slices, the bump pointer and the
    promised [cycle_result] are unchanged, and the heap is left in a
    cycle. *)
Theorem collect_negative_step (H : heap M) sls k :
  heap_repr H sls -> k < 0 ->
  exists H', bpa_collect H k = Ok H' /\ heap_repr H' sls /\ h_collect H' <> 0 /\
    h_offset H' = h_offset H /\ cycle_result (h_collect H') sls = cycle_result (h_collect H) sls.
Proof.
  intros Hr Hk. unfold bpa_collect. destruct (Z.eqb_spec k 0); [lia |]. cbn -[collect_steps].
  replace (Z.to_nat k) with 0%nat by lia. simpl.
  destruct (Z.eqb_spec (h_collect H) 0) as [E | E]; eexists; (split; [reflexivity |]).
  - destruct (heap_repr_restart _ _ Hr) as [Hr' Hc']. split_and!; [exact Hr' | simpl; zlia | done |].
    pose proof (cycle_result_after _ _ _ Hr') as C. change ([] ++ sls) with sls in C.
    rewrite Hc', C, E. done.
  - done.
Qed.
End Theorems.

(** ** Instances on concrete heaps

[ex_heap1] holds one unpinned 100-byte object, [ex_heap2] the same object
pinned once (see [Alloc]). *)

Lemma bpa_collect_full_witness :
  heap_repr ex_heap2 [with_ref ex_slice 1] /\
  exists H', bpa_collect ex_heap2 0 = Ok H' /\ h_collect H' = 0 /\
    heap_repr H' (live (cycle_result (h_collect ex_heap2) [with_ref ex_slice 1])) /\
    live (cycle_result (h_collect ex_heap2) [with_ref ex_slice 1]) = live [with_ref ex_slice 1] /\
    h_offset H' = HEAP_HEADER_SIZE + span (live [with_ref ex_slice 1]).
Proof.
  assert (Hr : heap_repr ex_heap2 [with_ref ex_slice 1]) by repr_by_compute.
  split; [done |]. exact (bpa_collect_full ex_heap2 _ Hr).
Defined.

Lemma bpa_collect_step_refines_witness :
  heap_repr ex_heap2 [with_ref ex_slice 1] /\ 1 <> 0 /\
  exists H' sls', bpa_collect ex_heap2 1 = Ok H' /\ heap_repr H' sls' /\
    ((h_collect H' = 0 /\ sls' = cycle_result (h_collect ex_heap2) [with_ref ex_slice 1]) \/
     (h_collect H' <> 0 /\
      cycle_result (h_collect H') sls' = cycle_result (h_collect ex_heap2) [with_ref ex_slice 1])).
Proof.
  assert (Hr : heap_repr ex_heap2 [with_ref ex_slice 1]) by repr_by_compute.
  split_and!; [done | lia |]. exact (bpa_collect_step_refines ex_heap2 _ 1 Hr ltac:(lia)).
Defined.

Lemma collect_negative_step_witness :
  heap_repr ex_heap1 [ex_slice] /\ -1 < 0 /\
  exists H', bpa_collect ex_heap1 (-1) = Ok H' /\ heap_repr H' [ex_slice] /\ h_collect H' <> 0 /\
    h_offset H' = h_offset ex_heap1 /\
    cycle_result (h_collect H') [ex_slice] = cycle_result (h_collect ex_heap1) [ex_slice].
Proof.
  assert (Hr : heap_repr ex_heap1 [ex_slice]) by repr_by_compute.
  split_and!; [exact Hr | lia |]. exact (collect_negative_step ex_heap1 [ex_slice] (-1) Hr ltac:(lia)).
Defined.

Lemma collect_granularity_witness :
  heap_repr ex_heap2 [with_ref ex_slice 1] /\ h_collect ex_heap2 = 0 /\ 0 < 1 /\
  exists H1 H2, collect_by_steps (steps_fuel ex_heap2) 1 ex_heap2 = Ok H1 /\
    bpa_collect ex_heap2 0 = Ok H2 /\ heap_equiv H1 H2.
Proof.
  assert (Hr : heap_repr ex_heap2 [with_ref ex_slice 1]) by repr_by_compute.
  assert (Hc : h_collect ex_heap2 = 0) by reflexivity.
  split_and!; [done | done | lia |]. exact (collect_granularity ex_heap2 _ 1 Hr Hc ltac:(lia)).
Defined.

(** ** An allocation during a paused cycle *)

Section Pause.
Context {M : Type} {MO : WordMemory M} {ML : WordMemoryLaws M}.

(** C23: An object created while a cycle is paused (and not pinned before
    the cycle ends) is reclaimed by that same cycle: [collect] scans up
    to the current [H->offset], not to the bump pointer the cycle started
    with, so the cycle ends with exactly the result it promised before the
    allocation, and the new handle no longer resolves. *)
Theorem create_during_pause_reclaimed (H : heap M) sls sz H1 w k H2 :
  heap_repr H sls -> h_collect H <> 0 -> 0 <= sz < 2 ^ 34 -> bpa_create H sz = (H1, w) ->
  w <> 0 -> k <> 0 -> bpa_collect H1 k = Ok H2 -> h_collect H2 = 0 ->
  heap_repr H2 (cycle_result (h_collect H) sls) /\ bpa_get_ptr H2 w = None.
Proof.
  intros Hr Hc Hsz E Hw Hk E2 Hc2.
  destruct (create_spec _ _ _ _ _ Hr Hsz E Hw) as (_ & Hfresh & body & Hr1).
  assert (Hc1 : h_collect H1 = h_collect H) by (rewrite <- (create_collect H sz), E; done).
  destruct (cursor_split _ _ Hr Hc) as (done & rest & -> & Hcd).
  destruct (collect_step_spec _ _ k Hr1 Hk) as (H2' & sls' & E' & Hr2 & Hpost).
  rewrite E2 in E'. injection E' as <-.
  destruct Hpost as [[_ ->] | [? _]]; [| done].
  rewrite <- app_assoc in Hr1. rewrite Hc1, Hcd, <- app_assoc, (cycle_result_after _ _ _ Hr1) in Hr2.
  rewrite live_app, live_cons_dead, app_nil_r in Hr2 by done.
  rewrite Hcd, (cycle_result_after _ _ _ Hr). split; [done |].
  unfold bpa_get_ptr. rewrite (proj2 (resolve_none _ _ _ Hr2)); [done | right].
  apply Forall_app in Hfresh as [? ?]. apply Forall_app. split; [done |]. by apply Forall_live.
Qed.
End Pause.

(** The instance: on the heap [main] of [testbpa.c] leaves after
    [bpa_collect(H, 1)], a 100-byte object created during the pause
    resolves, and is gone after the next [bpa_collect(H, 1)], which ends
    the cycle. *)
Lemma create_during_pause_reclaimed_witness :
  heap_repr paused_heap (view_of paused_heap) /\ h_collect paused_heap <> 0 /\
  bpa_create paused_heap 100 = (fst paused_create, snd paused_create) /\ snd paused_create <> 0 /\
  bpa_get_ptr (fst paused_create) (snd paused_create) <> None /\
  bpa_collect (fst paused_create) 1 = Ok paused_after /\ h_collect paused_after = 0 /\
  heap_repr paused_after (cycle_result (h_collect paused_heap) (view_of paused_heap)) /\
  bpa_get_ptr paused_after (snd paused_create) = None.
Proof.
  assert (Hr : heap_repr paused_heap (view_of paused_heap)) by repr_by_compute.
  assert (Hc : h_collect paused_heap <> 0) by (vm_compute; discriminate).
  assert (E : bpa_create paused_heap 100 = (fst paused_create, snd paused_create))
    by exact (surjective_pairing _).
  assert (Hw : snd paused_create <> 0) by (vm_compute; discriminate).
  assert (E2 : bpa_collect (fst paused_create) 1 = Ok paused_after)
    by (apply ok_or_Ok; vm_compute; reflexivity).
  assert (Hc2 : h_collect paused_after = 0) by (vm_compute; reflexivity).
  split; [exact Hr |]. split; [exact Hc |]. split; [exact E |]. split; [exact Hw |].
  split; [vm_compute; discriminate |]. split; [exact E2 |]. split; [exact Hc2 |].
  exact (create_during_pause_reclaimed paused_heap _ 100 _ _ 1 _ Hr Hc ltac:(lia) E Hw
           ltac:(discriminate) E2 Hc2).
Defined.
