(* ===== verification/Client.v ===== *)
(** * The client's view: the abstract handle table

    What a client of [src/bpa.h] sees of a heap is a partial map from
    handles to payloads: [lookup sls uid] is the slice of [sls] that
    carries the handle [uid] (none for 0).  [bpa_get_ptr] refines it: on a
    well-formed heap it misses exactly when [lookup] has no slice, and
    otherwise returns a pointer to the payload of that slice.  Through
    this map the effect of a full collection reads as the specification
    states it: released handles disappear, pinned ones keep their bytes. *)

From Stdlib Require Import ZArith Lia.
From stdpp Require Import base gmap list.
From S2P Require Import Prelude Mem Heap Layout Relocate Alloc Collect Scenario CollectLoop CollectSpec.

Definition lookup (sls : list slice) (uid : Z) : option slice :=
  if uid =? 0 then None else List.find (fun sl => sl_id sl =? uid) sls.

(** A client that keeps calling [bpa_collect(H, k)], [n] times. *)
Fixpoint collect_calls {M} `{WordMemory M} (n : nat) (k : Z) (H : heap M) : outcome (heap M) :=
  match n with
  | O => Ok H
  | S n => let! H1 := bpa_collect H k in collect_calls n k H1
  end.

(** A client's sequence of [bpa_create] calls, with the handles returned. *)
Fixpoint create_all {M} `{WordMemory M} (H : heap M) (szs : list Z) : heap M * list Z :=
  match szs with
  | [] => (H, [])
  | sz :: szs =>
      let '(H1, h) := bpa_create H sz in
      let '(H2, hs) := create_all H1 szs in (H2, h :: hs)
  end.

Section Lookup.
Context {M : Type} {MO : WordMemory M} {ML : WordMemoryLaws M}.

(** Two slices of a well-formed heap with the same nonzero id are one. *)
Lemma repr_in_unique (H : heap M) sls x y :
  heap_repr H sls -> In x sls -> In y sls -> sl_id x = sl_id y -> sl_id x <> 0 -> x = y.
Proof.
  intros Hr Hx Hy E Hnz. apply in_split in Hx as (l1 & l2 & ->).
  apply in_split in Hy as (l1' & l2' & Hy).
  by destruct (repr_id_unique _ _ _ _ l1' y l2' Hr Hy E Hnz) as (_ & -> & _).
Qed.

(** The payload words of a slice of a well-formed heap. *)
Lemma repr_payload (H : heap M) l1 sl l2 :
  heap_repr H (l1 ++ sl :: l2) ->
  mem_words (h_mem H) (8 * (HEAP_HEADER_SIZE + span l1) + SIZEOF_SLICE)
    (Z.to_nat (2 * sl_sz sl - 3)) = sl_body sl.
Proof.
  intros (_ & _ & _ & T & _). by destruct (tiles_slice_at _ _ _ _ _ _ T) as [(_ & _ & _ & Hb & _) _].
Qed.

Lemma lookup_unique (H : heap M) sls sl :
  heap_repr H sls -> In sl sls -> sl_id sl <> 0 -> lookup sls (sl_id sl) = Some sl.
Proof.
  intros Hr Hin Hnz. unfold lookup. destruct (Z.eqb_spec (sl_id sl) 0); [done |].
  destruct (List.find _ sls) as [y|] eqn:F.
  - apply find_some in F as [Hy E]. apply Z.eqb_eq in E.
    f_equal. symmetry. apply (repr_in_unique H sls); auto.
  - apply (find_none _ _ F) in Hin. by rewrite Z.eqb_refl in Hin.
Qed.

Lemma lookup_none (sls : list slice) uid :
  lookup sls uid = None <-> uid = 0 \/ Forall (fun sl => sl_id sl <> uid) sls.
Proof.
  unfold lookup. destruct (Z.eqb_spec uid 0) as [-> | Hu]; [split; auto |].
  rewrite Forall_forall. split.
  - intros F. right. intros x Hx%list_elem_of_In E. apply (find_none _ _ F) in Hx.
    rewrite E, Z.eqb_refl in Hx. done.
  - intros [? | Hall]; [done |]. destruct (List.find _ sls) as [y|] eqn:F; [| done].
    apply find_some in F as [Hy E]. apply Z.eqb_eq in E. by apply list_elem_of_In, Hall in Hy.
Qed.

(** The refinement: [bpa_get_ptr] computes [lookup], through the slot
    table and the identity check. *)
Lemma get_ptr_lookup (H : heap M) sls uid :
  heap_repr H sls ->
  match lookup sls uid with
  | None => bpa_get_ptr H uid = None
  | Some sl => exists ptr, bpa_get_ptr H uid = Some ptr /\
                 mem_words (h_mem H) ptr (Z.to_nat (2 * sl_sz sl - 3)) = sl_body sl
  end.
Proof.
  intros Hr. destruct (lookup sls uid) as [x|] eqn:F.
  - unfold lookup in F. destruct (Z.eqb_spec uid 0); [done |].
    apply find_some in F as [Hin E]. apply Z.eqb_eq in E. subst uid.
    apply in_split in Hin as (l1 & l2 & ->).
    exists (8 * (HEAP_HEADER_SIZE + span l1) + SIZEOF_SLICE). unfold bpa_get_ptr.
    rewrite (resolve_mid _ _ _ _ Hr) by done. split; [done |]. by eapply repr_payload.
  - unfold bpa_get_ptr. rewrite (proj2 (resolve_none _ _ _ Hr)); [done |]. by apply lookup_none.
Qed.

(** After a full collection a slice that was unpinned has no entry. *)
Lemma lookup_live_dead (H : heap M) sls sl :
  heap_repr H sls -> In sl sls -> sl_ref sl = 0 -> lookup (live sls) (sl_id sl) = None.
Proof.
  intros Hr Hin Href. apply lookup_none. destruct (decide (sl_id sl = 0)) as [| Hid]; [by left | right].
  apply Forall_forall. intros x Hx%list_elem_of_In E. apply filter_In in Hx as [Hx Hl].
  rewrite (repr_in_unique H sls x sl Hr Hx Hin E ltac:(congruence)), Href in Hl. done.
Qed.


(** C6: refinement of the handle table.  On a well-formed heap,
    [bpa_get_ptr] misses exactly where the abstract map [lookup] has no
    slice, and where it has one it returns a pointer whose words are the
    payload of that slice. *)
Theorem get_ptr_refines (H : heap M) sls uid :
  heap_repr H sls ->
  (lookup sls uid = None <-> bpa_get_ptr H uid = None) /\
  (forall sl, lookup sls uid = Some sl -> exists ptr, bpa_get_ptr H uid = Some ptr /\
     mem_words (h_mem H) ptr (Z.to_nat (2 * sl_sz sl - 3)) = sl_body sl).
Proof.
  intros Hr. pose proof (get_ptr_lookup H sls uid Hr) as G.
  destruct (lookup sls uid) as [x|]; split; try done.
  - destruct G as (ptr & -> & _). done.
  - intros sl [= <-]. done.
Qed.

(** C16: a full collection [bpa_collect(h, 0)] drops every slice whose
    reference count is 0: its handle is gone from the abstract map of the
    collected heap and [bpa_get_ptr] returns NULL for it. *)
Theorem collect_releases_handle (H H' : heap M) sls sl :
  heap_repr H sls -> In sl sls -> sl_ref sl = 0 -> bpa_collect H 0 = Ok H' ->
  lookup (live sls) (sl_id sl) = None /\ bpa_get_ptr H' (sl_id sl) = None.
Proof.
  intros Hr Hin Href E. destruct (bpa_collect_zero_spec _ _ Hr) as (H'' & E' & _ & _ & _ & Hr').
  rewrite E in E'. injection E' as <-.
  pose proof (lookup_live_dead H sls sl Hr Hin Href) as L. split; [done |].
  pose proof (get_ptr_lookup H' _ (sl_id sl) Hr') as G. by rewrite L in G.
Qed.

Lemma pinned_after_collect (H H' : heap M) sls sl :
  heap_repr H sls -> In sl sls -> sl_ref sl <> 0 -> bpa_collect H 0 = Ok H' ->
  lookup (live sls) (sl_id sl) = Some sl /\
  exists ptr, bpa_get_ptr H' (sl_id sl) = Some ptr /\
    mem_words (h_mem H') ptr (Z.to_nat (2 * sl_sz sl - 3)) = sl_body sl.
Proof.
  intros Hr Hin Href E. destruct (bpa_collect_zero_spec _ _ Hr) as (H'' & E' & _ & _ & _ & Hr').
  rewrite E in E'. injection E' as <-.
  assert (Hid : sl_id sl <> 0).
  { apply in_split in Hin as (l1 & l2 & ->).
    destruct (repr_slice_ok _ _ _ _ Hr) as (_ & Hz & _). intros E0. by apply Href, Hz. }
  assert (L : lookup (live sls) (sl_id sl) = Some sl).
  { apply (lookup_unique H' (live sls)); [done | | done].
    apply filter_In. split; [done |]. by apply Z.eqb_neq in Href; rewrite Href. }
  split; [done |]. pose proof (get_ptr_lookup H' _ (sl_id sl) Hr') as G. by rewrite L in G.
Qed.

(** C17: a full collection keeps every pinned slice: its handle still maps
    to that slice, and [bpa_get_ptr] on the collected heap points at its
    unchanged payload. *)
Theorem collect_keeps_pinned (H H' : heap M) sls sl :
  heap_repr H sls -> In sl sls -> sl_ref sl <> 0 -> bpa_collect H 0 = Ok H' ->
  lookup (live sls) (sl_id sl) = Some sl /\
  exists ptr, bpa_get_ptr H' (sl_id sl) = Some ptr /\
    mem_words (h_mem H') ptr (Z.to_nat (2 * sl_sz sl - 3)) = sl_body sl.
Proof. apply pinned_after_collect. Qed.
(** ** Calls of [bpa_collect] in a row *)

Lemma collect_calls_app n m k (H H1 : heap M) :
  collect_calls n k H = Ok H1 -> collect_calls (n + m) k H = collect_calls m k H1.
Proof.
  revert H. induction n as [|n IH]; intros H E; simpl in *; [by injection E as <- |].
  destruct (bpa_collect H k); simpl in *; try done. by apply IH.
Qed.

Lemma by_steps_calls fuel k (H H' : heap M) :
  collect_by_steps fuel k H = Ok H' -> exists n, collect_calls n k H = Ok H'.
Proof.
  revert H. induction fuel as [|fuel IH]; intros H E; simpl in E; [done |].
  destruct (bpa_collect H k) as [H1 | |] eqn:E1; simpl in E; try done.
  destruct (h_collect H1 =? 0).
  - injection E as <-. exists 1%nat. simpl. by rewrite E1.
  - destruct (IH _ E) as [n En]. exists (S n). simpl. by rewrite E1.
Qed.

(** Every heap is idle or paused after the slices [done]. *)
Lemma cycle_start (H : heap M) sls :
  heap_repr H sls -> exists done rest, sls = done ++ rest /\
    (h_collect H = HEAP_HEADER_SIZE + span done \/ (h_collect H = 0 /\ done = [])).
Proof.
  intros Hr. destruct (decide (h_collect H = 0)) as [Hc | Hc].
  - exists [], sls. auto.
  - destruct (cursor_split _ _ Hr Hc) as (done & rest & -> & ?). eauto.
Qed.

(** A caller's loop [bpa_collect(H, k)] until the cursor is back to 0 ends
    the cycle, within [n] calls of [collect_calls]. *)
Lemma calls_end_cycle (H : heap M) done rest k :
  heap_repr H (done ++ rest) ->
  (h_collect H = HEAP_HEADER_SIZE + span done \/ (h_collect H = 0 /\ done = [])) -> 0 < k ->
  exists n H', collect_calls n k H = Ok H' /\ h_collect H' = 0 /\ heap_repr H' (done ++ live rest).
Proof.
  intros Hr Hc Hk. pose proof (span_ge_length _ (proj2 (proj1 (Forall_app _ _ _) (repr_sizes _ _ Hr)))).
  destruct (collect_by_steps_spec (S (Z.to_nat (sweep_measure rest))) _ _ _ k Hr Hc Hk)
    as (H' & E & _ & _ & Hc' & Hr'); [unfold sweep_measure in *; lia |].
  destruct (by_steps_calls _ _ _ _ E) as [n En]. eauto.
Qed.
(** C7: Liveness of reclamation: a client that keeps calling
    [bpa_collect(H, k)] with [k > 0] (the incremental mode testbpa uses)
    eventually reaches a heap holding exactly the pinned slices, where
    [bpa_get_ptr] returns NULL for every slice that was unpinned, whatever
    phase the cycle was in.  A slice the paused cycle has already passed
    is swept by the next cycle. *)
Theorem released_eventually_reclaimed (H : heap M) sls sl k :
  heap_repr H sls -> In sl sls -> sl_ref sl = 0 -> 0 < k ->
  exists n H', collect_calls n k H = Ok H' /\ heap_repr H' (live sls) /\
    bpa_get_ptr H' (sl_id sl) = None.
Proof.
  intros Hr Hin Href Hk. pose proof (lookup_live_dead H sls sl Hr Hin Href) as L.
  destruct (cycle_start _ _ Hr) as (done & rest & -> & Hc).
  destruct (calls_end_cycle _ _ _ _ Hr Hc Hk) as (n1 & H1 & E1 & Hc1 & Hr1).
  destruct (calls_end_cycle H1 [] (done ++ live rest) k Hr1 (or_intror (conj Hc1 eq_refl)) Hk)
    as (n2 & H2 & E2 & _ & Hr2).
  rewrite app_nil_l, live_app, live_idem, <- live_app in Hr2.
  exists (n1 + n2)%nat, H2. rewrite (collect_calls_app _ _ _ _ _ E1). split_and!; [done | done |].
  pose proof (get_ptr_lookup H2 _ (sl_id sl) Hr2) as G. by rewrite L in G.
Qed.

(** ** A sequence of allocations *)

(** Ids of slices at two different places of a well-formed heap differ. *)
Lemma repr_ids_disjoint (H : heap M) l1 l2 x y :
  heap_repr H (l1 ++ l2) -> In x l1 -> In y l2 -> sl_id y <> 0 -> sl_id x <> sl_id y.
Proof.
  intros Hr Hx Hy Hnz E. apply in_split in Hx as (a & b & ->). apply in_split in Hy as (c & d & ->).
  assert (Eq : (a ++ x :: b) ++ c ++ y :: d = a ++ x :: (b ++ c ++ y :: d)) by (by rewrite <- app_assoc).
  assert (Eq' : a ++ x :: (b ++ c ++ y :: d) = (a ++ x :: b ++ c) ++ y :: d)
    by (rewrite <- app_assoc; simpl; by rewrite <- app_assoc).
  rewrite Eq in Hr. destruct (repr_id_unique _ _ _ _ _ _ _ Hr Eq' E ltac:(congruence)) as (Ea & _).
  apply (f_equal length) in Ea. rewrite length_app in Ea. simpl in Ea. lia.
Qed.

Lemma repr_ids_nodup (H : heap M) l1 l2 :
  heap_repr H (l1 ++ l2) -> Forall (fun sl => sl_id sl <> 0) l2 -> NoDup (map sl_id l2).
Proof.
  revert l1. induction l2 as [|y l2 IH]; intros l1 Hr Hnz; simpl; [constructor |].
  inversion Hnz as [|? ? Hy Hnz']; subst. constructor.
  - intros (z & Ez & Hz)%list_elem_of_In%in_map_iff.
    apply (repr_ids_disjoint H (l1 ++ [y]) l2 y z); [by rewrite <- app_assoc | apply in_app_iff; simpl; auto
      | done | by rewrite Forall_forall in Hnz'; apply Hnz', list_elem_of_In | done].
  - apply (IH (l1 ++ [y])); [by rewrite <- app_assoc | done].
Qed.

(** [create_all] appends one slice of pin count 0 per nonzero handle. *)
Lemma create_all_spec (H : heap M) sls szs :
  heap_repr H sls -> Forall (fun sz => 0 <= sz < 2 ^ 34) szs ->
  exists sls', heap_repr (fst (create_all H szs)) (sls ++ sls') /\
    map sl_id sls' = filter (fun h => h <> 0) (snd (create_all H szs)).
Proof.
  revert H sls. induction szs as [|sz szs IH]; intros H sls Hr Hszs; simpl.
  - exists []. by rewrite app_nil_r.
  - inversion Hszs as [|? ? Hsz Hszs']; subst.
    destruct (bpa_create H sz) as [H1 h] eqn:E.
    destruct (create_all H1 szs) as [H2 hs] eqn:E2. simpl.
    destruct (decide (h = 0)) as [-> | Hh].
    + destruct (IH H1 sls (bpa_create_fail _ _ _ _ Hr E) Hszs') as (sls' & Hr' & Hm).
      rewrite E2 in Hr', Hm. exists sls'. rewrite filter_cons_False by auto. done.
    + destruct (create_spec _ _ _ _ _ Hr Hsz E Hh) as (_ & _ & body & Hr1).
      destruct (IH H1 _ Hr1 Hszs') as (sls' & Hr' & Hm). rewrite E2 in Hr', Hm.
      exists (mk_slice 0 (reserved_size sz) body h :: sls').
      rewrite <- app_assoc in Hr'. split; [done |]. rewrite filter_cons_True by done. simpl. by f_equal.
Qed.

(** C11: Fresh handles: the nonzero handles a sequence of [bpa_create]
    calls returns are pairwise distinct, none of them is a handle of the
    heap before the calls, and each resolves through [bpa_get_ptr] in the
    heap after the calls. *)
Theorem create_all_distinct (H : heap M) sls szs :
  heap_repr H sls -> Forall (fun sz => 0 <= sz < 2 ^ 34) szs ->
  NoDup (filter (fun h => h <> 0) (snd (create_all H szs))) /\
  Forall (fun h => lookup sls h = None /\ bpa_get_ptr (fst (create_all H szs)) h <> None)
    (filter (fun h => h <> 0) (snd (create_all H szs))).
Proof.
  intros Hr Hszs. destruct (create_all_spec _ _ _ Hr Hszs) as (sls' & Hr' & Hm). rewrite <- Hm.
  assert (Hnz : Forall (fun sl => sl_id sl <> 0) sls').
  { apply Forall_forall. intros y Hy. assert (Hin : sl_id y ∈ map sl_id sls')
      by (apply list_elem_of_In, in_map, list_elem_of_In; done).
    rewrite Hm in Hin. by apply list_elem_of_filter in Hin as [? _]. }
  split; [by apply (repr_ids_nodup _ sls _ Hr') |].
  apply Forall_forall. intros h (y & <- & Hy)%list_elem_of_In%in_map_iff.
  rewrite Forall_forall in Hnz. pose proof (Hnz y (proj2 (list_elem_of_In _ _) Hy)) as Hy0. split.
  - apply lookup_none. right. apply Forall_forall. intros x Hx%list_elem_of_In.
    exact (repr_ids_disjoint _ _ _ x y Hr' Hx Hy Hy0).
  - assert (L : lookup (sls ++ sls') (sl_id y) = Some y)
      by (apply (lookup_unique _ _ _ Hr'); [apply in_app_iff; auto | done]).
    pose proof (get_ptr_lookup _ _ (sl_id y) Hr') as G. rewrite L in G.
    by destruct G as (ptr & -> & _).
Qed.
End Lookup.

(** ** Witnesses on the heaps of [Alloc] *)

Definition ex_collected1 : heap gmem :=
  match bpa_collect ex_heap1 0 with Ok h => h | _ => ex_heap1 end.
Definition ex_collected2 : heap gmem :=
  match bpa_collect ex_heap2 0 with Ok h => h | _ => ex_heap2 end.

Lemma get_ptr_refines_witness :
  heap_repr ex_heap1 [ex_slice] /\
  (lookup [ex_slice] 1 = None <-> bpa_get_ptr ex_heap1 1 = None) /\
  (forall sl, lookup [ex_slice] 1 = Some sl -> exists ptr, bpa_get_ptr ex_heap1 1 = Some ptr /\
     mem_words (h_mem ex_heap1) ptr (Z.to_nat (2 * sl_sz sl - 3)) = sl_body sl).
Proof.
  assert (Hr : heap_repr ex_heap1 [ex_slice]) by repr_by_compute.
  split; [exact Hr | apply (get_ptr_refines ex_heap1 [ex_slice] 1 Hr)].
Defined.

Lemma collect_releases_handle_witness :
  heap_repr ex_heap1 [ex_slice] /\ bpa_collect ex_heap1 0 = Ok ex_collected1 /\
  lookup (live [ex_slice]) (sl_id ex_slice) = None /\ bpa_get_ptr ex_collected1 (sl_id ex_slice) = None.
Proof.
  assert (Hr : heap_repr ex_heap1 [ex_slice]) by repr_by_compute.
  assert (E : bpa_collect ex_heap1 0 = Ok ex_collected1) by (vm_compute; reflexivity).
  split; [exact Hr | split; [exact E |]].
  apply (collect_releases_handle ex_heap1 ex_collected1 [ex_slice] ex_slice Hr); [by left | done | exact E].
Defined.

Lemma collect_keeps_pinned_witness :
  heap_repr ex_heap2 [with_ref ex_slice 1] /\ bpa_collect ex_heap2 0 = Ok ex_collected2 /\
  lookup (live [with_ref ex_slice 1]) (sl_id (with_ref ex_slice 1)) = Some (with_ref ex_slice 1) /\
  exists ptr, bpa_get_ptr ex_collected2 (sl_id (with_ref ex_slice 1)) = Some ptr /\
    mem_words (h_mem ex_collected2) ptr (Z.to_nat (2 * sl_sz (with_ref ex_slice 1) - 3)) =
      sl_body (with_ref ex_slice 1).
Proof.
  assert (Hr : heap_repr ex_heap2 [with_ref ex_slice 1]) by repr_by_compute.
  assert (E : bpa_collect ex_heap2 0 = Ok ex_collected2) by (vm_compute; reflexivity).
  split; [exact Hr | split; [exact E |]].
  apply (collect_keeps_pinned ex_heap2 ex_collected2 _ _ Hr); [by left | done | exact E].
Defined.

Lemma create_all_distinct_witness :
  heap_repr ex_heap0 [] /\ Forall (fun sz => 0 <= sz < 2 ^ 34) [100; 200; 300] /\
  NoDup (filter (fun h => h <> 0) (snd (create_all ex_heap0 [100; 200; 300]))) /\
  Forall (fun h => lookup [] h = None /\ bpa_get_ptr (fst (create_all ex_heap0 [100; 200; 300])) h <> None)
    (filter (fun h => h <> 0) (snd (create_all ex_heap0 [100; 200; 300]))).
Proof.
  assert (Hr : heap_repr ex_heap0 []) by repr_by_compute.
  assert (Hs : Forall (fun sz => 0 <= sz < 2 ^ 34) [100; 200; 300]) by (repeat constructor; lia).
  split_and!; [exact Hr | exact Hs | |]; apply (create_all_distinct ex_heap0 [] _ Hr Hs).
Defined.

Lemma released_eventually_reclaimed_witness :
  heap_repr ex_heap1 [ex_slice] /\ In ex_slice [ex_slice] /\ sl_ref ex_slice = 0 /\ 0 < 1 /\
  exists n H', collect_calls n 1 ex_heap1 = Ok H' /\ heap_repr H' (live [ex_slice]) /\
    bpa_get_ptr H' (sl_id ex_slice) = None.
Proof.
  assert (Hr : heap_repr ex_heap1 [ex_slice]) by repr_by_compute.
  split_and!; [exact Hr | by left | done | lia |].
  apply (released_eventually_reclaimed ex_heap1 [ex_slice] ex_slice 1 Hr); [by left | done | lia].
Defined.
