(* ===== verification/Payload.v ===== *)
(** * The payload through a handle ([src/testbpa.c], [set_id] and [dump_id])

    A client writes an object's payload through the pointer
    [bpa_get_ptr] returns ([set_id]: [memset] over the buffer) and reads
    it back byte by byte the same way ([dump_id]).  On a well-formed heap
    a [memset] of at most the payload's [8 sz - 12] bytes changes only
    the payload of that slice ([heap_repr_memset]); reading the bytes
    back through the handle returns [(char) (unsigned char) v] for each
    ([set_id_roundtrip]), also after the object was pinned and moved by a
    full collection ([write_pin_collect_read]). *)

From Stdlib Require Import ZArith Lia.
From stdpp Require Import base gmap list.
From S2P Require Import Prelude Mem Heap Layout Relocate Alloc Collect Scenario CollectSpec Client.

(** The slice with its payload words replaced. *)
Definition with_body (sl : slice) (b : list Z) : slice := mk_slice (sl_ref sl) (sl_sz sl) b (sl_id sl).

(** The payload words [body] after [memset] of its first [s] bytes to
    [v]: whole words, then a word whose [s mod 4] low bytes change. *)
Definition memset_body (body : list Z) (v s : Z) : list Z :=
  let w := memset_word v in
  let k := Z.to_nat (s / 4) in
  if s mod 4 =? 0 then repeat w k ++ drop k body
  else repeat w k ++ byte_merge (nth k body 0) w (s mod 4) :: drop (S k) body.

Section Fill.
Context {M : Type} {MO : WordMemory M} {ML : WordMemoryLaws M}.

(** [memset] of [k] words from [a] leaves every byte outside
    [[a, a + 4 k)] alone. *)
Lemma mem_fill_agree_out (m : M) a w k lo hi :
  a + 4 * Z.of_nat k <= lo \/ hi <= a -> mem_agree lo hi (mem_fill m a w k) m.
Proof.
  revert m a. induction k as [|k IH]; intros m a Hout; simpl; [done |].
  transitivity (mem_store m a w); [apply IH; lia | apply mem_agree_store_out; lia].
Qed.

Lemma mem_words_fill (m : M) a w k : mem_words (mem_fill m a w k) a k = repeat w k.
Proof.
  revert m a. induction k as [|k IH]; intros m a; simpl; [done |].
  rewrite IH. f_equal. rewrite (mem_fill_agree_out _ _ _ _ a (a + 1)) by lia.
  apply load_store_eq.
Qed.

(** Reading fewer words reads a prefix. *)
Lemma mem_words_prefix (m : M) a k n :
  (k <= n)%nat -> mem_words m a k = take k (mem_words m a n).
Proof.
  intros Hk. replace n with (k + (n - k))%nat by lia.
  rewrite mem_words_app, take_app_length'; [done | by rewrite length_mem_words].
Qed.

Lemma slice_at_fill (m : M) o sl w k :
  slice_at m o sl -> (k <= Z.to_nat (2 * sl_sz sl - 3))%nat ->
  slice_at (mem_fill m (8 * o + 8) w k) o (with_body sl (repeat w k ++ drop k (sl_body sl))).
Proof.
  intros (Hsz & Hr & Hs & Hb & Hi) Hk. unfold slice_at, with_body; simpl.
  split_and!; [done | | | |].
  - rewrite (mem_fill_agree_out _ _ _ _ (8 * o) (8 * o + 1)); [done | lia | lia].
  - rewrite (mem_fill_agree_out _ _ _ _ (8 * o + 4) (8 * o + 5)); [done | lia | lia].
  - rewrite <- Hb.
    replace (Z.to_nat (2 * sl_sz sl - 3)) with (k + (Z.to_nat (2 * sl_sz sl - 3) - k))%nat by lia.
    rewrite !mem_words_app, mem_words_fill. f_equal.
    rewrite drop_app_length' by (symmetry; apply length_mem_words).
    apply mem_words_agree, mem_fill_agree_out. lia.
  - rewrite (mem_fill_agree_out _ _ _ _ (8 * o + 8 * sl_sz sl - 4) (8 * o + 8 * sl_sz sl - 3));
      [done | lia | lia].
Qed.

Lemma mem_words_nth (m : M) a n i :
  (i < n)%nat -> nth i (mem_words m a n) 0 = mem_load m (a + 4 * Z.of_nat i).
Proof.
  revert a i. induction n as [|n IH]; intros a [|i] Hi; simpl; try lia; [by rewrite Z.add_0_r |].
  rewrite IH by lia. f_equal. lia.
Qed.

(** A store to the [i]-th word of a range updates that word of the list. *)
Lemma mem_words_store_in (m : M) a n i v :
  (i < n)%nat -> mem_words (mem_store m (a + 4 * Z.of_nat i) v) a n = <[i := v]> (mem_words m a n).
Proof.
  revert a i. induction n as [|n IH]; intros a [|i] Hi; simpl; try lia.
  - rewrite Z.add_0_r, load_store_eq. f_equal. apply mem_words_agree, mem_agree_store_out. lia.
  - rewrite load_store_ne by lia. f_equal.
    replace (a + 4 * Z.of_nat (S i)) with (a + 4 + 4 * Z.of_nat i) by lia. apply IH. lia.
Qed.

Lemma slice_at_store_body (m : M) o sl i v :
  slice_at m o sl -> (i < Z.to_nat (2 * sl_sz sl - 3))%nat ->
  slice_at (mem_store m (8 * o + 8 + 4 * Z.of_nat i) v) o (with_body sl (<[i := v]> (sl_body sl))).
Proof.
  intros (Hsz & Hr & Hs & Hb & Hi) Hlt. unfold slice_at, with_body; simpl.
  rewrite !load_store_ne by lia. split_and!; try done. rewrite <- Hb. by apply mem_words_store_in.
Qed.

(** The word after [k] whole words of the pattern. *)
Lemma splice_word (body : list Z) w k x :
  (k < length body)%nat ->
  <[k := x]> (repeat w k ++ drop k body) = repeat w k ++ x :: drop (S k) body /\
  nth k (repeat w k ++ drop k body) 0 = nth k body 0.
Proof.
  revert body. induction k as [|k IH]; intros [|y body] Hk; simpl in *; try lia; [done |].
  destruct (IH body ltac:(lia)) as [E1 E2]. by rewrite E1, E2.
Qed.

(** [memset] of at most the payload's bytes writes only the payload. *)
Lemma slice_at_memset (m : M) o sl v s :
  slice_at m o sl -> 0 <= s <= 4 * (2 * sl_sz sl - 3) ->
  slice_at (memset m (8 * o + 8) v s) o (with_body sl (memset_body (sl_body sl) v s)).
Proof.
  intros Hsl Hs. pose proof Hsl as (Hsz & _ & _ & Hb & _).
  assert (Hk : (Z.to_nat (s / 4) <= Z.to_nat (2 * sl_sz sl - 3))%nat) by (Z.div_mod_to_equations; lia).
  pose proof (slice_at_fill m o sl (memset_word v) _ Hsl Hk) as Hf.
  unfold memset, memset_body. destruct (Z.eqb_spec (s mod 4) 0) as [E | E]; [exact Hf |].
  assert (Hk' : (Z.to_nat (s / 4) < Z.to_nat (2 * sl_sz sl - 3))%nat) by (Z.div_mod_to_equations; lia).
  set (m1 := mem_fill m (8 * o + 8) (memset_word v) (Z.to_nat (s / 4))) in *.
  set (x := byte_merge (mem_load m1 (8 * o + 8 + 4 * (s / 4))) (memset_word v) (s mod 4)).
  pose proof (slice_at_store_body _ _ _ (Z.to_nat (s / 4)) x Hf Hk') as Hst.
  rewrite Z2Nat.id in Hst by (Z.div_mod_to_equations; lia).
  assert (Hlen : length (sl_body sl) = Z.to_nat (2 * sl_sz sl - 3)) by (rewrite <- Hb; apply length_mem_words).
  destruct (splice_word (sl_body sl) (memset_word v) (Z.to_nat (s / 4)) x ltac:(lia)) as [E1 E2].
  cbn [with_body sl_body] in Hst. rewrite E1 in Hst.
  assert (Ex : mem_load m1 (8 * o + 8 + 4 * (s / 4)) = nth (Z.to_nat (s / 4)) (sl_body sl) 0).
  { destruct Hf as (_ & _ & _ & Hbf & _). cbn [with_body sl_body sl_sz] in Hbf.
    rewrite <- E2, <- Hbf, mem_words_nth by lia. f_equal. rewrite Z2Nat.id by (Z.div_mod_to_equations; lia). lia. }
  fold x. replace (byte_merge (nth (Z.to_nat (s / 4)) (sl_body sl) 0) (memset_word v) (s mod 4)) with x
    by (unfold x; by rewrite Ex).
  exact Hst.
Qed.

(** [memset(a, v, s)] leaves every byte outside [[a, a + 4 ceil(s/4))] alone. *)
Lemma memset_agree_out (m : M) a v s lo hi :
  0 <= s -> a + 4 * ((s + 3) / 4) <= lo \/ hi <= a -> mem_agree lo hi (memset m a v s) m.
Proof.
  intros Hs Hout. unfold memset.
  assert (0 <= s / 4) by (Z.div_mod_to_equations; lia).
  destruct (Z.eqb_spec (s mod 4) 0) as [E | E].
  - apply mem_fill_agree_out. rewrite Z2Nat.id by lia. Z.div_mod_to_equations. lia.
  - apply mem_agree_store_l; [apply mem_fill_agree_out; rewrite Z2Nat.id by lia |];
      Z.div_mod_to_equations; lia.
Qed.

Lemma tiles_memset (m : M) a l1 sl l2 b v s :
  tiles m a (l1 ++ sl :: l2) b -> 0 <= s <= 4 * (2 * sl_sz sl - 3) ->
  tiles (memset m (8 * (a + span l1) + 8) v s) a
    (l1 ++ with_body sl (memset_body (sl_body sl) v s) :: l2) b.
Proof.
  intros T Hs. destruct (tiles_slice_at _ _ _ _ _ _ T) as [Hsl _]. pose proof Hsl as [? _].
  eapply tiles_replace; [exact T | by apply slice_at_memset | done | |];
    apply memset_agree_out; try lia; Z.div_mod_to_equations; lia.
Qed.

Lemma shape_with_body l1 sl l2 b :
  shape (l1 ++ with_body sl b :: l2) = shape (l1 ++ sl :: l2).
Proof. by rewrite !shape_app. Qed.

(** A [memset] of at most the payload's bytes keeps the abstract view,
    with that payload updated. *)
Lemma heap_repr_memset (H : heap M) l1 sl l2 v s :
  heap_repr H (l1 ++ sl :: l2) -> 0 <= s <= 4 * (2 * sl_sz sl - 3) ->
  heap_repr (set_mem (memset (h_mem H) (8 * (HEAP_HEADER_SIZE + span l1) + 8) v s) H)
            (l1 ++ with_body sl (memset_body (sl_body sl) v s) :: l2).
Proof.
  intros (? & ? & ? & T & Hc & Hok & Hslots) Hs. unfold heap_repr; simpl.
  do 3 (split; [done |]). split; [by apply tiles_memset |]. split; [| split].
  - intros Hc0. apply (boundary_shape _ (l1 ++ sl :: l2)); [by rewrite shape_with_body | auto].
  - apply Forall_app in Hok as [? Hok2]. inversion Hok2 as [|? ? Hsl]. apply Forall_app.
    split; [done |]. constructor; [| done]. destruct Hsl as (? & ? & ?). unfold slice_ok; simpl. auto.
  - by rewrite (ids_at_shape _ _ (l1 ++ sl :: l2)) by apply shape_with_body.
Qed.
End Fill.

(** ** The bytes [memset] leaves *)

Lemma byte_at_pattern b j : 0 <= b < 256 -> 0 <= j < 4 -> byte_at (b * 16843009) j = b.
Proof.
  intros Hb Hj. apply Z.eqb_eq.
  assert (Hin : In b (seqZ 0 256)) by (apply list_elem_of_In, elem_of_seqZ; lia).
  assert (Hj' : j = 0 \/ j = 1 \/ j = 2 \/ j = 3) by lia. clear Hb Hj. revert b Hin.
  destruct Hj' as [-> | [-> | [-> | ->]]]; apply forallb_forall; vm_compute; reflexivity.
Qed.

(** The [r] low bytes of a merged word come from the new word. *)
Lemma byte_at_merge old w r j : 0 <= j < r -> r <= 4 -> byte_at (byte_merge old w r) j = byte_at w j.
Proof.
  intros Hj Hr. unfold byte_at, byte_merge. change 255 with (Z.ones 8).
  apply Z.bits_inj'. intros n Hn.
  rewrite !Z.land_spec, !Z.shiftr_spec, Z.lor_spec, !Z.land_spec, Z.lnot_spec by lia.
  destruct (Z_lt_le_dec n 8).
  - rewrite !Z.ones_spec_low by lia. by destruct (Z.testbit old _), (Z.testbit w _).
  - rewrite (Z.ones_spec_high 8 n) by lia. by rewrite !andb_false_r.
Qed.

Lemma word_bytes_pattern v : word_bytes (memset_word v) = repeat (v mod 256) 4.
Proof.
  unfold word_bytes, memset_word. pose proof (Z.mod_pos_bound v 256 ltac:(lia)).
  simpl. rewrite !byte_at_pattern by lia. reflexivity.
Qed.

Lemma words_bytes_app l1 l2 : words_bytes (l1 ++ l2) = words_bytes l1 ++ words_bytes l2.
Proof. unfold words_bytes. by rewrite map_app, concat_app. Qed.

Lemma words_bytes_repeat v k :
  words_bytes (repeat (memset_word v) k) = repeat (v mod 256) (4 * k).
Proof.
  induction k as [|k IH]; [done |]. replace (4 * S k)%nat with (4 + 4 * k)%nat by lia.
  rewrite repeat_app, <- IH, <- word_bytes_pattern. reflexivity.
Qed.

(** The first [s] bytes of the payload after [memset]: [s] times the
    byte [(unsigned char) v]. *)
Lemma memset_bytes body v s :
  0 <= s -> take (Z.to_nat s) (words_bytes (memset_body body v s)) = repeat (v mod 256) (Z.to_nat s).
Proof.
  intros Hs. unfold memset_body. pose proof (Z.mod_pos_bound s 4 ltac:(lia)).
  destruct (Z.eqb_spec (s mod 4) 0) as [E | E]; rewrite words_bytes_app, words_bytes_repeat.
  - replace (Z.to_nat s) with (4 * Z.to_nat (s / 4))%nat by (Z.div_mod_to_equations; lia).
    rewrite take_app_length'; [done | by rewrite repeat_length].
  - replace (Z.to_nat s) with (4 * Z.to_nat (s / 4) + Z.to_nat (s mod 4))%nat
      by (Z.div_mod_to_equations; lia).
    rewrite take_app_add' by (by rewrite repeat_length). rewrite repeat_app. f_equal.
    unfold words_bytes. simpl. unfold word_bytes. simpl.
    assert (Hb : forall j, 0 <= j < s mod 4 ->
      byte_at (byte_merge (nth (Z.to_nat (s / 4)) body 0) (memset_word v) (s mod 4)) j = v mod 256).
    { intros j Hj. rewrite byte_at_merge by lia. unfold memset_word.
      apply byte_at_pattern; [apply Z.mod_pos_bound |]; lia. }
    assert (Hr : s mod 4 = 1 \/ s mod 4 = 2 \/ s mod 4 = 3) by lia.
    destruct Hr as [Hr | [Hr | Hr]]; rewrite Hr in Hb |- *; simpl; rewrite ?Hb by lia; reflexivity.
Qed.

Section Roundtrip.
Context {M : Type} {MO : WordMemory M} {ML : WordMemoryLaws M}.

(** What [dump_id] reads from a payload a [memset] wrote. *)
Lemma read_memset_body (m : M) ptr body v s :
  ptr mod 4 = 0 -> mem_words m ptr (length body) = memset_body body v s ->
  0 <= s <= 4 * Z.of_nat (length body) ->
  map to_int8 (mem_bytes m ptr (Z.to_nat s)) = repeat (to_int8 (v mod 256)) (Z.to_nat s).
Proof.
  intros Ha Hw Hs. rewrite (mem_bytes_prefix _ _ _ (4 * length body)) by lia.
  rewrite mem_bytes_words, Hw, memset_bytes by (done || lia). apply map_repeat.
Qed.

(** [bpa_get_ptr] returns word-aligned pointers: [HEAP_SLICE] is a
    multiple of 8. *)
Lemma get_ptr_aligned (H : heap M) uid p : bpa_get_ptr H uid = Some p -> p mod 4 = 0.
Proof.
  unfold bpa_get_ptr. destruct (resolve H uid) as [q|] eqn:R; [| done]. intros [= <-].
  unfold resolve in R. destruct (slot_of H uid =? 0); [done |].
  destruct (_ =? uid); [| done]. injection R as <-.
  unfold HEAP_SLICE, wrap32, SIZEOF_SLICE, ALIGN_SIZE. Z.div_mod_to_equations. lia.
Qed.

Lemma set_id_spec (H : heap M) l1 sl l2 v s :
  heap_repr H (l1 ++ sl :: l2) -> sl_id sl <> 0 -> 0 <= s <= 4 * (2 * sl_sz sl - 3) ->
  exists H', set_id H (sl_id sl) v s = Ok H' /\
    heap_repr H' (l1 ++ with_body sl (memset_body (sl_body sl) v s) :: l2) /\
    dump_id H' (sl_id sl) s = (sl_id sl, Some (repeat (to_int8 (v mod 256)) (Z.to_nat s))).
Proof.
  intros Hr Hid Hs.
  pose proof (heap_repr_memset H l1 sl l2 v s Hr Hs) as Hr'.
  pose proof (resolve_mid _ _ _ _ Hr' Hid) as R. cbn [sl_id with_body] in R.
  assert (Hlen : length (sl_body sl) = Z.to_nat (2 * sl_sz sl - 3))
    by (rewrite <- (repr_payload _ _ _ _ Hr); apply length_mem_words).
  pose proof (repr_payload _ _ _ _ Hr') as Hw. cbn [sl_sz sl_body with_body] in Hw.
  eexists. unfold set_id, bpa_get_ptr. rewrite (resolve_mid _ _ _ _ Hr Hid).
  split_and!; [reflexivity | exact Hr' |].
  unfold dump_id, bpa_get_ptr, SIZEOF_SLICE. rewrite R. do 2 f_equal.
  apply (read_memset_body _ _ (sl_body sl)); [Z.div_mod_to_equations; lia | by rewrite Hlen | lia].
Qed.

(** C10: Write then read through a handle (specification, section 8): on a
    well-formed heap, [set_id] of at most the payload's [8 sz - 12] bytes
    through a live handle succeeds, keeps the heap well formed with only
    that payload changed, and [dump_id] through the same handle then
    reads back [s] times the byte [(char) (unsigned char) v]. *)
Theorem set_id_roundtrip (H : heap M) l1 sl l2 v s :
  heap_repr H (l1 ++ sl :: l2) -> sl_id sl <> 0 -> 0 <= s <= 4 * (2 * sl_sz sl - 3) ->
  exists H', set_id H (sl_id sl) v s = Ok H' /\
    heap_repr H' (l1 ++ with_body sl (memset_body (sl_body sl) v s) :: l2) /\
    dump_id H' (sl_id sl) s = (sl_id sl, Some (repeat (to_int8 (v mod 256)) (Z.to_nat s))).
Proof. apply set_id_spec. Qed.

(** C9: Pinned data survive compaction (specification, section 8): bytes
    written through a handle with [set_id], then pinned with [bpa_grab],
    are read back unchanged by [dump_id] through the same handle after a
    full [bpa_collect(H, 0)] has moved the object. *)
Theorem write_pin_collect_read (H H1 H3 : heap M) l1 sl l2 v s :
  heap_repr H (l1 ++ sl :: l2) -> sl_id sl <> 0 -> 0 <= s <= 4 * (2 * sl_sz sl - 3) ->
  set_id H (sl_id sl) v s = Ok H1 -> bpa_collect (fst (bpa_grab H1 (sl_id sl))) 0 = Ok H3 ->
  dump_id H3 (sl_id sl) s = (sl_id sl, Some (repeat (to_int8 (v mod 256)) (Z.to_nat s))).
Proof.
  intros Hr Hid Hs E1 E3.
  destruct (set_id_spec H l1 sl l2 v s Hr Hid Hs) as (H1' & E1' & Hr1 & _).
  rewrite E1 in E1'. injection E1' as <-.
  assert (Hlen : length (sl_body sl) = Z.to_nat (2 * sl_sz sl - 3))
    by (rewrite <- (repr_payload _ _ _ _ Hr); apply length_mem_words).
  set (sl1 := with_body sl (memset_body (sl_body sl) v s)) in *.
  destruct (grab_spec H1 l1 sl1 l2 Hr1 Hid) as (H2 & Eg & Hr2).
  change (sl_id sl1) with (sl_id sl) in Eg. rewrite Eg in E3. simpl in E3.
  assert (Href : sl_ref (with_ref sl1 (sl_ref sl1 + 1)) <> 0).
  { destruct (repr_slice_ok _ _ _ _ Hr1) as (Hp & _). unfold sl1 in *. simpl in *. lia. }
  destruct (pinned_after_collect H2 H3 _ _ Hr2 ltac:(apply in_app_iff; simpl; auto) Href E3)
    as (_ & ptr & Eptr & Hw).
  unfold dump_id. unfold sl1 in Eptr, Hw. cbn [sl_id sl_sz sl_body with_ref with_body] in Eptr, Hw.
  rewrite Eptr. do 2 f_equal.
  apply (read_memset_body _ _ (sl_body sl)); [by eapply get_ptr_aligned | by rewrite Hlen | lia].
Qed.
End Roundtrip.

(** A [memset] of 99 bytes (not a whole number of words) of the int
    257, whose [unsigned char] is 1, into the 100-byte payload. *)
Lemma set_id_roundtrip_witness :
  heap_repr ex_heap1 ([] ++ ex_slice :: []) /\ sl_id ex_slice <> 0 /\
  0 <= 99 <= 4 * (2 * sl_sz ex_slice - 3) /\
  exists H', set_id ex_heap1 (sl_id ex_slice) 257 99 = Ok H' /\
    heap_repr H' ([] ++ with_body ex_slice (memset_body (sl_body ex_slice) 257 99) :: []) /\
    dump_id H' (sl_id ex_slice) 99 = (sl_id ex_slice, Some (repeat (to_int8 (257 mod 256)) (Z.to_nat 99))).
Proof.
  assert (Hr : heap_repr ex_heap1 ([] ++ ex_slice :: [])) by repr_by_compute.
  assert (Hid : sl_id ex_slice <> 0) by done.
  assert (Hs : 0 <= 99 <= 4 * (2 * sl_sz ex_slice - 3)) by (vm_compute; split; discriminate).
  split; [exact Hr | split; [exact Hid | split; [exact Hs |]]].
  exact (set_id_roundtrip ex_heap1 [] ex_slice [] 257 99 Hr Hid Hs).
Defined.

(** Two objects of 100 bytes; the second is written, pinned and moved
    down over the first by the collection. *)
Definition ex_two : heap gmem := fst (bpa_create ex_heap1 100).
Definition ex_second : slice := mk_slice 0 14 (repeat 0 25) 2.
Definition ex_written : heap gmem := ok_or ex_two (set_id ex_two 2 7 98).
Definition ex_moved : heap gmem := ok_or ex_two (bpa_collect (fst (bpa_grab ex_written 2)) 0).

Lemma write_pin_collect_read_witness :
  heap_repr ex_two ([ex_slice] ++ ex_second :: []) /\ sl_id ex_second <> 0 /\
  0 <= 98 <= 4 * (2 * sl_sz ex_second - 3) /\
  set_id ex_two (sl_id ex_second) 7 98 = Ok ex_written /\
  bpa_collect (fst (bpa_grab ex_written (sl_id ex_second))) 0 = Ok ex_moved /\
  dump_id ex_moved (sl_id ex_second) 98 =
    (sl_id ex_second, Some (repeat (to_int8 (7 mod 256)) (Z.to_nat 98))).
Proof.
  assert (Hr : heap_repr ex_two ([ex_slice] ++ ex_second :: [])) by repr_by_compute.
  assert (Hid : sl_id ex_second <> 0) by done.
  assert (Hs : 0 <= 98 <= 4 * (2 * sl_sz ex_second - 3)) by (vm_compute; split; discriminate).
  assert (E1 : set_id ex_two (sl_id ex_second) 7 98 = Ok ex_written) by (vm_compute; reflexivity).
  assert (E3 : bpa_collect (fst (bpa_grab ex_written (sl_id ex_second))) 0 = Ok ex_moved)
    by (vm_compute; reflexivity).
  split; [exact Hr | split; [exact Hid | split; [exact Hs | split_and!; [exact E1 | exact E3 |]]]].
  exact (write_pin_collect_read ex_two ex_written ex_moved [ex_slice] ex_second [] 7 98 Hr Hid Hs E1 E3).
Defined.
