(* ===== verification/CollectBound.v ===== *)
(** * The work of one increment is bounded

    [collect] stops its scan once the counter [length] exceeds
    [COLLECT_STEP_LENGTH] (4096): every slice scanned adds 8 to it, every
    slice moved its size in bytes as well.  So an increment runs at most
    513 iterations of its loop, however large the heap, as long as the
    counter does not overflow: the theorem assumes a capacity of at most
    2^28 units (2 GiB), below which [length + sz * ALIGN_SIZE] fits in an
    [int].  [collect_loop_mono] says that more fuel never changes what the
    loop returns, so the fuel [quota_tests] (514) gives the same increment as the fuel
    of [collect]. *)

From Stdlib Require Import ZArith Lia.
From stdpp Require Import base gmap list.
From S2P Require Import Prelude Mem Heap Layout Relocate Alloc Collect CollectLoop CollectSpec.

(** The tests an increment performs at most: one per slice until the
    counter, raised by [SIZEOF_SLICE] per slice, exceeds the quota
    ([4096 / 8 + 1 = 513] slices), and the test that stops the loop. *)
Definition quota_tests : nat := S (S (Z.to_nat (COLLECT_STEP_LENGTH / SIZEOF_SLICE))).

Section Mono.
Context {M : Type} {MO : WordMemory M}.

Lemma collect_loop_mono f f' (H : heap M) p dst len H' :
  collect_loop f H p dst len = Ok H' -> (f <= f')%nat -> collect_loop f' H p dst len = Ok H'.
Proof.
  revert f' H p dst len. induction f as [|f IH]; intros f' H p dst len E Hle; [done |].
  destruct f' as [|f']; [lia |]. simpl in *.
  destruct (h_offset H <=? p); [done |]. destruct (COLLECT_STEP_LENGTH <? len); [done |].
  destruct (slice_ref (h_mem H) (HEAP_SLICE p) =? 0); [| destruct (dst =? p)]; apply IH; auto with lia.
Qed.
End Mono.

Section Bound.
Context {M : Type} {MO : WordMemory M} {ML : WordMemoryLaws M}.

(** With a counter [len] and [fuel] tests left such that the quota is
    exceeded before the fuel runs out, the loop returns. *)
Lemma collect_loop_bounded fuel (H : heap M) done P R p dst len :
  loop_inv H done P R p dst len -> h_sz H <= 2 ^ 28 -> 0 <= len -> (0 < fuel)%nat ->
  COLLECT_STEP_LENGTH < len + 8 * (Z.of_nat fuel - 1) ->
  exists H', collect_loop fuel H p dst len = Ok H'.
Proof.
  revert fuel H P p dst len.
  induction R as [|sl R IH]; intros fuel H P p dst len Hinv H28 Hl Hf Hq;
    (destruct fuel as [|fuel]; [lia |]); cbn [collect_loop].
  - pose proof Hinv as (_ & _ & _ & _ & _ & T2 & _). apply tiles_le in T2 as [_ Hpo].
    simpl in Hpo. destruct (Z.leb_spec (h_offset H) p); [by eexists | lia].
  - destruct (loop_read _ _ _ _ _ _ _ _ Hinv)
      as (Hsl & T3 & Hhp & Hhd & Hr & Hz & Hi & Wp & Wd & Wz & Hp).
    pose proof Hinv as (Hoff & _ & _ & _ & T1 & _). pose proof (tiles_le _ _ _ _ T1) as [Hd _].
    pose proof (tiles_le _ _ _ _ T3) as [Hend _]. pose proof Hsl as [Hsz2 _].
    destruct (Z.leb_spec (h_offset H) p); [by eexists |].
    destruct (Z.ltb_spec COLLECT_STEP_LENGTH len); [by eexists |].
    unfold COLLECT_STEP_LENGTH in *. rewrite Hhp, Hr, Hz, Hi, Wp, Hhd, Wz.
    assert (E8 : int_add_u len SIZEOF_SLICE = len + 8)
      by (apply int_add_u_small; unfold SIZEOF_SLICE; zlia).
    destruct (Z.eqb_spec (sl_ref sl) 0) as [E | E].
    + pose proof (loop_dead _ _ _ _ _ _ _ _ Hinv E ltac:(unfold COLLECT_STEP_LENGTH; lia)) as Hinv'.
      rewrite E8 in Hinv'. rewrite E8.
      destruct (sl_id sl =? 0); (eapply IH; [exact Hinv' | done | lia | lia | lia]).
    + rewrite E8, Wd. destruct (Z.eqb_spec dst p) as [<- | Hne].
      * eapply IH; [exact (loop_keep _ _ _ _ _ _ _ (len + 8) Hinv E) | done | lia | lia | lia].
      * assert (Em : int_add_u (len + 8) (8 * sl_sz sl) = len + 8 + 8 * sl_sz sl)
          by (apply int_add_u_small; zlia).
        rewrite Em. change (h_mem (set_slot (sl_id sl mod MAX_SLOT) dst H)) with (h_mem H).
        eapply IH; [exact (loop_move _ _ _ _ _ _ _ _ _ Hinv E Hne) | done | lia | lia | lia].
Qed.
End Bound.

Section Work.
Context {M : Type} {MO : WordMemory M} {ML : WordMemoryLaws M}.

(** C21: Bounded work per increment: on a well-formed heap of at most
    2 GiB with a cycle in progress, one call of [collect] ends within [quota_tests] (514)
    tests of its loop (513 slices scanned at most), whatever the size of
    the heap: the loop cut at [quota_tests] returns the same heap as
    [collect]. *)
Theorem collect_bounded_work (H : heap M) sls :
  heap_repr H sls -> h_collect H <> 0 -> h_sz H <= 2 ^ 28 ->
  exists H', collect_loop quota_tests H (h_collect H) (h_collect H) 0 = Ok H' /\ collect H = Ok H'.
Proof.
  intros Hr Hc H28. change quota_tests with 514%nat. destruct (cursor_split _ _ Hr Hc) as (done & rest & -> & Hcd).
  pose proof (loop_inv_start _ _ _ Hr Hcd) as Hinv.
  destruct (collect_loop_bounded 514 _ _ _ _ _ _ _ Hinv H28 ltac:(lia) ltac:(lia)
              ltac:(unfold COLLECT_STEP_LENGTH; lia)) as (H1 & E1).
  destruct (collect_spec _ _ _ Hr Hcd) as (H2 & E2 & _).
  exists H1. split; [done |]. rewrite E2. unfold collect in E2.
  destruct (Z.eqb_spec (h_collect H) 0); [done |].
  set (f := S (Z.to_nat (h_offset H - h_collect H))) in E2.
  pose proof (collect_loop_mono _ (Nat.max 514 f) _ _ _ _ _ E1 ltac:(lia)) as E1'.
  pose proof (collect_loop_mono _ (Nat.max 514 f) _ _ _ _ _ E2 ltac:(lia)) as E2'.
  congruence.
Qed.
End Work.

(** The instance: the pinned object of [ex_heap2] with a cycle started. *)
Lemma collect_bounded_work_witness :
  heap_repr (set_collect HEAP_HEADER_SIZE ex_heap2) [with_ref ex_slice 1] /\
  h_collect (set_collect HEAP_HEADER_SIZE ex_heap2) <> 0 /\
  h_sz (set_collect HEAP_HEADER_SIZE ex_heap2) <= 2 ^ 28 /\
  exists H', collect_loop quota_tests (set_collect HEAP_HEADER_SIZE ex_heap2)
               (h_collect (set_collect HEAP_HEADER_SIZE ex_heap2))
               (h_collect (set_collect HEAP_HEADER_SIZE ex_heap2)) 0 = Ok H' /\
             collect (set_collect HEAP_HEADER_SIZE ex_heap2) = Ok H'.
Proof.
  assert (Hr : heap_repr (set_collect HEAP_HEADER_SIZE ex_heap2) [with_ref ex_slice 1])
    by repr_by_compute.
  assert (Hc : h_collect (set_collect HEAP_HEADER_SIZE ex_heap2) <> 0) by (vm_compute; discriminate).
  assert (Hs : h_sz (set_collect HEAP_HEADER_SIZE ex_heap2) <= 2 ^ 28) by (vm_compute; discriminate).
  split_and!; [done | done | done |]. exact (collect_bounded_work _ _ Hr Hc Hs).
Defined.
