(* ===== verification/Api.v ===== *)
(** * The allocator as a state machine

    The public functions of [src/bpa.h] that change the heap, as the
    transitions of one state machine: [bpa_create], [bpa_grab],
    [bpa_release], [bpa_collect], and the lookups [bpa_get_ptr] and
    [bpa_get_id], which only read (and may fail their [assert]).
    [api_exec] runs one call, [api_run] a client's sequence of calls, and
    [reachable] is the set of heaps a client can reach from [bpa_init] on
    a zeroed buffer.  The theorems: every sequence of calls on a
    well-formed heap either returns a well-formed heap or stops on a
    failed [assert] of [bpa_release] or [bpa_get_id], reached on a
    well-formed heap (no other call aborts and no loop of the model runs
    out of fuel), and every
    reachable heap is well formed, by induction on the steps. *)

From Stdlib Require Import ZArith Lia.
From stdpp Require Import base gmap list.
From S2P Require Import Prelude Mem Heap Layout Relocate Alloc Collect CollectLoop CollectSpec.

(** One call of the interface of [src/bpa.h] (the debug [bpa_dump] aside). *)
Inductive api_call :=
| Create (sz : Z)
| Grab (uid : Z)
| Release (uid : Z)
| GetPtr (uid : Z)
| GetId (ptr : Z)
| Collect (step : Z).

(** The requested sizes for which [rsz] does not wrap (see [bpa_create_size_wraps]). *)
Definition call_ok (c : api_call) : Prop :=
  match c with Create sz => 0 <= sz < 2 ^ 34 | _ => True end.

(** The calls whose code has an [assert]: [bpa_release] and
    [bpa_get_id] ([collect] asserts too, but [bpa_collect] only calls it
    on a nonzero cursor). *)
Definition may_abort (c : api_call) : Prop :=
  match c with Release _ | GetId _ => True | _ => False end.

Section Machine.
Context {M : Type} {MO : WordMemory M}.

Definition api_exec (H : heap M) (c : api_call) : outcome (heap M) :=
  match c with
  | Create sz => Ok (fst (bpa_create H sz))
  | Grab uid => Ok (fst (bpa_grab H uid))
  | Release uid => bpa_release H uid
  | GetPtr _ => Ok H
  | GetId ptr => let! _ := bpa_get_id H ptr in Ok H
  | Collect step => bpa_collect H step
  end.

Fixpoint api_run (H : heap M) (cs : list api_call) : outcome (heap M) :=
  match cs with
  | [] => Ok H
  | c :: cs => let! H1 := api_exec H c in api_run H1 cs
  end.

(** The heaps a client reaches from [bpa_init] on a buffer of [size]
    bytes whose slot table reads 0, through calls that return. *)
Inductive reachable (mem0 : M) (size : Z) : heap M -> Prop :=
| reach_init H : bpa_init ∅ mem0 size = Some H -> reachable mem0 size H
| reach_step H c H' :
    reachable mem0 size H -> call_ok c -> api_exec H c = Ok H' -> reachable mem0 size H'.
End Machine.

Section Safety.
Context {M : Type} {MO : WordMemory M} {ML : WordMemoryLaws M}.

Lemma exec_keeps_inv (H H' : heap M) c :
  heap_inv H -> call_ok c -> api_exec H c = Ok H' -> heap_inv H'.
Proof.
  intros Hi Hc. destruct c; simpl in *; try (intros [= <-]).
  - by apply create_keeps_inv.
  - by apply grab_keeps_inv.
  - by apply release_keeps_inv.
  - done.
  - intros E. apply outcome_bind_Ok in E as (? & _ & [= <-]). done.
  - intros E. destruct Hi as [sls Hr]. destruct (collect_keeps_repr _ _ step Hr) as (H1 & sls' & E' & ?).
    rewrite E in E'. injection E' as <-. by exists sls'.
Qed.

Lemma reachable_heap_inv (mem0 : M) size H :
  reachable mem0 size H -> 0 <= size <= 2 ^ 32 -> heap_inv H.
Proof.
  intros Hr Hs. induction Hr as [H E | H c H' _ IH Hc E].
  - exists []. apply (init_repr ∅ mem0 size H E Hs). intros i. reflexivity.
  - exact (exec_keeps_inv _ _ _ IH Hc E).
Qed.

(** A run of calls that returns extends reachability. *)
Lemma reachable_run (mem0 : M) size (H H' : heap M) cs :
  reachable mem0 size H -> Forall call_ok cs -> api_run H cs = Ok H' -> reachable mem0 size H'.
Proof.
  revert H. induction cs as [|c cs IH]; intros H Hr Hok E; simpl in E; [by injection E as <- |].
  inversion Hok as [|? ? Hc Hcs]; subst. apply outcome_bind_Ok in E as (H1 & E1 & E2).
  exact (IH H1 (reach_step _ _ _ _ _ Hr Hc E1) Hcs E2).
Qed.

(** On a well-formed heap only a call with an [assert] of its own can
    abort. *)
Lemma exec_abort_may_abort (H : heap M) c : heap_inv H -> api_exec H c = Abort -> may_abort c.
Proof.
  intros [sls Hr]. destruct c; simpl; try done.
  destruct (collect_keeps_repr _ _ step Hr) as (? & ? & -> & _). done.
Qed.

(** A call never runs out of fuel on a well-formed heap. *)
Lemma exec_no_fuel_out (H : heap M) c : heap_inv H -> api_exec H c <> OutOfFuel.
Proof.
  intros [sls Hr]. destruct c; simpl; try done.
  - unfold bpa_release. destruct (resolve _ _); [| done]. by destruct (_ <? _).
  - unfold bpa_get_id. by destruct (_ && _).
  - destruct (collect_keeps_repr _ _ step Hr) as (? & ? & -> & _). done.
Qed.
End Safety.

Section Theorems.
Context {M : Type} {MO : WordMemory M} {ML : WordMemoryLaws M}.

(** C4: Safety of the interface: a sequence of calls on a well-formed heap
    (with sizes for which [rsz] does not wrap) either returns a
    well-formed heap, or stops at a call of [bpa_release] or [bpa_get_id]
    whose [assert] fails on the well-formed heap the calls before it
    reached; no other call aborts, and no loop runs out of fuel. *)
Theorem api_run_safe (H : heap M) cs :
  heap_inv H -> Forall call_ok cs ->
  (exists H', api_run H cs = Ok H' /\ heap_inv H') \/
  (exists pre c post H1, cs = pre ++ c :: post /\ api_run H pre = Ok H1 /\ heap_inv H1 /\
     api_exec H1 c = Abort /\ may_abort c /\ api_run H cs = Abort).
Proof.
  revert H. induction cs as [|c cs IH]; intros H Hi Hok; simpl; [by left; exists H |].
  inversion Hok as [|? ? Hc Hcs]; subst.
  destruct (api_exec H c) as [H1 | |] eqn:E; simpl.
  - destruct (IH H1 (exec_keeps_inv _ _ _ Hi Hc E) Hcs)
      as [? | (pre & c' & post & H2 & -> & E2 & ? & ? & ? & ?)]; [by left | right].
    exists (c :: pre), c', post, H2. simpl. rewrite E. simpl. auto 10.
  - right. exists [], c, cs, H. simpl. rewrite E. split_and!; eauto using exec_abort_may_abort.
  - by apply exec_no_fuel_out in E.
Qed.

(** C5: Every heap a client reaches from [bpa_init] on a zeroed buffer of
    at most 4 GiB is well formed (rule induction on [reachable]). *)
Theorem reachable_inv (mem0 : M) size H :
  reachable mem0 size H -> 0 <= size <= 2 ^ 32 -> heap_inv H.
Proof. apply reachable_heap_inv. Qed.

End Theorems.

(** ** Instances *)

(** A client that releases the handle twice: the run stops on the
    [assert(s->ref > 0)] of the second [bpa_release]. *)
Definition ex_calls : list api_call := [Create 100; Grab 1; Collect 1; Release 1; Release 1; GetPtr 1].

Lemma api_run_safe_witness :
  heap_inv ex_heap0 /\ Forall call_ok ex_calls /\
  ((exists H', api_run ex_heap0 ex_calls = Ok H' /\ heap_inv H') \/
   (exists pre c post H1, ex_calls = pre ++ c :: post /\ api_run ex_heap0 pre = Ok H1 /\
      heap_inv H1 /\ api_exec H1 c = Abort /\ may_abort c /\ api_run ex_heap0 ex_calls = Abort)).
Proof.
  assert (Hi : heap_inv ex_heap0) by (exists []; repr_by_compute).
  assert (Hok : Forall call_ok ex_calls) by (repeat constructor; simpl; lia).
  split_and!; [done | done |]. exact (api_run_safe ex_heap0 ex_calls Hi Hok).
Defined.

Lemma reachable_inv_witness :
  reachable (∅ : gmem) (2 ^ 20) ex_heap2 /\ 0 <= 2 ^ 20 <= 2 ^ 32 /\ heap_inv ex_heap2.
Proof.
  assert (Hr : reachable (∅ : gmem) (2 ^ 20) ex_heap2).
  { apply (reach_step _ _ ex_heap1 (Grab 1)); [| done | unfold ex_heap2; reflexivity].
    apply (reach_step _ _ ex_heap0 (Create 100)); [| simpl; lia | unfold ex_heap1; reflexivity].
    apply reach_init. reflexivity. }
  split_and!; [done | lia | lia |]. exact (reachable_inv _ _ _ Hr ltac:(lia)).
Defined.

