(* ===== verification/Quota.v ===== *)
(** * The work quota with a slice of 2 GiB or more

    [collect] adds [sz * ALIGN_SIZE], an [unsigned int] product, to its
    [int] counter [length] (line 169).  For a slice of [2^28] units or
    more the sum does not fit in an [int]: [length] becomes negative, the
    test [length > COLLECT_STEP_LENGTH] stays false, and the increment
    goes on scanning past its quota.  [CollectBound] proves the quota for
    heaps below 2 GiB; [collect_move_overflows_length] proves the step
    that breaks it for every heap, and its instance is a heap of 4 GiB
    reached through the interface, on the function memory [fmem] (a
    [memmove] of 2 GiB costs nothing until a word is read). *)

From Stdlib Require Import ZArith Lia.
From stdpp Require Import base gmap list.
From S2P Require Import Prelude Mem Heap Layout Relocate Alloc Collect CollectLoop CollectSpec CollectBound Api.

(** A 4 GiB buffer; an object of 100 bytes, one of 2 GiB, 600 more of 100
    bytes; the 2 GiB object pinned. *)
Definition quota_calls : list api_call :=
  [Create 100; Create (2 ^ 31)] ++ replicate 600 (Create 100) ++ [Grab 2].

Definition quota_heap0 : heap fmem := mk_heap (2 ^ 29) HEAP_HEADER_SIZE 0 0 ∅ (fun _ => 0).
Definition quota_heap : heap fmem := ok_or quota_heap0 (api_run quota_heap0 quota_calls).

(** The heap [bpa_collect(H, 1)] hands to [collect]: a cycle started. *)
Definition quota_start : heap fmem := set_collect HEAP_HEADER_SIZE quota_heap.

Lemma quota_calls_ok : Forall call_ok quota_calls.
Proof.
  apply Forall_forall. intros c Hc. unfold quota_calls in Hc.
  repeat rewrite elem_of_app in Hc. rewrite elem_of_replicate in Hc.
  destruct Hc as [Hc | [Hc | Hc]].
  - apply elem_of_cons in Hc as [-> | Hc%list_elem_of_singleton]; subst; simpl; zlia.
  - destruct Hc as [-> _]. simpl. zlia.
  - apply list_elem_of_singleton in Hc as ->. done.
Qed.

(** ** The counter of one move *)

Section Overflow.
Context {M : Type} {MO : WordMemory M}.

(** C22: [length] is an [int] to which [collect] adds [sizeof(struct
    slice)] and then [sz * ALIGN_SIZE] when it moves a pinned slice
    (lines 160-169): for a slice of [2^28] units or more (and a sum below
    [2^32]) the count of bytes exceeds [COLLECT_STEP_LENGTH], yet the
    counter wraps to the negative [length + 8 + 8 sz - 2^32], and the loop
    goes on at the next slice, with the bump pointer unchanged, instead
    of pausing at the quota test of line 147. *)
Theorem collect_move_overflows_length (H : heap M) fuel p dst len :
  p < h_offset H -> 0 <= len <= COLLECT_STEP_LENGTH ->
  slice_ref (h_mem H) (HEAP_SLICE p) <> 0 -> dst <> p ->
  2 ^ 28 <= slice_sz (h_mem H) (HEAP_SLICE p) ->
  len + SIZEOF_SLICE + slice_sz (h_mem H) (HEAP_SLICE p) * ALIGN_SIZE < 2 ^ 32 ->
  COLLECT_STEP_LENGTH < len + SIZEOF_SLICE + slice_sz (h_mem H) (HEAP_SLICE p) * ALIGN_SIZE /\
  exists H1, h_offset H1 = h_offset H /\
    collect_loop (S fuel) H p dst len =
    collect_loop fuel H1 (p ⊞ slice_sz (h_mem H) (HEAP_SLICE p)) (dst ⊞ slice_sz (h_mem H) (HEAP_SLICE p))
      (len + SIZEOF_SLICE + slice_sz (h_mem H) (HEAP_SLICE p) * ALIGN_SIZE - 2 ^ 32).
Proof.
  intros Hp Hl Href Hd Hsz Hlt. set (sz := slice_sz (h_mem H) (HEAP_SLICE p)) in *.
  split; [bpa_lia |]. cbn [collect_loop]. fold sz.
  destruct (Z.leb_spec (h_offset H) p); [lia |].
  destruct (Z.ltb_spec COLLECT_STEP_LENGTH len); [lia |].
  destruct (Z.eqb_spec (slice_ref (h_mem H) (HEAP_SLICE p)) 0); [done |].
  destruct (Z.eqb_spec dst p); [done |].
  replace (int_add_u (int_add_u len SIZEOF_SLICE) (sz ⊠ ALIGN_SIZE))
    with (len + SIZEOF_SLICE + sz * ALIGN_SIZE - 2 ^ 32).
  - eexists. split; [| reflexivity]. reflexivity.
  - assert (0 <= sz) by lia. assert (0 <= COLLECT_STEP_LENGTH < 2 ^ 30) by (unfold COLLECT_STEP_LENGTH; lia).
    unfold SIZEOF_SLICE, ALIGN_SIZE in *.
    rewrite (int_add_u_small len 8), (wrap32_small (sz * 8)), int_add_u_carry by lia. lia.
Qed.
End Overflow.

(** The scenario after the first test of [collect]: the free object of
    100 bytes dropped (its slot cleared), the 2 GiB object next, at
    [H->collect + 14], with [dst = H->collect] and [length = 8]. *)
Definition quota_mid : heap fmem := set_slot 1 0 quota_start.

Lemma collect_move_overflows_length_witness :
  reachable (fun _ => 0) (2 ^ 32) quota_heap /\
  HEAP_HEADER_SIZE + 14 < h_offset quota_mid /\ 0 <= 8 <= COLLECT_STEP_LENGTH /\
  slice_ref (h_mem quota_mid) (HEAP_SLICE (HEAP_HEADER_SIZE + 14)) <> 0 /\
  HEAP_HEADER_SIZE <> HEAP_HEADER_SIZE + 14 /\
  2 ^ 28 <= slice_sz (h_mem quota_mid) (HEAP_SLICE (HEAP_HEADER_SIZE + 14)) /\
  8 + SIZEOF_SLICE + slice_sz (h_mem quota_mid) (HEAP_SLICE (HEAP_HEADER_SIZE + 14)) * ALIGN_SIZE < 2 ^ 32 /\
  (COLLECT_STEP_LENGTH < 8 + SIZEOF_SLICE + slice_sz (h_mem quota_mid) (HEAP_SLICE (HEAP_HEADER_SIZE + 14)) * ALIGN_SIZE /\
   exists H1, h_offset H1 = h_offset quota_mid /\
     collect_loop (S quota_tests) quota_mid (HEAP_HEADER_SIZE + 14) HEAP_HEADER_SIZE 8 =
     collect_loop quota_tests H1
       ((HEAP_HEADER_SIZE + 14) ⊞ slice_sz (h_mem quota_mid) (HEAP_SLICE (HEAP_HEADER_SIZE + 14)))
       (HEAP_HEADER_SIZE ⊞ slice_sz (h_mem quota_mid) (HEAP_SLICE (HEAP_HEADER_SIZE + 14)))
       (8 + SIZEOF_SLICE + slice_sz (h_mem quota_mid) (HEAP_SLICE (HEAP_HEADER_SIZE + 14)) * ALIGN_SIZE - 2 ^ 32)).
Proof.
  assert (Hreach : reachable (fun _ => 0) (2 ^ 32) quota_heap).
  { apply (reachable_run _ _ quota_heap0 _ quota_calls); [| exact quota_calls_ok |].
    - apply reach_init. vm_compute. reflexivity.
    - apply ok_or_Ok. vm_compute. reflexivity. }
  assert (Hp : HEAP_HEADER_SIZE + 14 < h_offset quota_mid) by (apply Z.ltb_lt; vm_compute; reflexivity).
  assert (Hl : 0 <= 8 <= COLLECT_STEP_LENGTH) by bpa_lia.
  assert (Href : slice_ref (h_mem quota_mid) (HEAP_SLICE (HEAP_HEADER_SIZE + 14)) <> 0)
    by (vm_compute; discriminate).
  assert (Hd : HEAP_HEADER_SIZE <> HEAP_HEADER_SIZE + 14) by lia.
  assert (Hsz : 2 ^ 28 <= slice_sz (h_mem quota_mid) (HEAP_SLICE (HEAP_HEADER_SIZE + 14)))
    by (apply Z.leb_le; vm_compute; reflexivity).
  assert (Hlt : 8 + SIZEOF_SLICE + slice_sz (h_mem quota_mid) (HEAP_SLICE (HEAP_HEADER_SIZE + 14)) * ALIGN_SIZE < 2 ^ 32)
    by (apply Z.ltb_lt; vm_compute; reflexivity).
  split; [exact Hreach |]. split; [exact Hp |]. split; [exact Hl |]. split; [exact Href |].
  split; [exact Hd |]. split; [exact Hsz |]. split; [exact Hlt |].
  exact (collect_move_overflows_length quota_mid quota_tests (HEAP_HEADER_SIZE + 14) HEAP_HEADER_SIZE 8
           Hp Hl Href Hd Hsz Hlt).
Defined.
